(** * Stream interconnect of misoc: a shallow embedding of
      [misoc/interconnect/stream.py] and its properties.

    Part I embeds the Python/Migen source: construction-time code
    ([EndpointDescription.get_full_layout], [_get_converter_ratio]) as pure
    functions returning either an exception or a value, and the synchronous
    logic of each module ([_FIFOWrapper], [_UpConverter], [_DownConverter],
    [Buffer]) as a pair of functions: the combinational signals of one cycle
    and the register values after the clock edge.

    Part II states and proves the properties. *)

From stdpp Require Import gmap strings list.
From Stdlib Require Import ZArith Lia Bool.

Set Warnings "-register-all,-clear-no-such-hyp".
Local Open Scope Z_scope.

(* ===================================================================== *)
(** * Part I: the embedding                                               *)
(* ===================================================================== *)

(** ** Python exceptions raised at construction time *)

Module Py.

Inductive exn :=
| ValueError (msg : string)
| ZeroDivisionError
| AssertionError.

(** A construction either raises or returns. *)
Definition result (A : Type) : Type := exn + A.

Definition raises {A} (r : result A) : Prop := ∃ e, r = inl e.

Definition truthy (n : Z) : bool := negb (n =? 0).

End Py.

(** ** Layouts and endpoints (lines 6-49) *)

Module Layout.
Import Py.

Inductive direction := DIR_NONE | DIR_S_TO_M | DIR_M_TO_S.

(** [f[1]] of a leaf field: an [int] width or a [(width, signed)] tuple. *)
Inductive shape :=
| Bits (nbits : Z)
| BitsSign (nbits : Z) (signed : bool).

(** A payload layout is a list of [(name, shape)] or [(name, sublayout)]. *)
Inductive field :=
| Leaf (name : string) (s : shape)
| Sub (name : string) (sub : list field).

(** Fields of a full layout: leaves carry a direction. *)
Inductive dfield :=
| DLeaf (name : string) (s : shape) (d : direction)
| DSub (name : string) (sub : list dfield).

(** [f[0]] *)
Definition fname (f : field) : string :=
  match f with
  | Leaf n _ => n
  | Sub n _ => n
  end.

Fixpoint _make_m2s_field (f : field) : dfield :=
  match f with
  | Leaf n s => DLeaf n s DIR_M_TO_S
  | Sub n sub => DSub n (List.map _make_m2s_field sub)
  end.

Definition _make_m2s (layout : list field) : list dfield :=
  List.map _make_m2s_field layout.

Definition reserved : gset string :=
  {[ "stb"; "ack"; "payload"; "last"; "eop"; "description" ]}.

(** The [for f in self.payload_layout] loop, threading [attributed];
    [None] when the loop finishes without raising. *)
Fixpoint check_fields (attributed : gset string) (layout : list field)
  : option exn :=
  match layout with
  | [] => None
  | f :: rest =>
      if decide (fname f ∈ attributed) then
        Some (ValueError (fname f +:+ " already attributed in payload layout"))
      else if decide (fname f ∈ reserved) then
        Some (ValueError (fname f +:+ " cannot be used in endpoint layout"))
      else check_fields ({[ fname f ]} ∪ attributed) rest
  end.

Definition get_full_layout (payload_layout : list field)
  : result (list dfield) :=
  match check_fields ∅ payload_layout with
  | Some e => inl e
  | None =>
      inr [ DLeaf "stb" (Bits 1) DIR_M_TO_S;
            DLeaf "ack" (Bits 1) DIR_S_TO_M;
            DLeaf "last" (Bits 1) DIR_M_TO_S;
            DLeaf "eop" (Bits 1) DIR_M_TO_S;
            DSub "payload" (_make_m2s payload_layout) ]
  end.

(** [Endpoint(layout)]: the description is kept and the record is built
    from the full layout; construction fails when [get_full_layout] raises. *)
Record endpoint := {
  description : list field;
  full_layout : list dfield
}.

Definition Endpoint (payload_layout : list field) : result endpoint :=
  match get_full_layout payload_layout with
  | inl e => inl e
  | inr fl => inr {| description := payload_layout; full_layout := fl |}
  end.

(** Forgetting the directions of a full layout gives a payload layout
    back. *)
Fixpoint strip_direction (d : dfield) : field :=
  match d with
  | DLeaf n s _ => Leaf n s
  | DSub n sub => Sub n (List.map strip_direction sub)
  end.

(** Every leaf goes from master to slave. *)
Fixpoint all_m2s (d : dfield) : bool :=
  match d with
  | DLeaf _ _ DIR_M_TO_S => true
  | DLeaf _ _ _ => false
  | DSub _ sub => forallb all_m2s sub
  end.

End Layout.

(** ** Signals: widths, wrap-around and bit slices *)

Module Migen.

(** Number of bits of an unsigned value [n], the width Migen gives to
    [Signal(max=n+1)] (its [bits_for]; Migen itself is outside this
    repository). *)
Definition bits_for (n : Z) : Z :=
  if n <=? 0 then 1 else Z.log2 n + 1.

(** Assignment of [v] to a [w]-bit unsigned signal. *)
Definition wrap (w v : Z) : Z := v mod 2 ^ w.

(** [v[lo:hi]] *)
Definition slice (v lo hi : Z) : Z :=
  Z.land (Z.shiftr v lo) (Z.ones (hi - lo)).

(** [v[lo:hi].eq(x)]: the other bits of [v] keep their value. *)
Definition set_slice (v lo hi x : Z) : Z :=
  Z.lor (Z.ldiff v (Z.shiftl (Z.ones (hi - lo)) lo))
        (Z.shiftl (Z.land x (Z.ones (hi - lo))) lo).

(** [Cat(lo_part, bit)] where [lo_part] is [w] bits wide. *)
Definition cat_bit (w lo_part : Z) (bit : bool) : Z :=
  Z.lor (Z.land lo_part (Z.ones w)) (Z.shiftl (Z.b2z bit) w).

End Migen.

(** ** Converter selection (lines 355-370) *)

Module Ratio.
Import Py.

Inductive specialized_cls := _DownConverter | _UpConverter | _IdentityConverter.

(** Python's [%] and [//] on integers are floor division, as [Z.modulo] and
    [Z.div]; a zero divisor raises [ZeroDivisionError]. *)
Definition py_mod (a b : Z) : result Z :=
  if b =? 0 then inl ZeroDivisionError else inr (a mod b).

Definition py_floordiv (a b : Z) : result Z :=
  if b =? 0 then inl ZeroDivisionError else inr (a / b).

Definition ratio_of (cls : specialized_cls) (big small : Z)
  : result (specialized_cls * Z) :=
  match py_mod big small with
  | inl e => inl e
  | inr m =>
      if truthy m then inl (ValueError "Ratio must be an int")
      else match py_floordiv big small with
           | inl e => inl e
           | inr ratio => inr (cls, ratio)
           end
  end.

Definition _get_converter_ratio (nbits_from nbits_to : Z)
  : result (specialized_cls * Z) :=
  if nbits_from >? nbits_to then ratio_of _DownConverter nbits_from nbits_to
  else if nbits_from <? nbits_to then ratio_of _UpConverter nbits_to nbits_from
  else inr (_IdentityConverter, 1).

(** [Converter(nbits_from, nbits_to, reverse, report_valid_token_count)]:
    the selected class is instantiated with the ratio; each class builds its
    two endpoints first, and the identity converter then asserts that the
    ratio is 1. *)
Record converter := {
  specialized : specialized_cls;
  conv_ratio : Z;
  conv_reverse : bool;
  conv_sink : Layout.endpoint;
  conv_source : Layout.endpoint
}.

Definition source_layout (cls : specialized_cls) (nbits_to ratio : Z)
    (report_valid_token_count : bool) : list Layout.field :=
  Layout.Leaf "data" (Layout.Bits nbits_to)
  :: if report_valid_token_count
     then [Layout.Leaf "valid_token_count"
             (Layout.Bits match cls with
                          | _UpConverter => Migen.bits_for ratio
                          | _ => 1
                          end)]
     else [].

Definition specialize (cls : specialized_cls) (nbits_from nbits_to ratio : Z)
    (reverse report_valid_token_count : bool) : result converter :=
  match Layout.Endpoint [Layout.Leaf "data" (Layout.Bits nbits_from)] with
  | inl e => inl e
  | inr sink =>
      match Layout.Endpoint
              (source_layout cls nbits_to ratio report_valid_token_count) with
      | inl e => inl e
      | inr source =>
          if match cls with
             | _IdentityConverter => negb (ratio =? 1)
             | _ => false
             end
          then inl AssertionError
          else inr {| specialized := cls; conv_ratio := ratio;
                      conv_reverse := reverse;
                      conv_sink := sink; conv_source := source |}
      end
  end.

Definition Converter (nbits_from nbits_to : Z)
    (reverse report_valid_token_count : bool) : result converter :=
  match _get_converter_ratio nbits_from nbits_to with
  | inl e => inl e
  | inr (cls, ratio) =>
      specialize cls nbits_from nbits_to ratio reverse
                 report_valid_token_count
  end.

End Ratio.

(** ** The FIFO wrapper (lines 52-189) *)

Module Fifo.
Import Migen.

(** Constructor arguments; [payload_bits] is the bit length of the payload
    layout, so that the underlying queue is [payload_bits + 1] wide. *)
Record config := {
  depth : Z;
  hi_wm : option Z;
  lo_wm : option Z;
  payload_bits : Z
}.

(** What the producer drives on [sink]. *)
Record sink_in := {
  sink_stb : bool;
  sink_eop : bool;
  sink_last : bool;
  sink_payload : Z
}.

(** What the underlying queue ([self.fifo]) drives. *)
Record queue_out := {
  writable : bool;
  readable : bool;
  almost_full : bool;
  almost_empty : bool;
  dout : Z
}.

(** Registers of the [hi_wm] block. *)
Record hi_regs := {
  transfer_count : Z;
  activated : bool;
  eop_count : Z
}.

(** Register of the [lo_wm] block. *)
Record lo_regs := {
  recv_activated : bool
}.

(** The registers exist only when the corresponding watermark is given. *)
Record regs := {
  hi : option hi_regs;
  lo : option lo_regs
}.

Definition reset (c : config) : regs :=
  {| hi := match hi_wm c with
           | Some h => Some {| transfer_count := h - 1;
                               activated := false;
                               eop_count := 0 |}
           | None => None
           end;
     lo := match lo_wm c with
           | Some _ => Some {| recv_activated := false |}
           | None => None
           end |}.

(** Values of the combinational signals during one cycle. *)
Record signals := {
  sink_ack : bool;
  fifo_we : bool;
  fifo_re : bool;
  fifo_din : Z;
  source_stb : bool;
  source_eop : bool;
  source_last : bool;
  source_payload : Z;
  do_write : bool;
  do_read : bool;
  eop_count_next : Z;
  has_pending_eop : bool;
  transfer_count_ce : bool;
  transfer_count_rst : bool
}.

(** The [comb] statements.  A signal assigned in several statements takes the
    value of the last one: the [hi_wm] block overrides [fifo.re] and
    [source.stb], the [lo_wm] block overrides [fifo.we] and [sink.ack]. *)
Definition comb (c : config) (r : regs) (q : queue_out) (s : sink_in)
    (source_ack : bool) : signals :=
  let fifo_out_payload := slice (dout q) 0 (payload_bits c) in
  let fifo_out_eop := Z.testbit (dout q) (payload_bits c) in
  let fifo_in_eop := sink_eop s in
  let source_stb :=
    match hi r with
    | Some h => readable q && (almost_full q || activated h)
    | None => readable q
    end in
  let fifo_re :=
    match hi r with
    | Some _ => source_stb && source_ack
    | None => source_ack
    end in
  let source_last :=
    match hi r with
    | Some h => (transfer_count h =? 0) || fifo_out_eop
    | None => false
    end in
  let sink_ack :=
    match lo r with
    | Some l => writable q && (almost_empty q || recv_activated l)
    | None => writable q
    end in
  let fifo_we :=
    match lo r with
    | Some _ => sink_stb s && sink_ack
    | None => sink_stb s
    end in
  let do_write := fifo_we && writable q in
  let do_read := fifo_re && readable q in
  let eop_count_next :=
    match hi r with
    | Some h =>
        if fifo_in_eop && do_write then
          if negb (fifo_out_eop && do_read)
          then wrap (bits_for (depth c)) (eop_count h + 1)
          else eop_count h
        else if fifo_out_eop && do_read
        then wrap (bits_for (depth c)) (eop_count h - 1)
        else eop_count h
    | None => 0
    end in
  {| sink_ack := sink_ack;
     fifo_we := fifo_we;
     fifo_re := fifo_re;
     fifo_din := cat_bit (payload_bits c) (sink_payload s) fifo_in_eop;
     source_stb := source_stb;
     source_eop := fifo_out_eop;
     source_last := source_last;
     source_payload := fifo_out_payload;
     do_write := do_write;
     do_read := do_read;
     eop_count_next := eop_count_next;
     has_pending_eop := negb (eop_count_next =? 0);
     transfer_count_ce := do_read;
     transfer_count_rst := do_read && source_last |}.

(** The [sync] statements of the [hi_wm] block. *)
Definition sync_hi (h_wm : Z) (h : hi_regs) (q : queue_out) (s : sink_in)
    (g : signals) : hi_regs :=
  {| transfer_count :=
       if transfer_count_rst g then h_wm - 1
       else if transfer_count_ce g
            then wrap (bits_for (h_wm - 1)) (transfer_count h - 1)
            else transfer_count h;
     eop_count := eop_count_next g;
     activated :=
       if negb (activated h) then almost_full q || (sink_eop s && do_write g)
       else if do_read g && source_last g then has_pending_eop g
       else activated h |}.

(** The [sync] statement of the [lo_wm] block. *)
Definition sync_lo (l : lo_regs) (q : queue_out) (s : sink_in)
    (g : signals) : lo_regs :=
  {| recv_activated :=
       if negb (recv_activated l)
       then almost_empty q && negb (do_write g && sink_eop s)
       else if recv_activated l && (do_write g && (sink_last s || sink_eop s))
            then false
            else recv_activated l |}.

(** Register values after the clock edge. *)
Definition sync (c : config) (r : regs) (q : queue_out) (s : sink_in)
    (source_ack : bool) : regs :=
  let g := comb c r q s source_ack in
  {| hi := match hi_wm c, hi r with
           | Some h_wm, Some h => Some (sync_hi h_wm h q s g)
           | _, _ => hi r
           end;
     lo := match lo r with
           | Some l => Some (sync_lo l q s g)
           | None => None
           end |}.

(** States the wrapper can be in, whatever the queue and the two peers do. *)
Inductive reachable (c : config) : regs -> Prop :=
| reach_reset : reachable c (reset c)
| reach_sync r q s a : reachable c r -> reachable c (sync c r q s a).

(** *** The wrapper around a queue *)

(** Modelled from the spec: the signals of the raw queue
    ([migen.genlib.fifo.SyncFIFO], which is not part of this repository).
    It holds up to [depth] entries in order, is writable below capacity and
    readable when not empty, shows its oldest entry on [dout], and raises
    [almost_full] once the occupancy reaches the high watermark.  The
    near-empty flag is left a function [ae] of the occupancy, and [junk] is
    what [dout] shows when the queue is empty. *)
Definition queue_signals (c : config) (ae : Z -> bool) (junk : Z)
    (items : list Z) : queue_out :=
  let level := Z.of_nat (length items) in
  {| writable := level <? depth c;
     readable := 0 <? level;
     almost_full := match hi_wm c with
                    | Some h => h <=? level
                    | None => false
                    end;
     almost_empty := match lo_wm c with
                     | Some _ => ae level
                     | None => false
                     end;
     dout := hd junk items |}.

(** Modelled from the spec: the storage of the raw queue after the clock
    edge.  A read enable removes the oldest entry when the queue is readable;
    a write enable appends [din], truncated to the queue's width, when it is
    writable. *)
Definition queue_step (c : config) (items : list Z) (we re : bool) (din : Z)
  : list Z :=
  let level := Z.of_nat (length items) in
  let popped := if re && (0 <? level) then tl items else items in
  if we && (level <? depth c)
  then popped ++ [wrap (payload_bits c + 1) din]
  else popped.

Record cycle_in := {
  snk : sink_in;
  src_ack : bool
}.

Record system := {
  sys_regs : regs;
  sys_items : list Z
}.

Definition sys_reset (c : config) : system :=
  {| sys_regs := reset c; sys_items := [] |}.

Definition sys_signals (c : config) (ae : Z -> bool) (junk : Z)
    (st : system) (i : cycle_in) : signals :=
  comb c (sys_regs st) (queue_signals c ae junk (sys_items st))
       (snk i) (src_ack i).

Definition sys_step (c : config) (ae : Z -> bool) (junk : Z)
    (st : system) (i : cycle_in) : system :=
  let q := queue_signals c ae junk (sys_items st) in
  let g := comb c (sys_regs st) q (snk i) (src_ack i) in
  {| sys_regs := sync c (sys_regs st) q (snk i) (src_ack i);
     sys_items := queue_step c (sys_items st) (fifo_we g) (fifo_re g)
                             (fifo_din g) |}.

(** The signals of each cycle of a run, and the state it ends in. *)
Fixpoint run (c : config) (ae : Z -> bool) (junk : Z) (st : system)
    (ins : list cycle_in) : list (cycle_in * signals) * system :=
  match ins with
  | [] => ([], st)
  | i :: rest =>
      let g := sys_signals c ae junk st i in
      let '(tr, st') := run c ae junk (sys_step c ae junk st i) rest in
      ((i, g) :: tr, st')
  end.

(** A word enters when [sink.stb & sink.ack]; a word leaves when
    [source.stb & source.ack]. *)
Definition is_write (e : cycle_in * signals) : bool :=
  sink_stb (snk (fst e)) && sink_ack (snd e).

Definition is_read (e : cycle_in * signals) : bool :=
  source_stb (snd e) && src_ack (fst e).

Definition writes (tr : list (cycle_in * signals)) : nat :=
  length (List.filter is_write tr).

(** [source.last] on each output transfer, in order. *)
Definition read_lasts (tr : list (cycle_in * signals)) : list bool :=
  List.map (fun e => source_last (snd e)) (List.filter is_read tr).

(** *** Invariants of a run without [eop] *)

(** No stored entry has its [eop] bit set. *)
Definition eop_free (c : config) (items : list Z) : Prop :=
  Forall (fun x => Z.testbit x (payload_bits c) = false) items.

(** While the queue fills and nothing is read: the counter still has its
    reset value and no packet end is pending. *)
Definition filling (c : config) (h : Z) (st : system) : Prop :=
  eop_free c (sys_items st) /\
  exists act, hi (sys_regs st)
              = Some {| transfer_count := h - 1; activated := act;
                        eop_count := 0 |}.

(** While a burst drains with [j] entries left: the counter is [j-1], and
    the output is enabled by [activated] or by [almost_full]. *)
Definition draining (c : config) (h : Z) (j : nat) (st : system) : Prop :=
  length (sys_items st) = j /\
  eop_free c (sys_items st) /\
  Z.of_nat j <= h /\
  exists hr, hi (sys_regs st) = Some hr /\
             (j <> 0%nat ->
              eop_count hr = 0 /\
              transfer_count hr = Z.of_nat j - 1 /\
              (activated hr = true \/ Z.of_nat j = h)).

(** [source.last] on the transfers of a burst of [j] entries. *)
Definition burst_lasts (j : nat) : list bool :=
  match j with
  | O => []
  | S k => replicate k false ++ [true]
  end.

(** Inputs for concrete runs: a written word (consumer not ready) and a
    cycle in which only the consumer is ready. *)
Definition write_cycle (p : Z) (e : bool) : cycle_in :=
  {| snk := {| sink_stb := true; sink_eop := e; sink_last := false;
               sink_payload := p |};
     src_ack := false |}.

Definition read_cycle : cycle_in :=
  {| snk := {| sink_stb := false; sink_eop := false; sink_last := false;
               sink_payload := 0 |};
     src_ack := true |}.

Definition idle_cycle : cycle_in :=
  {| snk := {| sink_stb := false; sink_eop := false; sink_last := false;
               sink_payload := 0 |};
     src_ack := false |}.

(** [transfer_count] in a state of the system. *)
Definition sys_transfer_count (st : system) : option Z :=
  option_map transfer_count (hi (sys_regs st)).

(** *** What goes through the queue *)

(** Payload and [eop] of a stored entry, as [fifo_out] splits [dout]. *)
Definition decode (c : config) (x : Z) : Z * bool :=
  (slice x 0 (payload_bits c), Z.testbit x (payload_bits c)).

(** Payload (as far as it fits the payload's width) and [eop] of the words
    that entered during a run, in order. *)
Definition written (c : config) (tr : list (cycle_in * signals))
  : list (Z * bool) :=
  List.map (fun e => (sink_payload (snk (fst e)) mod 2 ^ payload_bits c,
                      sink_eop (snk (fst e))))
           (List.filter is_write tr).

(** Payload and [eop] of the words that left during a run, in order. *)
Definition read_out (tr : list (cycle_in * signals)) : list (Z * bool) :=
  List.map (fun e => (source_payload (snd e), source_eop (snd e)))
           (List.filter is_read tr).

(** Number of stored entries whose [eop] bit is set. *)
Definition eop_entries (c : config) (items : list Z) : nat :=
  length (List.filter (fun x => Z.testbit x (payload_bits c)) items).

(** [source.last] and [source.eop] on each output transfer, in order. *)
Definition read_flags (tr : list (cycle_in * signals)) : list (bool * bool) :=
  List.map (fun e => (source_last (snd e), source_eop (snd e)))
           (List.filter is_read tr).

(** [eop_count] is the number of stored entries with [eop]. *)
Definition counted (c : config) (st : system) : Prop :=
  Z.of_nat (length (sys_items st)) <= depth c /\
  exists hr, hi (sys_regs st) = Some hr /\
             eop_count hr = Z.of_nat (eop_entries c (sys_items st)).

(** While a high-watermark wrapper holds its output back: nothing was read,
    no packet end is stored, and [activated] is still low. *)
Definition holding (c : config) (h : Z) (st : system) : Prop :=
  eop_free c (sys_items st) /\
  hi (sys_regs st)
  = Some {| transfer_count := h - 1; activated := false; eop_count := 0 |}.

(** While a packet of [m+1] words drains with [j] words left before the one
    that carries [eop]. *)
Definition short_draining (c : config) (h : Z) (m j : nat) (st : system)
  : Prop :=
  exists pre e hr,
    sys_items st = pre ++ [e] /\
    length pre = j /\
    eop_free c pre /\
    Z.testbit e (payload_bits c) = true /\
    hi (sys_regs st) = Some hr /\
    activated hr = true /\
    eop_count hr = 1 /\
    transfer_count hr = h - 1 - Z.of_nat m + Z.of_nat j /\
    (j <= m)%nat /\ Z.of_nat m + 1 <= h.

End Fifo.

(** ** The width converters (lines 241-334) *)

Module Conv.
Import Migen.

(** Constructor arguments, the same for both converters. *)
Record config := {
  nbits_from : Z;
  nbits_to : Z;
  ratio : Z;
  reverse : bool;
  report_valid_token_count : bool
}.

(** What the producer drives on [sink] and the consumer on [source.ack]. *)
Record inputs := {
  sink_stb : bool;
  sink_eop : bool;
  sink_last : bool;
  sink_data : Z;
  source_ack : bool
}.

(** [n = ratio-i-1 if reverse else i] *)
Definition slot (c : config) (i : Z) : Z :=
  if reverse c then ratio c - i - 1 else i.

(** *** [_UpConverter] *)

Record up_regs := {
  demux : Z;
  strobe_all : bool;
  up_source_eop : bool;
  up_source_data : Z;
  up_valid_token_count : option Z
}.

Definition up_reset (c : config) : up_regs :=
  {| demux := 0;
     strobe_all := false;
     up_source_eop := false;
     up_source_data := 0;
     up_valid_token_count :=
       if report_valid_token_count c then Some 0 else None |}.

Record up_signals := {
  up_sink_ack : bool;
  up_source_stb : bool;
  up_source_last : bool;
  load_part : bool;
  demux_last : bool
}.

Definition up_comb (c : config) (r : up_regs) (i : inputs) : up_signals :=
  let sink_ack := negb (strobe_all r) || source_ack i in
  {| up_sink_ack := sink_ack;
     up_source_stb := strobe_all r;
     up_source_last := true;
     load_part := sink_stb i && sink_ack;
     demux_last := (demux r =? ratio c - 1) || sink_eop i |}.

(** [Case(demux, cases)]: slot [n] of [source.data] takes [sink.data] when
    [demux] is one of [0 .. ratio-1]; no case is selected otherwise. *)
Definition up_store (c : config) (r : up_regs) (i : inputs) : Z :=
  if (0 <=? demux r) && (demux r <? ratio c) then
    let n := slot c (demux r) in
    set_slice (up_source_data r) (n * nbits_from c) ((n + 1) * nbits_from c)
              (sink_data i)
  else up_source_data r.

(** The [sync] statements.  [strobe_all] is assigned by two of them; the
    later one, under [load_part] and [demux_last], wins over the clearing
    under [source.ack]. *)
Definition up_sync (c : config) (r : up_regs) (i : inputs) : up_regs :=
  let g := up_comb c r i in
  {| strobe_all :=
       if load_part g && demux_last g then true
       else if source_ack i then false
       else strobe_all r;
     demux :=
       if load_part g then
         if demux_last g then 0
         else wrap (bits_for (ratio c - 1)) (demux r + 1)
       else demux r;
     up_source_eop :=
       if up_source_stb g && source_ack i then sink_eop i
       else if sink_stb i && up_sink_ack g then sink_eop i || up_source_eop r
       else up_source_eop r;
     up_source_data :=
       if load_part g then up_store c r i else up_source_data r;
     up_valid_token_count :=
       match up_valid_token_count r with
       | Some v =>
           Some (if load_part g then wrap (bits_for (ratio c)) (demux r + 1)
                 else v)
       | None => None
       end |}.

(** *** [_DownConverter] *)

Record down_regs := {
  mux : Z
}.

Definition down_reset : down_regs := {| mux := 0 |}.

Record down_signals := {
  last : bool;
  down_source_stb : bool;
  down_source_eop : bool;
  down_source_last : bool;
  down_sink_ack : bool;
  down_source_data : Z;
  down_valid_token_count : option Z
}.

(** [Case(mux, cases).makedefault()]: the case of the highest key,
    [ratio-1], is the default. *)
Definition down_select (c : config) (r : down_regs) (i : inputs) : Z :=
  let k := if (0 <=? mux r) && (mux r <? ratio c) then mux r
           else ratio c - 1 in
  let n := slot c k in
  slice (sink_data i) (n * nbits_to c) ((n + 1) * nbits_to c).

Definition down_comb (c : config) (r : down_regs) (i : inputs)
  : down_signals :=
  let last := mux r =? ratio c - 1 in
  {| last := last;
     down_source_stb := sink_stb i;
     down_source_eop := sink_eop i && last;
     down_source_last := sink_last i && last;
     down_sink_ack := last && source_ack i;
     down_source_data := down_select c r i;
     down_valid_token_count :=
       if report_valid_token_count c then Some (Z.b2z last) else None |}.

Definition down_sync (c : config) (r : down_regs) (i : inputs) : down_regs :=
  let g := down_comb c r i in
  {| mux :=
       if down_source_stb g && source_ack i then
         if last g then 0 else wrap (bits_for (ratio c - 1)) (mux r + 1)
       else mux r |}.

(** *** Running one converter *)

Fixpoint up_run (c : config) (r : up_regs) (ins : list inputs)
  : list (inputs * up_regs * up_signals) :=
  match ins with
  | [] => []
  | i :: rest => (i, r, up_comb c r i) :: up_run c (up_sync c r i) rest
  end.

Fixpoint down_run (c : config) (r : down_regs) (ins : list inputs)
  : list (inputs * down_regs * down_signals) :=
  match ins with
  | [] => []
  | i :: rest => (i, r, down_comb c r i) :: down_run c (down_sync c r i) rest
  end.

(** An output transfer happens when [source.stb & source.ack], an input
    transfer when [sink.stb & sink.ack]. *)
Definition up_is_out (e : inputs * up_regs * up_signals) : bool :=
  up_source_stb (snd e) && source_ack (fst (fst e)).

Definition up_is_in (e : inputs * up_regs * up_signals) : bool :=
  sink_stb (fst (fst e)) && up_sink_ack (snd e).

Definition down_is_out (e : inputs * down_regs * down_signals) : bool :=
  down_source_stb (snd e) && source_ack (fst (fst e)).

Definition down_is_in (e : inputs * down_regs * down_signals) : bool :=
  sink_stb (fst (fst e)) && down_sink_ack (snd e).

(** The producer holds one wide word with [eop] and [last] set; the
    consumer's [ack] is given per cycle. *)
Definition hold_word (w : Z) (ack : bool) : inputs :=
  {| sink_stb := true; sink_eop := true; sink_last := true; sink_data := w;
     source_ack := ack |}.

(** Sub-word [k] of a wide word as the down-converter selects it. *)
Definition sub_word (c : config) (w : Z) (k : Z) : Z :=
  slice w (slot c k * nbits_to c) ((slot c k + 1) * nbits_to c).

(** [eop] of the words taken from the sink that complete or flush a group,
    and [eop] shown on the output transfers, in order. *)
Definition up_is_flush (e : inputs * up_regs * up_signals) : bool :=
  load_part (snd e) && demux_last (snd e).

Definition up_flush_eops (tr : list (inputs * up_regs * up_signals))
  : list bool :=
  List.map (fun e => sink_eop (fst (fst e))) (List.filter up_is_flush tr).

Definition up_out_eops (tr : list (inputs * up_regs * up_signals))
  : list bool :=
  List.map (fun e => up_source_eop (snd (fst e))) (List.filter up_is_out tr).

(** [eop] of every word taken from the sink, in order. *)
Definition up_in_eops (tr : list (inputs * up_regs * up_signals))
  : list bool :=
  List.map (fun e => sink_eop (fst (fst e))) (List.filter up_is_in tr).

(** The output word shown on the output transfers, in order. *)
Definition up_out_data (tr : list (inputs * up_regs * up_signals))
  : list Z :=
  List.map (fun e => up_source_data (snd (fst e))) (List.filter up_is_out tr).

(** [eop] of the output word waiting for delivery, if there is one. *)
Definition up_pending (r : up_regs) : list bool :=
  if strobe_all r then [up_source_eop r] else [].

(** A producer that asserts [eop] only together with [stb]. *)
Definition eop_gated (i : inputs) : Prop :=
  sink_eop i = true -> sink_stb i = true.

(** An idle producer that leaves [eop] high after its one-word packet, then
    sends two words without [eop]; the consumer takes each output word one
    cycle after it is complete. *)
Definition stale_eop_inputs : list inputs :=
  [ {| sink_stb := true;  sink_eop := true;  sink_last := false;
       sink_data := 0xAA; source_ack := false |};
    {| sink_stb := false; sink_eop := true;  sink_last := false;
       sink_data := 0xAA; source_ack := true |};
    {| sink_stb := true;  sink_eop := false; sink_last := false;
       sink_data := 0x11; source_ack := false |};
    {| sink_stb := true;  sink_eop := false; sink_last := false;
       sink_data := 0x22; source_ack := false |};
    {| sink_stb := false; sink_eop := false; sink_last := false;
       sink_data := 0; source_ack := true |} ].

(** [eop] and [last] as seen on the down-converter's source. *)
Definition down_flags (e : inputs * down_regs * down_signals) : bool * bool :=
  (down_source_eop (snd e), down_source_last (snd e)).

(** In a cycle of the down-converter, [sink.ack] is asserted only when
    [mux = ratio-1], and [valid_token_count], when reported, is 1 there and 0
    elsewhere. *)
Definition down_final_only (c : config)
    (e : inputs * down_regs * down_signals) : Prop :=
  (down_sink_ack (snd e) = true -> mux (snd (fst e)) = ratio c - 1) /\
  down_valid_token_count (snd e)
  = if report_valid_token_count c
    then Some (if mux (snd (fst e)) =? ratio c - 1 then 1 else 0)
    else None.

(** *** An up-converter feeding a down-converter

    The up-converter's [source] is connected into the down-converter's
    [sink] as [Record.connect] wires two endpoints: [stb], [eop], [last] and
    the payload go forward, [ack] goes back. *)

Record word := {
  w_data : Z;
  w_eop : bool;
  w_last : bool
}.

(** One cycle of the environment: whether the producer offers its next word
    (it drives [idle] on the sink, with [stb] low, when it does not or has
    none left), and whether the consumer is ready. *)
Record sched := {
  offer : bool;
  idle : word;
  ready : bool
}.

Record pipe := {
  p_up : up_regs;
  p_down : down_regs;
  p_pending : list word
}.

Definition pipe_reset (cu : config) (ws : list word) : pipe :=
  {| p_up := up_reset cu; p_down := down_reset; p_pending := ws |}.

(** What the producer drives this cycle. *)
Definition produce (p : pipe) (s : sched) : bool * word :=
  match p_pending p with
  | w :: _ => if offer s then (true, w) else (false, idle s)
  | [] => (false, idle s)
  end.

(** Inputs of the down-converter: the up-converter's source, whose [last]
    is constantly 1, and the consumer's [ack]. *)
Definition down_inputs (p : pipe) (s : sched) : inputs :=
  {| sink_stb := strobe_all (p_up p);
     sink_eop := up_source_eop (p_up p);
     sink_last := true;
     sink_data := up_source_data (p_up p);
     source_ack := ready s |}.

(** Inputs of the up-converter: the producer and the down-converter's
    [sink.ack]. *)
Definition up_inputs (cd : config) (p : pipe) (s : sched) : inputs :=
  let '(stb, w) := produce p s in
  {| sink_stb := stb;
     sink_eop := w_eop w;
     sink_last := w_last w;
     sink_data := w_data w;
     source_ack := down_sink_ack (down_comb cd (p_down p) (down_inputs p s)) |}.

Definition pipe_step (cu cd : config) (p : pipe) (s : sched) : pipe :=
  let iu := up_inputs cd p s in
  {| p_up := up_sync cu (p_up p) iu;
     p_down := down_sync cd (p_down p) (down_inputs p s);
     p_pending :=
       if sink_stb iu && up_sink_ack (up_comb cu (p_up p) iu)
       then tl (p_pending p) else p_pending p |}.

(** The narrow word delivered to the consumer this cycle, if any. *)
Definition pipe_out (cd : config) (p : pipe) (s : sched) : list Z :=
  let g := down_comb cd (p_down p) (down_inputs p s) in
  if down_source_stb g && ready s then [down_source_data g] else [].

(** The narrow words delivered during a run, in order. *)
Fixpoint pipe_run (cu cd : config) (p : pipe) (ss : list sched) : list Z :=
  match ss with
  | [] => []
  | s :: rest => pipe_out cd p s ++ pipe_run cu cd (pipe_step cu cd p s) rest
  end.

Fixpoint pipe_final (cu cd : config) (p : pipe) (ss : list sched) : pipe :=
  match ss with
  | [] => p
  | s :: rest => pipe_final cu cd (pipe_step cu cd p s) rest
  end.

(** Configurations of the two converters of a round trip over [n]-bit
    words. *)
Definition up_config (n r : Z) (rev report : bool) : config :=
  {| nbits_from := n; nbits_to := r * n; ratio := r; reverse := rev;
     report_valid_token_count := report |}.

Definition down_config (n r : Z) (rev report : bool) : config :=
  {| nbits_from := r * n; nbits_to := n; ratio := r; reverse := rev;
     report_valid_token_count := report |}.

(** [eop] only on a word that fills its group: word number [k] of a group
    may carry it only if [k = r-1]. *)
Fixpoint no_early_eop (r k : Z) (ws : list word) : Prop :=
  match ws with
  | [] => True
  | w :: rest =>
      (w_eop w = true -> k = r - 1) /\
      no_early_eop r (if k =? r - 1 then 0 else k + 1) rest
  end.

(** Data and [eop] of every word taken from the sink, in order. *)
Definition up_in_words (tr : list (inputs * up_regs * up_signals))
  : list (Z * bool) :=
  List.map (fun e => (sink_data (fst (fst e)), sink_eop (fst (fst e))))
           (List.filter up_is_in tr).

(** The registers after a run. *)
Fixpoint up_final (c : config) (r : up_regs) (ins : list inputs) : up_regs :=
  match ins with
  | [] => r
  | i :: rest => up_final c (up_sync c r i) rest
  end.

Fixpoint down_final (c : config) (r : down_regs) (ins : list inputs)
  : down_regs :=
  match ins with
  | [] => r
  | i :: rest => down_final c (down_sync c r i) rest
  end.

(** While the up-converter collects its first group: [got] lists the words
    taken so far, none of which carried [eop]. *)
Definition collecting (n r : Z) (cd : config) (report : bool) (st : up_regs)
    (got : list (Z * bool)) : Prop :=
  strobe_all st = false /\
  demux st = Z.of_nat (length got) /\
  Z.of_nat (length got) < r /\
  Forall (fun w => snd w = false) got /\
  (forall (i : nat) (x : Z),
     (fst <$> got) !! i = Some x ->
     sub_word cd (up_source_data st) (Z.of_nat i) = x) /\
  (match up_valid_token_count st with
   | Some v => report = true /\ (got <> [] -> v = Z.of_nat (length got))
   | None => report = false
   end) /\
  up_source_eop st = false.

(** While the output word made of the words [ws] waits for the consumer. *)
Definition flushed (n r : Z) (cd : config) (report : bool) (st : up_regs)
    (ws : list (Z * bool)) : Prop :=
  strobe_all st = true /\
  demux st = 0 /\
  1 <= Z.of_nat (length ws) <= r /\
  (forall (i : nat) (x : Z),
     (fst <$> ws) !! i = Some x ->
     sub_word cd (up_source_data st) (Z.of_nat i) = x) /\
  up_valid_token_count st
  = (if report then Some (Z.of_nat (length ws)) else None) /\
  (forall (i : nat) (w : Z * bool),
     ws !! i = Some w -> snd w = true ->
     S i = length ws /\ up_source_eop st = true) /\
  (Z.of_nat (length ws) < r -> up_source_eop st = true) /\
  up_source_eop st = List.last (List.map snd ws) false.

(** *** Invariant of the round trip

    [g] lists the narrow words held in the up-converter's output register:
    the group being collected while [strobe_all] is low, the complete group
    being emitted while it is high. *)

(** The words still to be delivered: the part of [g] not yet emitted, then
    the words the producer has not handed over yet. *)
Definition inflight (p : pipe) (g : list Z) : list Z :=
  drop (Z.to_nat (mux (p_down p))) g ++ List.map w_data (p_pending p).

(** Transfers still to be made: two for each pending word, one for each
    word held in the register. *)
Definition work (r : Z) (p : pipe) : Z :=
  2 * Z.of_nat (length (p_pending p))
  + (if strobe_all (p_up p) then r - mux (p_down p) else demux (p_up p)).

(** The number of words collected or pending, modulo the group size: zero
    when the pending words complete the group being collected and make
    whole groups after it. *)
Definition residue (r : Z) (p : pipe) : Z :=
  (demux (p_up p) + Z.of_nat (length (p_pending p))) mod r.

(** The words of a sequence that make whole groups of [r], and the words
    of the incomplete group after them. *)
Definition complete_groups (r : Z) (ws : list word) : list word :=
  take (Z.to_nat (Z.of_nat (length ws) - Z.of_nat (length ws) mod r)) ws.

Definition incomplete_group (r : Z) (ws : list word) : list word :=
  drop (Z.to_nat (Z.of_nat (length ws) - Z.of_nat (length ws) mod r)) ws.

(** Nothing is left to move: no word is pending and no output word is
    presented. *)
Definition settled (p : pipe) : Prop :=
  strobe_all (p_up p) = false /\ p_pending p = [].

(** A cycle in which the producer offers and the consumer is ready. *)
Definition enabled (s : sched) : bool := offer s && ready s.

Definition pipe_inv (n r : Z) (cd : config) (p : pipe) (g : list Z) : Prop :=
  (forall (i : nat) (x : Z),
     g !! i = Some x ->
     sub_word cd (up_source_data (p_up p)) (Z.of_nat i) = x) /\
  (if strobe_all (p_up p)
   then demux (p_up p) = 0 /\ Z.of_nat (length g) = r /\
        0 <= mux (p_down p) < r
   else mux (p_down p) = 0 /\ Z.of_nat (length g) = demux (p_up p) /\
        0 <= demux (p_up p) < r) /\
  no_early_eop r (demux (p_up p)) (p_pending p) /\
  Forall (fun w => 0 <= w_data w < 2 ^ n) (p_pending p).

End Conv.

(** ** The buffer stage (lines 436-448) *)

Module Buf.

Section WithPayload.
Variable payload : Type.

(** The registered [source] signals. *)
Record regs := {
  source_stb : bool;
  source_last : bool;
  source_eop : bool;
  source_payload : payload
}.

Record inputs := {
  sink_stb : bool;
  sink_last : bool;
  sink_eop : bool;
  sink_payload : payload;
  source_ack : bool
}.

(** [self.comb += self.sink.ack.eq(self.source.ack)] *)
Definition sink_ack (i : inputs) : bool := source_ack i.

(** [sink.connect(source, omit={"ack"})] under [If(self.source.ack, ...)]. *)
Definition sync (r : regs) (i : inputs) : regs :=
  if source_ack i then
    {| source_stb := sink_stb i;
       source_last := sink_last i;
       source_eop := sink_eop i;
       source_payload := sink_payload i |}
  else r.

Definition run (r : regs) (ins : list inputs) : regs :=
  fold_left sync ins r.

(** What [sink] presents during a cycle. *)
Definition presented (i : inputs) : regs :=
  {| source_stb := sink_stb i;
     source_last := sink_last i;
     source_eop := sink_eop i;
     source_payload := sink_payload i |}.

End WithPayload.

Arguments source_stb {payload}.
Arguments source_last {payload}.
Arguments source_eop {payload}.
Arguments source_payload {payload}.
Arguments sink_stb {payload}.
Arguments sink_last {payload}.
Arguments sink_eop {payload}.
Arguments sink_payload {payload}.
Arguments source_ack {payload}.
Arguments sink_ack {payload}.
Arguments sync {payload}.
Arguments run {payload}.
Arguments presented {payload}.

End Buf.

(** ** Multiplexer and demultiplexer (lines 205-238) *)

Module Mux.

Section WithPayload.
Variable payload : Type.

(** Value of the payload signals when no statement drives them (their reset
    value). *)
Variable payload_reset : payload.

(** What the master side of an endpoint drives. *)
Record forward := {
  stb : bool;
  last : bool;
  eop : bool;
  data : payload
}.

(** A combinatorial signal that no statement drives shows its reset
    value. *)
Definition undriven : forward :=
  {| stb := false; last := false; eop := false; data := payload_reset |}.

(** *** [Multiplexer] *)

(** The source and the [ack] of each sink. *)
Record mux_out := {
  m_source : forward;
  m_sink_acks : list bool
}.

(** [cases[i] = sink.connect(self.source)]: the source takes the sink's
    signals and the sink's [ack] takes the source's. *)
Definition mux_case (i : nat) (sink : forward) (source_ack : bool)
    (o : mux_out) : mux_out :=
  {| m_source := sink;
     m_sink_acks := <[i := source_ack]> (m_sink_acks o) |}.

(** [Case(self.sel, cases)], over [enumerate(sinks)] from index [i] on: the
    case whose key is [sel] is executed, if there is one. *)
Fixpoint mux_cases (i : nat) (sinks : list forward) (sel : Z)
    (source_ack : bool) (o : mux_out) : mux_out :=
  match sinks with
  | [] => o
  | sink :: rest =>
      mux_cases (S i) rest sel source_ack
        (if Z.of_nat i =? sel then mux_case i sink source_ack o else o)
  end.

Definition Multiplexer (sinks : list forward) (sel : Z) (source_ack : bool)
  : mux_out :=
  mux_cases 0 sinks sel source_ack
    {| m_source := undriven;
       m_sink_acks := replicate (length sinks) false |}.

(** *** [Demultiplexer] *)

(** The sources and the [ack] of the sink. *)
Record demux_out := {
  d_sources : list forward;
  d_sink_ack : bool
}.

(** [cases[i] = self.sink.connect(source)] *)
Definition demux_case (i : nat) (sink : forward) (source_ack : bool)
    (o : demux_out) : demux_out :=
  {| d_sources := <[i := sink]> (d_sources o);
     d_sink_ack := source_ack |}.

(** [Case(self.sel, cases)] over [enumerate(sources)], each source given by
    the [ack] its consumer drives. *)
Fixpoint demux_cases (i : nat) (source_acks : list bool) (sink : forward)
    (sel : Z) (o : demux_out) : demux_out :=
  match source_acks with
  | [] => o
  | source_ack :: rest =>
      demux_cases (S i) rest sink sel
        (if Z.of_nat i =? sel then demux_case i sink source_ack o else o)
  end.

Definition Demultiplexer (sink : forward) (source_acks : list bool) (sel : Z)
  : demux_out :=
  demux_cases 0 source_acks sink sel
    {| d_sources := replicate (length source_acks) undriven;
       d_sink_ack := false |}.

(** *** A multiplexer feeding a demultiplexer

    The multiplexer's source is connected into the demultiplexer's sink;
    the result is the demultiplexer's sources and the [ack] of each of the
    multiplexer's sinks. *)
Definition mux_demux (sinks : list forward) (source_acks : list bool)
    (sel_mux sel_demux : Z) : list forward * list bool :=
  let ack := d_sink_ack (Demultiplexer undriven source_acks sel_demux) in
  let m := Multiplexer sinks sel_mux ack in
  let d := Demultiplexer (m_source m) source_acks sel_demux in
  (d_sources d, m_sink_acks m).

End WithPayload.

Arguments stb {payload}.
Arguments last {payload}.
Arguments eop {payload}.
Arguments data {payload}.
Arguments undriven {payload}.
Arguments m_source {payload}.
Arguments m_sink_acks {payload}.
Arguments mux_case {payload}.
Arguments mux_cases {payload}.
Arguments Multiplexer {payload}.
Arguments d_sources {payload}.
Arguments d_sink_ack {payload}.
Arguments demux_case {payload}.
Arguments demux_cases {payload}.
Arguments Demultiplexer {payload}.
Arguments mux_demux {payload}.

End Mux.

(** ** The stride converter (lines 383-433)

    The two loops read a layout as [for name, width in layout]: a flat list
    of fields with integer widths.  [getattr(endpoint, name)] is the payload
    field of that name; names that Migen's [Record] binds on the endpoint
    object itself are outside this model. *)

Module Stride.
Import Py Migen.

Definition layout := list (string * Z).

(** A field's signal: its width and its value in the current cycle. *)
Record signal := {
  sig_width : Z;
  sig_value : Z
}.

(** The payload of an endpoint: its fields' signals in layout order. *)
Definition payload := list (string * signal).

(** The layout as [Endpoint] receives it. *)
Definition fields (l : layout) : list Layout.field :=
  List.map (fun f => Layout.Leaf (fst f) (Layout.Bits (snd f))) l.

(** [len(payload.raw_bits())]: the sum of the fields' widths. *)
Fixpoint layout_len (l : layout) : Z :=
  match l with
  | [] => 0
  | f :: rest => snd f + layout_len rest
  end.

(** [getattr(endpoint, name)]; [None] stands for Python's
    [AttributeError]. *)
Fixpoint getattr {A : Type} (p : list (string * A)) (name : string)
  : option A :=
  match p with
  | [] => None
  | f :: rest => if decide (fst f = name) then Some (snd f)
                 else getattr rest name
  end.

(** [payload.raw_bits()]: [Cat] of the fields, the first one in the low
    bits. *)
Fixpoint raw_bits (p : payload) : Z :=
  match p with
  | [] => 0
  | f :: rest =>
      Z.lor (wrap (sig_width (snd f)) (sig_value (snd f)))
            (Z.shiftl (raw_bits rest) (sig_width (snd f)))
  end.

(** [payload.raw_bits().eq(data)]: each field takes its bits of [data]. *)
Fixpoint assign_raw_bits (l : layout) (data : Z) : payload :=
  match l with
  | [] => []
  | f :: rest =>
      (fst f, {| sig_width := snd f; sig_value := slice data 0 (snd f) |})
      :: assign_raw_bits rest (Z.shiftr data (snd f))
  end.

(** A bound of [sig[a:b]] on a signal of [w] bits, clamped as Python's
    [slice.indices] does. *)
Definition index (w a : Z) : Z :=
  if a <? 0 then Z.max (a + w) 0 else Z.min a w.

(** Value of [sig[a:b]]. *)
Definition read (s : signal) (a b : Z) : Z :=
  slice (sig_value s) (index (sig_width s) a) (index (sig_width s) b).

(** One statement [target[lo:hi].eq(src)] added to [self.comb]; [a_target]
    names the payload field the slice is taken of. *)
Record assign := {
  a_target : string;
  a_lo : Z;
  a_hi : Z;
  a_src : Z
}.

(** The statements in order on a signal that is 0 where nothing drives
    it; only those on [target] touch it. *)
Definition drive (target : string) (stmts : list assign) : Z :=
  fold_left (fun v a => if decide (a_target a = target)
                        then set_slice v (a_lo a) (a_hi a) (a_src a)
                        else v)
            stmts 0.

(** The inner loop of the sink cast for one [i], from offset [j]:
    [converter.sink.data[i*nbits_to+j : i*nbits_to+j+width]
       .eq(getattr(sink, name)[i*width : (i+1)*width])]. *)
Fixpoint down_fields (sink : payload) (nbits_from nbits_to i j : Z)
    (layout_to : layout) : option (list assign) :=
  match layout_to with
  | [] => Some []
  | f :: rest =>
      let name := fst f in
      let width := snd f in
      match getattr sink name with
      | None => None
      | Some s =>
          match down_fields sink nbits_from nbits_to i (j + width) rest with
          | None => None
          | Some stmts =>
              Some ({| a_target := "data";
                       a_lo := index nbits_from (i * nbits_to + j);
                       a_hi := index nbits_from (i * nbits_to + j + width);
                       a_src := read s (i * width) ((i + 1) * width) |}
                    :: stmts)
          end
      end
  end.

(** The inner loop of the source cast for one [i], from offset [j]:
    [getattr(source, name)[i*width : (i+1)*width]
       .eq(converter.source.data[i*nbits_from+j : i*nbits_from+j+width])];
    [source] gives the width of each field of the source endpoint and
    [data] is [nbits_to] bits wide. *)
Fixpoint up_fields (source : layout) (data nbits_from nbits_to i j : Z)
    (layout_from : layout) : option (list assign) :=
  match layout_from with
  | [] => Some []
  | f :: rest =>
      let name := fst f in
      let width := snd f in
      match getattr source name with
      | None => None
      | Some w =>
          match up_fields source data nbits_from nbits_to i (j + width) rest
          with
          | None => None
          | Some stmts =>
              Some ({| a_target := name;
                       a_lo := index w (i * width);
                       a_hi := index w ((i + 1) * width);
                       a_src := read {| sig_width := nbits_to;
                                        sig_value := data |}
                                     (i * nbits_from + j)
                                     (i * nbits_from + j + width) |}
                    :: stmts)
          end
      end
  end.

(** [for i in range(ratio)] around an inner loop. *)
Fixpoint rows (row : Z -> option (list assign)) (range : list Z)
  : option (list assign) :=
  match range with
  | [] => Some []
  | i :: rest =>
      match row i with
      | None => None
      | Some stmts =>
          match rows row rest with
          | None => None
          | Some more => Some (stmts ++ more)
          end
      end
  end.

(** [StrideConverter(layout_from, layout_to, reverse,
    report_valid_token_count)]: the two endpoints are built, then the
    converter for the two raw widths. *)
Definition StrideConverter (layout_from layout_to : layout)
    (reverse report_valid_token_count : bool) : result Ratio.converter :=
  match Layout.Endpoint (fields layout_from) with
  | inl e => inl e
  | inr _ =>
      match Layout.Endpoint (fields layout_to) with
      | inl e => inl e
      | inr _ =>
          Ratio.Converter (layout_len layout_from) (layout_len layout_to)
                          reverse report_valid_token_count
      end
  end.

(** The cast of the sink's fields to [converter.sink.data]. *)
Definition sink_cast (conv : Ratio.converter)
    (layout_from layout_to : layout) (sink : payload) : option Z :=
  match Ratio.specialized conv with
  | Ratio._DownConverter =>
      option_map (drive "data")
        (rows (fun i => down_fields sink (layout_len layout_from)
                          (layout_len layout_to) i 0 layout_to)
              (seqZ 0 (Ratio.conv_ratio conv)))
  | _ => Some (wrap (layout_len layout_from) (raw_bits sink))
  end.

(** The cast of [converter.source.data] to the source's fields. *)
Definition source_cast (conv : Ratio.converter)
    (layout_from layout_to : layout) (data : Z) : option payload :=
  match Ratio.specialized conv with
  | Ratio._UpConverter =>
      option_map
        (fun stmts =>
           List.map (fun f => (fst f, {| sig_width := snd f;
                                         sig_value := drive (fst f) stmts |}))
                    layout_to)
        (rows (fun i => up_fields layout_to data (layout_len layout_from)
                          (layout_len layout_to) i 0 layout_from)
              (seqZ 0 (Ratio.conv_ratio conv)))
  | _ => Some (assign_raw_bits layout_to data)
  end.

(** Offset of field number [k] in the raw bits of a layout. *)
Definition offset (l : layout) (k : nat) : Z := layout_len (take k l).

(** The endpoint [Endpoint([("data", nbits)])] of a converter, for concrete
    runs. *)
Definition data_endpoint (nbits : Z) : Layout.endpoint :=
  {| Layout.description := [Layout.Leaf "data" (Layout.Bits nbits)];
     Layout.full_layout :=
       [ Layout.DLeaf "stb" (Layout.Bits 1) Layout.DIR_M_TO_S;
         Layout.DLeaf "ack" (Layout.Bits 1) Layout.DIR_S_TO_M;
         Layout.DLeaf "last" (Layout.Bits 1) Layout.DIR_M_TO_S;
         Layout.DLeaf "eop" (Layout.Bits 1) Layout.DIR_M_TO_S;
         Layout.DSub "payload"
           [Layout.DLeaf "data" (Layout.Bits nbits) Layout.DIR_M_TO_S] ] |}.

End Stride.

(* ===================================================================== *)
(** * Part II: properties                                                 *)
(* ===================================================================== *)

(** ** Endpoint construction *)

Section LayoutProps.
Import Py Layout.

(** The loop over the payload layout finishes without raising exactly when
    the field names are pairwise distinct, not yet attributed and not
    reserved. *)
Lemma check_fields_None (att : gset string) (layout : list field) :
  check_fields att layout = None ↔
  NoDup (fname <$> layout) ∧
  ∀ n, n ∈ (fname <$> layout) → (n ∉ att) ∧ (n ∉ reserved).
Proof.
  revert att. induction layout as [|f rest IH]; intros att; simpl.
  - split; [intros _|done]. split; [constructor|]. intros n Hn. inversion Hn.
  - destruct (decide (fname f ∈ att)) as [Hin|Hnin].
    { split; [done|]. intros [_ H]. destruct (H (fname f)) as [H1 _]; [left|]. done. }
    destruct (decide (fname f ∈ reserved)) as [Hr|Hnr].
    { split; [done|]. intros [_ H]. destruct (H (fname f)) as [_ H2]; [left|]. done. }
    rewrite IH. rewrite NoDup_cons. split.
    + intros [Hnd H]. split; [split; [|done]|].
      * intros Hd. apply H in Hd as [Hd _]. apply Hd.
        apply elem_of_union_l, elem_of_singleton. reflexivity.
      * intros n Hn. apply elem_of_cons in Hn as [->|Hn]; [done|].
        apply H in Hn as [Hn1 Hn2]. split; [|done].
        intros Hc. apply Hn1. by apply elem_of_union_r.
    + intros [[Hnf Hnd] H]. split; [done|]. intros n Hn. split.
      * destruct (H n) as [Hn1 _]; [by right|].
        intros [Hc%elem_of_singleton|Hc]%elem_of_union; [|done].
        subst n. done.
      * destruct (H n) as [_ Hn2]; [by right|done].
Qed.

(** Whatever the loop raises is a [ValueError]. *)
Lemma check_fields_Some (att : gset string) (layout : list field) (e : exn) :
  check_fields att layout = Some e → ∃ msg, e = ValueError msg.
Proof.
  revert att. induction layout as [|f rest IH]; intros att; simpl; [done|].
  destruct (decide (fname f ∈ att)); [intros [= <-]; eauto|].
  destruct (decide (fname f ∈ reserved)); [intros [= <-]; eauto|].
  apply IH.
Qed.

Lemma Endpoint_raises_iff (layout : list field) :
  (∃ msg, Endpoint layout = inl (ValueError msg)) ↔
  ¬ (NoDup (fname <$> layout) ∧ ∀ n, n ∈ (fname <$> layout) → n ∉ reserved).
Proof.
  unfold Endpoint, get_full_layout.
  destruct (check_fields ∅ layout) as [e|] eqn:E.
  - split.
    + intros _ [Hnd Hres].
      assert (check_fields ∅ layout = None) as E'; [|congruence].
      apply check_fields_None. split; [done|]. intros n Hn.
      split; [apply not_elem_of_empty|by apply Hres].
    + intros _. apply check_fields_Some in E as [msg ->]. eauto.
  - split; [intros [msg [=]]|].
    intros H. exfalso. apply H. apply check_fields_None in E as [Hnd Hres].
    split; [done|]. intros n Hn. by apply Hres.
Qed.

(** C6 (as amended): building an endpoint from a payload layout raises
    [ValueError] whenever two fields of the layout have the same name, and
    whenever a field of the layout is named [stb], [ack], [payload], [last]
    or [eop] (the names of the valid and ready controls in the code are
    [stb] and [ack]); every one of these five names is rejected. *)
Theorem Endpoint_rejects_duplicate_or_control_name (layout : list field) :
  (¬ NoDup (fname <$> layout) ∨
   ∃ f, f ∈ layout ∧
        fname f ∈ ({[ "stb"; "ack"; "payload"; "last"; "eop" ]} : gset string)) →
  ∃ msg, Endpoint layout = inl (ValueError msg).
Proof.
  intros H. apply Endpoint_raises_iff. intros [Hnd Hres].
  destruct H as [H|(f & Hf & Hname)]; [done|].
  apply (Hres (fname f)).
  - apply list_elem_of_fmap. eauto.
  - unfold reserved. set_solver.
Qed.

Lemma Endpoint_rejects_duplicate_or_control_name_witness :
  (∃ msg, Endpoint [Leaf "data" (Bits 8); Leaf "data" (Bits 1)]
          = inl (ValueError msg)) ∧
  (∃ msg, Endpoint [Leaf "data" (Bits 8); Sub "stb" [Leaf "x" (Bits 1)]]
          = inl (ValueError msg)).
Proof.
  split.
  - apply Endpoint_rejects_duplicate_or_control_name. left.
    simpl. intros Hnd. apply NoDup_cons in Hnd as [Hn _].
    apply Hn. left.
  - apply Endpoint_rejects_duplicate_or_control_name. right.
    exists (Sub "stb" [Leaf "x" (Bits 1)]). split.
    + right. left.
    + simpl. apply (bool_decide_unpack _). vm_compute. exact I.
Defined.

(** The check looks at the names of the layout's own fields only: the names
    inside a nested layout are neither compared nor checked. *)
Example Endpoint_nested_names_unchecked :
  Endpoint [Sub "a" [Leaf "stb" (Bits 1); Leaf "stb" (Bits 1)]] =
  inr {| description := [Sub "a" [Leaf "stb" (Bits 1); Leaf "stb" (Bits 1)]];
         full_layout :=
           [ DLeaf "stb" (Bits 1) DIR_M_TO_S;
             DLeaf "ack" (Bits 1) DIR_S_TO_M;
             DLeaf "last" (Bits 1) DIR_M_TO_S;
             DLeaf "eop" (Bits 1) DIR_M_TO_S;
             DSub "payload"
               [DSub "a" [DLeaf "stb" (Bits 1) DIR_M_TO_S;
                          DLeaf "stb" (Bits 1) DIR_M_TO_S]] ] |}.
Proof. vm_compute. reflexivity. Qed.

(** C6 (as stated, fails): the names [valid] and [ready] are not reserved.
    A layout with a field named [valid], one with a field named [ready],
    and one with both are accepted, and the fields become payload fields of
    the endpoint. *)
Lemma Endpoint_accepts_valid_ready :
  (∃ e, Endpoint [Leaf "valid" (Bits 1)] = inr e) ∧
  (∃ e, Endpoint [Leaf "ready" (Bits 1)] = inr e) ∧
  Endpoint [Leaf "valid" (Bits 1); Leaf "ready" (Bits 1)]
  = inr {| description := [Leaf "valid" (Bits 1); Leaf "ready" (Bits 1)];
           full_layout :=
             [ DLeaf "stb" (Bits 1) DIR_M_TO_S;
               DLeaf "ack" (Bits 1) DIR_S_TO_M;
               DLeaf "last" (Bits 1) DIR_M_TO_S;
               DLeaf "eop" (Bits 1) DIR_M_TO_S;
               DSub "payload"
                 [ DLeaf "valid" (Bits 1) DIR_M_TO_S;
                   DLeaf "ready" (Bits 1) DIR_M_TO_S ] ] |}.
Proof.
  split; [|split].
  - eexists. vm_compute. reflexivity.
  - eexists. vm_compute. reflexivity.
  - vm_compute. reflexivity.
Qed.

(** C10: building an endpoint from a payload layout that has a field named
    [description] raises [ValueError]: the name is reserved like [stb],
    [ack], [payload], [last] and [eop]. *)
Theorem Endpoint_rejects_description (layout : list field) :
  (∃ f, f ∈ layout ∧ fname f = "description") →
  ∃ msg, Endpoint layout = inl (ValueError msg).
Proof.
  intros (f & Hf & Hname). apply Endpoint_raises_iff. intros [_ Hres].
  apply (Hres (fname f)).
  - apply list_elem_of_fmap. eauto.
  - rewrite Hname. unfold reserved. set_solver.
Qed.

Lemma Endpoint_rejects_description_witness :
  ∃ msg, Endpoint [Leaf "data" (Bits 8); Leaf "description" (Bits 4)]
         = inl (ValueError msg).
Proof.
  apply Endpoint_rejects_description.
  exists (Leaf "description" (Bits 4)). split.
  - right. left.
  - reflexivity.
Defined.

End LayoutProps.

(** ** Converter selection *)

Section RatioProps.
Import Py Ratio.

Lemma ratio_of_spec (cls : specialized_cls) (big small : Z) :
  ((small | big) ∧ small ≠ 0 ∧ ratio_of cls big small = inr (cls, big / small)) ∨
  (¬ (small | big) ∧ raises (ratio_of cls big small)) ∨
  (small = 0 ∧ big = 0 ∧ raises (ratio_of cls big small)).
Proof.
  unfold ratio_of, py_mod, py_floordiv, truthy, raises.
  destruct (Z.eqb_spec small 0) as [->|Hs].
  - destruct (Z.eq_dec big 0) as [->|Hb].
    + right. right. eauto.
    + right. left. split; [|eauto]. intros [k Hk]. lia.
  - destruct (Z.eqb_spec (big mod small) 0) as [Hm|Hm]; simpl.
    + left. split; [|done]. by apply Z.mod_divide.
    + right. left. split; [|eauto]. intros Hd. apply Hm. by apply Z.mod_divide.
Qed.

(** Building the selected class cannot fail once the ratio is chosen. *)
Lemma specialize_ok (cls : specialized_cls) (nbits_from nbits_to ratio : Z)
    (reverse report : bool) :
  (cls = _IdentityConverter → ratio = 1) →
  ∃ conv, specialize cls nbits_from nbits_to ratio reverse report = inr conv ∧
          specialized conv = cls ∧ conv_ratio conv = ratio.
Proof.
  intros Hid. unfold specialize, source_layout.
  assert (match cls with
          | _IdentityConverter => negb (ratio =? 1)
          | _ => false
          end = false) as Hassert.
  { destruct cls; try done. rewrite Hid by done. reflexivity. }
  destruct report; vm_compute Layout.Endpoint; cbv iota; rewrite Hassert;
    eexists; (split; [reflexivity|done]).
Qed.

(** C7: for different widths, constructing a converter raises exactly when
    the larger width is not an integer multiple of the smaller one;
    otherwise it selects the down-converter with ratio
    [nbits_from / nbits_to] when [nbits_from > nbits_to] and the up-converter
    with ratio [nbits_to / nbits_from] when [nbits_from < nbits_to]; for
    equal widths it selects the identity converter with ratio 1. *)
Theorem Converter_selection (nbits_from nbits_to : Z)
    (reverse report : bool) :
  (nbits_from ≠ nbits_to →
   (raises (Converter nbits_from nbits_to reverse report) ↔
    ¬ (Z.min nbits_from nbits_to | Z.max nbits_from nbits_to))) ∧
  (nbits_from > nbits_to → (nbits_to | nbits_from) →
   ∃ conv, Converter nbits_from nbits_to reverse report = inr conv ∧
           specialized conv = _DownConverter ∧
           conv_ratio conv = nbits_from / nbits_to) ∧
  (nbits_from < nbits_to → (nbits_from | nbits_to) →
   ∃ conv, Converter nbits_from nbits_to reverse report = inr conv ∧
           specialized conv = _UpConverter ∧
           conv_ratio conv = nbits_to / nbits_from) ∧
  (nbits_from = nbits_to →
   ∃ conv, Converter nbits_from nbits_to reverse report = inr conv ∧
           specialized conv = _IdentityConverter ∧
           conv_ratio conv = 1).
Proof.
  unfold Converter, _get_converter_ratio.
  destruct (Z.gtb_spec nbits_from nbits_to) as [Hgt|Hle].
  - rewrite Z.min_r, Z.max_l by lia.
    destruct (ratio_of_spec _DownConverter nbits_from nbits_to)
      as [(Hd & Hz & ->)|[(Hd & [e ->])|(-> & -> & _)]]; [| |lia].
    + destruct (specialize_ok _DownConverter nbits_from nbits_to
                  (nbits_from / nbits_to) reverse report)
        as (conv & Hc & H1 & H2);
        [done|].
      rewrite Hc. split; [|split; [|split]]; try lia; eauto.
      intros _. split; [intros [e [=]]|done].
    + split; [|split; [|split]]; try lia; try done.
      intros _. split; [done|]. intros _. by exists e.
  - destruct (Z.ltb_spec nbits_from nbits_to) as [Hlt|Hge].
    + rewrite Z.min_l, Z.max_r by lia.
      destruct (ratio_of_spec _UpConverter nbits_to nbits_from)
        as [(Hd & Hz & ->)|[(Hd & [e ->])|(-> & -> & _)]]; [| |lia].
      * destruct (specialize_ok _UpConverter nbits_from nbits_to
                    (nbits_to / nbits_from) reverse report)
          as (conv & Hc & H1 & H2);
          [done|].
        rewrite Hc. split; [|split; [|split]]; try lia; eauto.
        intros _. split; [intros [e [=]]|done].
      * split; [|split; [|split]]; try lia; try done.
        intros _. split; [done|]. intros _. by exists e.
    + destruct (specialize_ok _IdentityConverter nbits_from nbits_to 1
                  reverse report) as (conv & Hc & H1 & H2); [done|].
      rewrite Hc. split; [|split; [|split]]; try lia; eauto.
Qed.

Lemma Converter_selection_witness :
  (raises (Converter 32 12 false false) ↔ ¬ (Z.min 32 12 | Z.max 32 12)) ∧
  (∃ conv, Converter 32 8 false true = inr conv ∧
           specialized conv = _DownConverter ∧ conv_ratio conv = 32 / 8) ∧
  (∃ conv, Converter 8 32 true true = inr conv ∧
           specialized conv = _UpConverter ∧ conv_ratio conv = 32 / 8) ∧
  (∃ conv, Converter 8 8 false false = inr conv ∧
           specialized conv = _IdentityConverter ∧ conv_ratio conv = 1).
Proof.
  split; [|split; [|split]].
  - apply (Converter_selection 32 12 false false). lia.
  - apply (Converter_selection 32 8 false true); [lia|].
    exists 4. reflexivity.
  - apply (Converter_selection 8 32 true true); [lia|].
    exists 4. reflexivity.
  - apply (Converter_selection 8 8 false false). reflexivity.
Defined.

(** The exception is the [ValueError] of the source unless the smaller width
    is zero, where Python's [%] raises first. *)
Example Converter_errors :
  Converter 32 12 false false = inl (ValueError "Ratio must be an int") ∧
  Converter 8 0 false false = inl ZeroDivisionError.
Proof. split; reflexivity. Qed.

End RatioProps.

(** ** The FIFO wrapper: control logic *)

Section FifoControl.
Import Fifo.

(** The watermark registers exist in a reachable state exactly when the
    watermarks were given. *)
Lemma reachable_regs (c : config) (r : regs) :
  reachable c r →
  (is_Some (hi r) ↔ is_Some (hi_wm c)) ∧ (is_Some (lo r) ↔ is_Some (lo_wm c)).
Proof.
  induction 1 as [|r q s a _ [IHh IHl]].
  - unfold reset; simpl.
    destruct (hi_wm c), (lo_wm c); simpl; split; split;
      intros [x Hx]; try discriminate; eauto.
  - unfold sync; simpl. split.
    + rewrite <- IHh. destruct (hi_wm c), (hi r); simpl; split;
        intros [x Hx]; try discriminate; eauto.
    + rewrite <- IHl. destruct (lo r); simpl; split;
        intros [x Hx]; try discriminate; eauto.
Qed.

(** C8: without watermarks the wrapper has no burst-control register, and in
    every cycle [sink.ack] is the queue's [writable], the queue's write
    enable is [sink.stb], [source.stb] is the queue's [readable] and the
    queue's read enable is [source.ack]. *)
Theorem fifo_plain_is_elastic (c : config) (r : regs) (q : queue_out)
    (s : sink_in) (a : bool) :
  hi_wm c = None → lo_wm c = None → reachable c r →
  sink_ack (comb c r q s a) = writable q ∧
  fifo_we (comb c r q s a) = sink_stb s ∧
  source_stb (comb c r q s a) = readable q ∧
  fifo_re (comb c r q s a) = a ∧
  r = {| hi := None; lo := None |} ∧
  sync c r q s a = r.
Proof.
  intros Hh Hl Hr. apply reachable_regs in Hr as [Hrh Hrl].
  rewrite Hh in Hrh. rewrite Hl in Hrl.
  destruct r as [[h|] [l|]]; simpl in *;
    try (exfalso; eapply is_Some_None; apply Hrh; eauto; fail);
    try (exfalso; eapply is_Some_None; apply Hrl; eauto; fail).
  unfold sync, comb; simpl. rewrite Hh. done.
Qed.

Lemma fifo_plain_is_elastic_witness :
  let c := {| depth := 4; hi_wm := None; lo_wm := None; payload_bits := 8 |} in
  let q := {| writable := true; readable := false; almost_full := false;
              almost_empty := false; dout := 0 |} in
  let s := {| sink_stb := true; sink_eop := false; sink_last := false;
              sink_payload := 5 |} in
  sink_ack (comb c (reset c) q s true) = writable q ∧
  fifo_we (comb c (reset c) q s true) = sink_stb s ∧
  source_stb (comb c (reset c) q s true) = readable q ∧
  fifo_re (comb c (reset c) q s true) = true ∧
  reset c = {| hi := None; lo := None |} ∧
  sync c (reset c) q s true = reset c.
Proof.
  intros c q s.
  apply (fifo_plain_is_elastic c (reset c) q s true);
    [reflexivity | reflexivity | apply reach_reset].
Defined.

(** C2: with a low watermark, in every reachable state [sink.ack] is the
    queue's [writable] and ([almost_empty] or [recv_activated]), so it is
    asserted only then; a write with [eop] into a near-empty queue while
    [recv_activated] is clear is accepted and leaves it clear; once
    [recv_activated] is set it stays set on every cycle without a transfer
    carrying [last] or [eop], and such a transfer clears it.  The latch is
    set from the clear state exactly by a cycle in which the queue is
    near-empty and no word with [eop] is taken, so that its next value is
    in every case a function of its value, [almost_empty] and the transfer;
    and a state in which it is set can be reached. *)
Theorem fifo_lo_wm_recv_control (c : config) (l_wm : Z) (r : regs)
    (q : queue_out) (s : sink_in) (a : bool) :
  lo_wm c = Some l_wm → reachable c r →
  ∃ l l',
    lo r = Some l ∧ lo (sync c r q s a) = Some l' ∧
    sink_ack (comb c r q s a)
    = writable q && (almost_empty q || recv_activated l) ∧
    (sink_ack (comb c r q s a) = true →
     writable q = true ∧
     (almost_empty q = true ∨ recv_activated l = true)) ∧
    (recv_activated l = false → sink_stb s = true → sink_eop s = true →
     sink_ack (comb c r q s a) = true → recv_activated l' = false) ∧
    (recv_activated l = false → sink_stb s = true → sink_eop s = true →
     writable q = true → almost_empty q = true →
     sink_ack (comb c r q s a) = true ∧ recv_activated l' = false) ∧
    (recv_activated l = true →
     sink_stb s && sink_ack (comb c r q s a)
       && (sink_last s || sink_eop s) = false →
     recv_activated l' = true) ∧
    (recv_activated l = true →
     sink_stb s && sink_ack (comb c r q s a)
       && (sink_last s || sink_eop s) = true →
     recv_activated l' = false) ∧
    (recv_activated l = false → almost_empty q = true →
     sink_stb s && sink_ack (comb c r q s a) && sink_eop s = false →
     recv_activated l' = true) ∧
    (recv_activated l = false → almost_empty q = false →
     recv_activated l' = false) ∧
    recv_activated l'
    = (if recv_activated l
       then negb (sink_stb s && sink_ack (comb c r q s a)
                  && (sink_last s || sink_eop s))
       else almost_empty q
            && negb (sink_stb s && sink_ack (comb c r q s a)
                     && sink_eop s)) ∧
    ∃ r1, reachable c r1 ∧ lo r1 = Some {| recv_activated := true |}.
Proof.
  intros Hl Hr.
  assert (∃ r1, reachable c r1 ∧ lo r1 = Some {| recv_activated := true |})
    as Hset.
  { exists (sync c (reset c)
              {| writable := true; readable := false; almost_full := false;
                 almost_empty := true; dout := 0 |}
              {| sink_stb := false; sink_eop := false; sink_last := false;
                 sink_payload := 0 |} false).
    split; [apply reach_sync, reach_reset|].
    unfold sync, sync_lo, comb, reset; simpl. by rewrite Hl. }
  apply reachable_regs in Hr as [_ Hrl].
  destruct Hrl as [_ Hrl]. destruct Hrl as [l El]; [rewrite Hl; eauto|].
  exists l, (sync_lo l q s (comb c r q s a)).
  split; [done|]. split; [unfold sync; simpl; by rewrite El|].
  unfold sync_lo, comb; simpl. rewrite El; simpl.
  destruct l as [ra]; simpl.
  destruct (writable q), (almost_empty q), ra, (sink_stb s), (sink_eop s),
    (sink_last s); simpl; repeat split; intros; try done; auto.
Qed.

Lemma fifo_lo_wm_recv_control_witness :
  let c := {| depth := 8; hi_wm := None; lo_wm := Some 4; payload_bits := 8 |} in
  let q := {| writable := true; readable := false; almost_full := false;
              almost_empty := true; dout := 0 |} in
  let q' := {| writable := true; readable := true; almost_full := false;
               almost_empty := false; dout := 0 |} in
  let one := {| sink_stb := true; sink_eop := true; sink_last := false;
                sink_payload := 5 |} in
  let word := {| sink_stb := true; sink_eop := false; sink_last := false;
                 sink_payload := 6 |} in
  let final := {| sink_stb := true; sink_eop := false; sink_last := true;
                  sink_payload := 7 |} in
  let r1 := sync c (reset c) q word false in
  (* a one-word packet leaves the latch clear *)
  lo (sync c (reset c) q one false) = Some {| recv_activated := false |} ∧
  (* the first word of a burst sets it *)
  lo r1 = Some {| recv_activated := true |} ∧
  (* it is kept, and the word taken, although the queue is no longer
     near-empty *)
  sink_ack (comb c r1 q' word false) = true ∧
  lo (sync c r1 q' word false) = Some {| recv_activated := true |} ∧
  (* the word with [last] clears it *)
  lo (sync c r1 q' final false) = Some {| recv_activated := false |}.
Proof.
  intros c q q' one word final r1.
  destruct (fifo_lo_wm_recv_control c 4 (reset c) q one false eq_refl
              (reach_reset c))
    as (l0 & l0' & E0 & E0' & _ & _ & _ & Hone & _).
  assert (recv_activated l0 = false) as Hl0 by (by injection E0 as <-).
  destruct (Hone Hl0 eq_refl eq_refl eq_refl eq_refl) as [_ H0].
  destruct (fifo_lo_wm_recv_control c 4 (reset c) q word false eq_refl
              (reach_reset c))
    as (l1 & l1' & E1 & E1' & _ & _ & _ & _ & _ & _ & Hset & _).
  assert (recv_activated l1 = false) as Hl1 by (by injection E1 as <-).
  specialize (Hset Hl1 eq_refl eq_refl).
  assert (reachable c r1) as Hr1 by apply reach_sync, reach_reset.
  destruct (fifo_lo_wm_recv_control c 4 r1 q' word false eq_refl Hr1)
    as (l2 & l2' & E2 & E2' & Hack & _ & _ & _ & Hkeep & _).
  assert (recv_activated l2 = true) as Hl2.
  { fold r1 in E1'. rewrite E1' in E2. injection E2 as <-. exact Hset. }
  specialize (Hkeep Hl2 eq_refl).
  destruct (fifo_lo_wm_recv_control c 4 r1 q' final false eq_refl Hr1)
    as (l3 & l3' & E3 & E3' & _ & _ & _ & _ & _ & Hclear & _).
  assert (recv_activated l3 = true) as Hl3.
  { fold r1 in E1'. rewrite E1' in E3. injection E3 as <-. exact Hset. }
  specialize (Hclear Hl3 eq_refl).
  split; [|split; [|split; [|split]]].
  - rewrite E0'. destruct l0'. simpl in H0. by rewrite H0.
  - fold r1 in E1'. rewrite E1'. destruct l1'. simpl in Hset. by rewrite Hset.
  - rewrite Hack, Hl2. reflexivity.
  - rewrite E2'. destruct l2'. simpl in Hkeep. by rewrite Hkeep.
  - rewrite E3'. destruct l3'. simpl in Hclear. by rewrite Hclear.
Defined.

End FifoControl.

(** ** The buffer stage *)

Section BufferProps.
Import Buf.
Context {payload : Type}.

Lemma buffer_stall (r : regs payload) (stall : list (inputs payload)) :
  Forall (λ j, source_ack j = false) stall → run r stall = r.
Proof.
  unfold run. induction 1 as [|j stall Hj _ IH]; simpl; [done|].
  unfold sync at 2. by rewrite Hj.
Qed.

(** C9: [sink.ack] is [source.ack] in every cycle; a cycle with [source.ack]
    low leaves the output register (valid, last, eop, payload) as it was; so
    after any number of cycles with [source.ack] low the register still holds
    what [sink] presented during the last cycle in which [source.ack] was
    high, and that is what the stage shows when [source.ack] is raised
    again. *)
Theorem buffer_holds_through_stall (r : regs payload)
    (before : list (inputs payload)) (i : inputs payload)
    (stall : list (inputs payload)) :
  source_ack i = true →
  Forall (λ j, source_ack j = false) stall →
  (∀ j : inputs payload, sink_ack j = source_ack j) ∧
  (∀ (r' : regs payload) j, source_ack j = false → sync r' j = r') ∧
  run r (before ++ i :: stall) = presented i.
Proof.
  intros Hi Hstall. split; [done|]. split.
  - intros r' j Hj. unfold sync. by rewrite Hj.
  - unfold run. rewrite fold_left_app. simpl.
    fold (run (sync (fold_left sync before r) i) stall).
    rewrite buffer_stall by done. unfold sync. by rewrite Hi.
Qed.

End BufferProps.

Lemma buffer_holds_through_stall_witness :
  let i1 := {| Buf.sink_stb := true; Buf.sink_last := false;
               Buf.sink_eop := true; Buf.sink_payload := 7;
               Buf.source_ack := true |} in
  let i2 := {| Buf.sink_stb := true; Buf.sink_last := true;
               Buf.sink_eop := false; Buf.sink_payload := 9;
               Buf.source_ack := false |} in
  let r0 := {| Buf.source_stb := false; Buf.source_last := false;
               Buf.source_eop := false; Buf.source_payload := 0 |} in
  Buf.run r0 ([i2; i1] ++ i1 :: [i2; i2; i2]) = Buf.presented i1.
Proof.
  intros i1 i2 r0.
  apply (buffer_holds_through_stall r0 [i2; i1] i1 [i2; i2; i2]).
  - reflexivity.
  - repeat constructor.
Defined.

(** ** Counters stay within their width *)

Section Width.
Import Migen.

Lemma bits_for_spec (n x : Z) : 0 ≤ x ≤ n → x < 2 ^ bits_for n.
Proof.
  intros Hx. unfold bits_for. destruct (Z.leb_spec n 0) as [Hn|Hn].
  - assert (x = 0) as -> by lia. reflexivity.
  - pose proof (Z.log2_spec n Hn) as [_ Hlog].
    rewrite <- Z.add_1_r in Hlog. lia.
Qed.

Lemma wrap_small (n x : Z) : 0 ≤ x ≤ n → wrap (bits_for n) x = x.
Proof.
  intros Hx. unfold wrap. apply Z.mod_small.
  split; [lia|]. by apply bits_for_spec.
Qed.

End Width.

(** ** The down-converter *)

Section DownConverter.
Import Migen Conv.

Variable c : config.
Variable w : Z.

Lemma down_run_final_only (r : down_regs) (ins : list inputs) :
  Forall (down_final_only c) (down_run c r ins).
Proof.
  revert r. induction ins as [|i ins IH]; intros r; simpl; constructor.
  - unfold down_final_only, down_comb; simpl. split.
    + intros [H _]%andb_true_iff. by apply Z.eqb_eq.
    + destruct (report_valid_token_count c); [|done].
      by destruct (mux r =? ratio c - 1).
  - apply IH.
Qed.

(** One cycle with the word held. *)
Lemma hold_sync (m : Z) (a : bool) :
  down_sync c {| mux := m |} (hold_word w a)
  = {| mux := if a then
                if m =? ratio c - 1 then 0
                else wrap (bits_for (ratio c - 1)) (m + 1)
              else m |}.
Proof. by destruct a. Qed.

Lemma hold_is_out (m : Z) (a : bool) :
  down_is_out (hold_word w a, {| mux := m |},
               down_comb c {| mux := m |} (hold_word w a)) = a.
Proof. reflexivity. Qed.

Lemma hold_is_in (m : Z) (a : bool) :
  down_is_in (hold_word w a, {| mux := m |},
              down_comb c {| mux := m |} (hold_word w a))
  = (m =? ratio c - 1) && a.
Proof. reflexivity. Qed.

Lemma hold_flags (m : Z) (a : bool) :
  down_flags (hold_word w a, {| mux := m |},
              down_comb c {| mux := m |} (hold_word w a))
  = (m =? ratio c - 1, m =? ratio c - 1).
Proof. reflexivity. Qed.

Lemma hold_data (m : Z) (a : bool) :
  0 ≤ m < ratio c →
  down_source_data (down_comb c {| mux := m |} (hold_word w a))
  = sub_word c w m.
Proof.
  intros Hm. unfold down_comb, down_select, sub_word; simpl.
  by replace ((0 <=? m) && (m <? ratio c)) with true by lia.
Qed.

Lemma down_run_stalled (m : Z) (acks : list bool) :
  Forall (λ a, a = false) acks →
  List.filter down_is_out
    (down_run c {| mux := m |} (List.map (hold_word w) acks)) = [] ∧
  List.filter down_is_in
    (down_run c {| mux := m |} (List.map (hold_word w) acks)) = [].
Proof.
  induction 1 as [|a acks -> _ IH]; [done|].
  cbn [List.map down_run List.filter].
  rewrite hold_is_out, hold_is_in, hold_sync, andb_false_r. exact IH.
Qed.

Lemma filter_id_all_false (acks : list bool) :
  length (List.filter id acks) = 0%nat → Forall (λ a, a = false) acks.
Proof.
  induction acks as [|[] acks IH]; simpl; intros H; [done|done|].
  constructor; [done|]. by apply IH.
Qed.

Lemma down_run_from (m : Z) (acks : list bool) :
  0 ≤ m < ratio c →
  Z.of_nat (length (List.filter id acks)) = ratio c - m →
  List.map down_flags
    (List.filter down_is_out
       (down_run c {| mux := m |} (List.map (hold_word w) acks)))
  = replicate (Z.to_nat (ratio c - 1 - m)) (false, false) ++ [(true, true)] ∧
  List.map (λ e, down_source_data (snd e))
    (List.filter down_is_out
       (down_run c {| mux := m |} (List.map (hold_word w) acks)))
  = List.map (sub_word c w) (seqZ m (ratio c - m)) ∧
  length (List.filter down_is_in
            (down_run c {| mux := m |} (List.map (hold_word w) acks)))
  = 1%nat.
Proof.
  revert m. induction acks as [|a acks IH]; intros m Hm Hcount.
  { simpl in Hcount. lia. }
  cbn [List.map down_run List.filter].
  rewrite hold_is_out, hold_is_in, hold_sync.
  destruct a; cbn [List.filter id] in Hcount; cbn [andb];
    [|rewrite andb_false_r; apply (IH m); lia].
  cbn [List.map snd]. rewrite hold_flags, hold_data by done.
  rewrite (seqZ_cons m) by lia. cbn [List.map].
  destruct (Z.eqb_spec m (ratio c - 1)) as [->|Hne].
  - (* the final sub-word *)
    destruct (down_run_stalled 0 acks) as [-> ->].
    { apply filter_id_all_false. simpl in Hcount. lia. }
    replace (ratio c - 1 - (ratio c - 1)) with 0 by lia.
    replace (Z.pred (ratio c - (ratio c - 1))) with 0 by lia.
    done.
  - (* an earlier sub-word *)
    rewrite wrap_small by lia.
    destruct (IH (m + 1)) as (IH1 & IH2 & IH3);
      [lia|simpl in Hcount; lia|].
    cbn [andb]. rewrite IH1, IH2, IH3.
    replace (Z.to_nat (ratio c - 1 - m))
      with (S (Z.to_nat (ratio c - 1 - (m + 1)))) by lia.
    replace (Z.succ m) with (m + 1) by lia.
    replace (Z.pred (ratio c - m)) with (ratio c - (m + 1)) by lia.
    done.
Qed.

End DownConverter.

Section DownConverterClaim.
Import Migen Conv.

(** C4: from reset, with one wide word held on the sink with [eop] and [last]
    set and the consumer ready in exactly [ratio] of the cycles, the
    down-converter makes exactly [ratio] output transfers, which carry the
    sub-words in slot order; [eop] and [last] are set on the last of them and
    on no earlier one; the word is taken from the sink once; in every cycle
    [sink.ack] is asserted only when [mux = ratio-1], and [valid_token_count],
    when reported, is 1 when [mux = ratio-1] and 0 otherwise. *)
Theorem down_converter_one_word (c : config) (w : Z) (acks : list bool) :
  1 ≤ ratio c →
  Z.of_nat (length (List.filter id acks)) = ratio c →
  let tr := down_run c down_reset (List.map (hold_word w) acks) in
  length (List.filter down_is_out tr) = Z.to_nat (ratio c) ∧
  List.map down_flags (List.filter down_is_out tr)
  = replicate (Z.to_nat (ratio c - 1)) (false, false) ++ [(true, true)] ∧
  List.map (λ e, down_source_data (snd e)) (List.filter down_is_out tr)
  = List.map (sub_word c w) (seqZ 0 (ratio c)) ∧
  length (List.filter down_is_in tr) = 1%nat ∧
  Forall (down_final_only c) tr.
Proof.
  intros Hr Hcount tr.
  destruct (down_run_from c w 0 acks) as (H1 & H2 & H3); [lia|lia|].
  fold down_reset in H1, H2, H3. fold tr in H1, H2, H3.
  rewrite Z.sub_0_r in H1, H2.
  split; [|split; [|split; [|split]]]; try done.
  - rewrite <- (length_map down_flags), H1.
    rewrite length_app, length_replicate. simpl. lia.
  - apply down_run_final_only.
Qed.

Lemma down_converter_one_word_witness :
  let c := {| nbits_from := 32; nbits_to := 8; ratio := 4; reverse := false;
              report_valid_token_count := true |} in
  let tr := down_run c down_reset
              (List.map (hold_word 0x44332211)
                 [true; false; true; true; false; false; true; false]) in
  length (List.filter down_is_out tr) = 4%nat ∧
  List.map down_flags (List.filter down_is_out tr)
  = [(false, false); (false, false); (false, false); (true, true)] ∧
  List.map (λ e, down_source_data (snd e)) (List.filter down_is_out tr)
  = [0x11; 0x22; 0x33; 0x44] ∧
  length (List.filter down_is_in tr) = 1%nat ∧
  Forall (down_final_only c) tr.
Proof.
  intros c tr.
  apply (down_converter_one_word c 0x44332211
           [true; false; true; true; false; false; true; false]).
  - simpl. lia.
  - reflexivity.
Defined.

End DownConverterClaim.

(** ** The up-converter *)

Section UpConverter.
Import Migen Conv.

(** C3 (fails on the code): with ratio 2, a one-word packet is flushed with
    [eop]; the producer then idles with [eop] still high while that word is
    delivered, and sends two words without [eop].  The second output word is
    delivered with [source.eop] set although the word that completed it, and
    every word of its group, had [eop] clear: on an output transfer the
    register takes [sink.eop] even when [sink.stb] is low. *)
Theorem up_converter_stale_eop :
  let c := up_config 8 2 false false in
  let tr := up_run c (up_reset c) stale_eop_inputs in
  up_in_eops tr = [true; false; false] ∧
  up_flush_eops tr = [true; false] ∧
  up_out_data tr = [0xAA; 0x2211] ∧
  up_out_eops tr = [true; true].
Proof. vm_compute. done. Qed.

(** What does hold of [source.eop]. *)

(** A word with [eop] taken from the sink always flushes its group, and the
    output word carries [eop]. *)
Lemma up_eop_latched (c : config) (r : up_regs) (i : inputs) :
  load_part (up_comb c r i) = true → sink_eop i = true →
  strobe_all (up_sync c r i) = true ∧ up_source_eop (up_sync c r i) = true.
Proof.
  unfold up_sync, up_comb; simpl. intros Hload ->.
  rewrite Hload, orb_true_r. simpl. split; [done|].
  by destruct (strobe_all r && source_ack i).
Qed.

(** An output word that is not taken stays as it is, with its [eop]. *)
Lemma up_eop_held (c : config) (r : up_regs) (i : inputs) :
  strobe_all r = true → source_ack i = false →
  strobe_all (up_sync c r i) = true ∧
  up_source_eop (up_sync c r i) = up_source_eop r ∧
  up_source_data (up_sync c r i) = up_source_data r.
Proof.
  unfold up_sync, up_comb; simpl. intros -> ->. simpl.
  by rewrite !andb_false_r.
Qed.

(** One cycle moves at most one [eop] flag out of the register and at most
    one in. *)
Lemma up_step_gated (c : config) (r : up_regs) (i : inputs) :
  eop_gated i →
  (strobe_all r = false → up_source_eop r = false) →
  (strobe_all (up_sync c r i) = false →
   up_source_eop (up_sync c r i) = false) ∧
  up_pending r
    ++ (if up_is_flush (i, r, up_comb c r i) then [sink_eop i] else [])
  = (if up_is_out (i, r, up_comb c r i) then [up_source_eop r] else [])
    ++ up_pending (up_sync c r i).
Proof.
  unfold eop_gated, up_pending, up_is_flush, up_is_out, up_sync, up_comb.
  simpl.
  destruct (strobe_all r), (source_ack i), (sink_stb i), (sink_eop i),
    (demux r =? ratio c - 1); simpl; intros Hgate Hinv;
    split; try done;
    try (by rewrite Hinv); try (by specialize (Hgate eq_refl)).
Qed.

Lemma up_out_eops_cons (c : config) (r : up_regs) (i : inputs)
    (ins : list inputs) :
  up_out_eops (up_run c r (i :: ins))
  = (if up_is_out (i, r, up_comb c r i) then [up_source_eop r] else [])
    ++ up_out_eops (up_run c (up_sync c r i) ins).
Proof.
  unfold up_out_eops. cbn [up_run List.filter].
  by destruct (up_is_out _).
Qed.

Lemma up_flush_eops_cons (c : config) (r : up_regs) (i : inputs)
    (ins : list inputs) :
  up_flush_eops (up_run c r (i :: ins))
  = (if up_is_flush (i, r, up_comb c r i) then [sink_eop i] else [])
    ++ up_flush_eops (up_run c (up_sync c r i) ins).
Proof.
  unfold up_flush_eops. cbn [up_run List.filter].
  by destruct (up_is_flush _).
Qed.

(** Up to the slip above the claim holds: when the producer asserts [eop]
    only together with [stb], the [eop] flags of the output transfers are,
    in order, those of the words that completed or flushed the groups. *)
Lemma up_eop_of_flush_when_gated (c : config) (ins : list inputs)
    (r : up_regs) :
  Forall eop_gated ins →
  (strobe_all r = false → up_source_eop r = false) →
  up_out_eops (up_run c r ins)
    `prefix_of` up_pending r ++ up_flush_eops (up_run c r ins).
Proof.
  revert r. induction ins as [|i ins IH]; intros r Hall Hinv.
  { apply prefix_nil. }
  apply Forall_cons in Hall as [Hi Hall].
  destruct (up_step_gated c r i Hi Hinv) as [Hinv' Hmove].
  destruct (IH _ Hall Hinv') as [rest Hrest].
  exists rest. rewrite up_out_eops_cons, up_flush_eops_cons.
  rewrite app_assoc, Hmove, <- !app_assoc. by rewrite Hrest.
Qed.

End UpConverter.

(** ** The FIFO wrapper with a high watermark *)

Section FifoBurst.
Import Migen Fifo.

Variable c : config.
Variable h : Z.
Variable ae : Z → bool.
Variable junk : Z.
Hypothesis hi_wm_set : hi_wm c = Some h.
Hypothesis hi_wm_pos : 1 ≤ h.
Hypothesis payload_bits_nonneg : 0 ≤ payload_bits c.

(** The [eop] bit of an entry is the one that was written. *)
Lemma stored_eop (p : Z) (e : bool) :
  Z.testbit (wrap (payload_bits c + 1) (cat_bit (payload_bits c) p e))
            (payload_bits c) = e.
Proof.
  unfold wrap, cat_bit.
  rewrite Z.mod_pow2_bits_low by lia.
  rewrite Z.lor_spec, Z.land_spec, Z.ones_spec_high by lia.
  rewrite andb_false_r, Z.shiftl_spec, Z.sub_diag by lia.
  by destruct e.
Qed.

(** One cycle of the system, with the queue's signals named. *)
Lemma sys_step_eq (st : system) (i : cycle_in) :
  sys_step c ae junk st i
  = let q := queue_signals c ae junk (sys_items st) in
    let g := comb c (sys_regs st) q (snk i) (src_ack i) in
    let popped := if do_read g then tl (sys_items st) else sys_items st in
    {| sys_regs := sync c (sys_regs st) q (snk i) (src_ack i);
       sys_items := if do_write g
                    then popped ++ [wrap (payload_bits c + 1) (fifo_din g)]
                    else popped |}.
Proof. reflexivity. Qed.

(** A word is written exactly on an input transfer. *)
Lemma do_write_is_transfer (r : regs) (q : queue_out) (s : sink_in)
    (a : bool) :
  do_write (comb c r q s a) = sink_stb s && sink_ack (comb c r q s a).
Proof.
  unfold comb; simpl.
  destruct (lo r) as [[ra]|]; simpl.
  - by destruct (sink_stb s), (writable q), (almost_empty q), ra.
  - by destruct (sink_stb s), (writable q).
Qed.

(** The wrapper while the consumer is not ready and no [eop] is written. *)
Lemma hi_block_filling (r : regs) (q : queue_out) (s : sink_in) (act : bool) :
  hi r = Some {| transfer_count := h - 1; activated := act; eop_count := 0 |} →
  (sink_stb s = true → sink_eop s = false) →
  do_read (comb c r q s false) = false ∧
  fifo_din (comb c r q s false)
  = cat_bit (payload_bits c) (sink_payload s) (sink_eop s) ∧
  ∃ act', hi (sync c r q s false)
          = Some {| transfer_count := h - 1; activated := act';
                    eop_count := 0 |}.
Proof.
  intros Hhi Heop. unfold sync, sync_hi, comb; simpl.
  rewrite hi_wm_set, Hhi; simpl. rewrite !andb_false_r; simpl.
  split; [done|]. split; [done|].
  destruct (sink_stb s); [rewrite Heop by done|]; simpl;
    destruct (lo r) as [[ra]|]; simpl; rewrite ?andb_false_r; simpl;
    destruct act; simpl; eauto.
Qed.

(** The wrapper on a cycle of a burst with [j] entries left. *)
Lemma hi_block_draining (r : regs) (q : queue_out) (s : sink_in)
    (hr : hi_regs) (j : Z) :
  hi r = Some hr → eop_count hr = 0 →
  1 ≤ j ≤ h → transfer_count hr = j - 1 →
  activated hr = true ∨ almost_full q = true →
  readable q = true → Z.testbit (dout q) (payload_bits c) = false →
  sink_stb s = false →
  source_stb (comb c r q s true) = true ∧
  source_last (comb c r q s true) = (j =? 1) ∧
  do_read (comb c r q s true) = true ∧
  do_write (comb c r q s true) = false ∧
  ∃ hr', hi (sync c r q s true) = Some hr' ∧
         eop_count hr' = 0 ∧
         (j ≠ 1 → transfer_count hr' = j - 2 ∧ activated hr' = true).
Proof.
  intros Hhi Hec Hj Htc Hact Hrd Heop Hstb.
  rewrite do_write_is_transfer, Hstb.
  unfold sync, sync_hi, comb; simpl.
  rewrite hi_wm_set, Hhi, Hrd, Heop, Hstb, Hec, Htc; simpl.
  assert (almost_full q || activated hr = true) as ->.
  { destruct Hact as [-> | ->]; [apply orb_true_r|done]. }
  simpl. rewrite orb_false_r.
  replace (j - 1 =? 0) with (j =? 1) by lia.
  split; [done|]. split; [done|]. split; [done|]. split; [done|].
  assert (match lo r with Some _ => false | None => false end = false)
    as -> by (by destruct (lo r)).
  rewrite andb_false_r. simpl.
  eexists. split; [done|]. simpl. split; [done|]. intros Hj1.
  replace (j =? 1) with false by lia.
  rewrite wrap_small by lia. split; [lia|].
  destruct (activated hr); simpl; [done|].
  destruct Hact as [?| ->]; done.
Qed.

(** The wrapper when the queue is empty and nothing is offered. *)
Lemma hi_block_idle (r : regs) (q : queue_out) (s : sink_in) (a : bool)
    (hr : hi_regs) :
  hi r = Some hr → readable q = false → sink_stb s = false →
  source_stb (comb c r q s a) = false ∧
  do_read (comb c r q s a) = false ∧
  do_write (comb c r q s a) = false ∧
  is_Some (hi (sync c r q s a)).
Proof.
  intros Hhi Hrd Hstb. rewrite do_write_is_transfer, Hstb.
  unfold sync; rewrite hi_wm_set, Hhi.
  unfold comb; simpl. rewrite Hhi, Hrd. simpl. eauto.
Qed.

#[local] Arguments comb : simpl never.
#[local] Arguments sync : simpl never.
#[local] Arguments queue_signals : simpl never.
#[local] Arguments sys_step : simpl never.
#[local] Arguments sys_signals : simpl never.

Lemma fill_step (st : system) (i : cycle_in) :
  filling c h st →
  src_ack i = false →
  (sink_stb (snk i) = true → sink_eop (snk i) = false) →
  is_read (i, sys_signals c ae junk st i) = false ∧
  filling c h (sys_step c ae junk st i) ∧
  length (sys_items (sys_step c ae junk st i))
  = (length (sys_items st)
     + if is_write (i, sys_signals c ae junk st i) then 1 else 0)%nat.
Proof.
  intros [Hfree [act Hhi]] Hack Heop.
  destruct i as [s a]; cbn [snk src_ack] in *; subst a.
  destruct (hi_block_filling (sys_regs st)
              (queue_signals c ae junk (sys_items st)) s act Hhi Heop)
    as (Hrd & Hdin & act' & Hhi').
  split; [unfold is_read; cbn [fst snd src_ack]; apply andb_false_r|].
  unfold is_write, sys_signals; cbn [fst snd snk src_ack].
  rewrite <- do_write_is_transfer.
  rewrite sys_step_eq; cbn [snk src_ack sys_regs sys_items].
  unfold filling; cbn [sys_regs sys_items].
  rewrite Hrd, Hdin.
  destruct (do_write _) eqn:Hw.
  - rewrite do_write_is_transfer in Hw.
    apply andb_true_iff in Hw as [Hstb _].
    split; [|by rewrite length_app].
    split; [|eauto]. apply Forall_app. split; [done|].
    constructor; [|done]. rewrite stored_eop. by apply Heop.
  - split; [|lia]. split; eauto.
Qed.

Lemma fill_run (fill : list cycle_in) (st : system) :
  filling c h st →
  Forall (λ i, src_ack i = false ∧
               (sink_stb (snk i) = true → sink_eop (snk i) = false)) fill →
  read_lasts (fst (run c ae junk st fill)) = [] ∧
  filling c h (snd (run c ae junk st fill)) ∧
  length (sys_items (snd (run c ae junk st fill)))
  = (length (sys_items st) + writes (fst (run c ae junk st fill)))%nat.
Proof.
  revert st. induction fill as [|i fill IH]; intros st Hst Hall.
  { simpl. unfold writes. simpl. split; [done|]. split; [done|lia]. }
  apply Forall_cons in Hall as [[Hack Heop] Hall].
  destruct (fill_step st i Hst Hack Heop) as (Hrd & Hst' & Hlen).
  specialize (IH _ Hst' Hall) as (IH1 & IH2 & IH3).
  simpl. destruct (run c ae junk (sys_step c ae junk st i) fill)
    as [tr st'] eqn:E.
  simpl in *. unfold read_lasts, writes in *. simpl. rewrite Hrd.
  split; [done|]. split; [done|].
  rewrite IH3, Hlen.
  destruct (is_write _); simpl; lia.
Qed.

Lemma burst_lasts_S (k : nat) :
  burst_lasts (S k) = Nat.eqb k 0 :: burst_lasts k.
Proof. by destruct k. Qed.

Lemma drain_step (st : system) (i : cycle_in) (j : nat) :
  draining c h j st →
  src_ack i = true → sink_stb (snk i) = false →
  draining c h (pred j) (sys_step c ae junk st i) ∧
  is_read (i, sys_signals c ae junk st i) = negb (Nat.eqb j 0) ∧
  (j ≠ 0%nat →
   source_last (sys_signals c ae junk st i) = Nat.eqb (pred j) 0).
Proof.
  intros (Hlen & Hfree & Hjh & hr & Hhi & Hregs) Hack Hstb.
  destruct i as [s a]; cbn [snk src_ack] in *; subst a.
  unfold is_read, sys_signals; cbn [fst snd snk src_ack].
  rewrite andb_true_r.
  rewrite sys_step_eq; cbn [snk src_ack].
  destruct st as [r items]; cbn [sys_regs sys_items] in *.
  unfold draining; cbn [sys_regs sys_items].
  destruct j as [|k].
  - (* nothing left *)
    destruct items; [|done].
    destruct (hi_block_idle r (queue_signals c ae junk []) s true hr Hhi)
      as (-> & -> & -> & [hr' Hhi']); [done|done|].
    split; [|done]. simpl.
    split; [done|]. split; [done|]. split; [lia|]. exists hr'. done.
  - (* one more transfer of the burst *)
    destruct items as [|x items]; [done|]. injection Hlen as Hlen.
    destruct Hregs as (Hec & Htc & Hact); [done|].
    destruct (hi_block_draining r (queue_signals c ae junk (x :: items)) s
                hr (Z.of_nat (S k)) Hhi Hec)
      as (-> & Hlast & -> & -> & hr' & Hhi' & Hec' & Hnext);
      try done; try lia.
    { destruct Hact as [?|Hfull]; [by left|right].
      unfold queue_signals; cbn [almost_full]. rewrite hi_wm_set.
      apply Z.leb_le. rewrite length_cons, Hlen. lia. }
    { by inversion Hfree. }
    split; [|split; [done|]].
    + simpl.
      split; [done|]. split; [by inversion Hfree|]. split; [lia|].
      exists hr'. split; [done|]. intros Hk.
      destruct Hnext as [Htc' Hact']; [lia|].
      split; [done|]. split; [lia|by left].
    + intros _. rewrite Hlast. destruct k; [reflexivity|].
      cbn [Init.Nat.pred Nat.eqb]. apply Z.eqb_neq. lia.
Qed.

Lemma drain_run (ds : list cycle_in) (st : system) (j : nat) :
  draining c h j st →
  Forall (λ i, src_ack i = true ∧ sink_stb (snk i) = false) ds →
  read_lasts (fst (run c ae junk st ds)) = take (length ds) (burst_lasts j).
Proof.
  revert st j. induction ds as [|i ds IH]; intros st j Hst Hall; [done|].
  apply Forall_cons in Hall as [[Hack Hstb] Hall].
  destruct (drain_step st i j Hst Hack Hstb) as (Hst' & Hrd & Hlast).
  specialize (IH _ _ Hst' Hall).
  simpl. destruct (run c ae junk (sys_step c ae junk st i) ds)
    as [tr st'] eqn:E.
  cbn [fst snd] in *. unfold read_lasts in *. cbn [List.filter].
  rewrite Hrd. destruct j as [|k].
  - cbn [negb Nat.eqb]. rewrite IH. simpl. by rewrite take_nil.
  - rewrite burst_lasts_S. cbn [negb Nat.eqb List.map snd firstn take].
    rewrite IH, Hlast by done. done.
Qed.

(** In a reachable state the counter is within [0, hi_wm-1]. *)
Lemma reachable_transfer_count (r : regs) :
  reachable c r →
  ∃ hr, hi r = Some hr ∧ 0 ≤ transfer_count hr ≤ h - 1.
Proof.
  induction 1 as [|r q s a _ (hr & Hhi & Htc)].
  - unfold reset. rewrite hi_wm_set. eexists. split; [done|]. simpl. lia.
  - unfold sync. rewrite hi_wm_set, Hhi. cbn [hi].
    eexists. split; [done|]. unfold sync_hi. cbn [transfer_count].
    unfold comb. rewrite Hhi. cbn [transfer_count_rst transfer_count_ce].
    destruct (_ && readable q); cbn [andb]; [|done].
    destruct (Z.eqb_spec (transfer_count hr) 0) as [E|E]; cbn [orb]; [lia|].
    destruct (Z.testbit _ _); [lia|].
    rewrite wrap_small; lia.
Qed.

(** The counter after one cycle. *)
Lemma transfer_count_next (r : regs) (q : queue_out) (s : sink_in) (a : bool)
    (hr : hi_regs) :
  reachable c r → hi r = Some hr →
  option_map transfer_count (hi (sync c r q s a))
  = Some (if do_read (comb c r q s a)
          then if source_last (comb c r q s a) then h - 1
               else transfer_count hr - 1
          else transfer_count hr).
Proof.
  intros Hr Hhi. destruct (reachable_transfer_count r Hr) as (hr0 & Hhi0 & Htc).
  assert (hr0 = hr) as -> by congruence.
  unfold sync. rewrite hi_wm_set, Hhi. cbn [hi option_map]. f_equal.
  unfold sync_hi. cbn [transfer_count].
  unfold comb. rewrite Hhi.
  cbn [transfer_count_rst transfer_count_ce do_read source_last].
  destruct (_ && readable q); cbn [andb]; [|done].
  destruct (Z.eqb_spec (transfer_count hr) 0) as [E|E]; cbn [orb]; [done|].
  destruct (Z.testbit _ _); [done|].
  rewrite wrap_small; lia.
Qed.

End FifoBurst.

Section FifoBurstClaim.
Import Migen Fifo.

(** C1 (as amended): with a high watermark [h], from reset, once exactly [h]
    words have been written with [eop] never asserted while the consumer was
    not ready, holding [source.ack] high (with nothing more written) gives
    exactly [h] output transfers, [source.last] being set on the last of them
    and on no earlier one.  The counter [transfer_count] starts at [h-1]; in
    every reachable state a read without [source.last] decrements it and a
    read with [source.last] reloads it with [h-1]; and [source.last] is set
    exactly when [transfer_count] is zero or the [eop] bit of the entry at
    the queue's output is set. *)
Theorem fifo_hi_wm_full_burst (c : config) (h : Z) (ae : Z → bool) (junk : Z)
    (fill drain : list cycle_in) :
  hi_wm c = Some h → 1 ≤ h → 0 ≤ payload_bits c →
  Forall (λ i, src_ack i = false ∧
               (sink_stb (snk i) = true → sink_eop (snk i) = false)) fill →
  writes (fst (run c ae junk (sys_reset c) fill)) = Z.to_nat h →
  Forall (λ i, src_ack i = true ∧ sink_stb (snk i) = false) drain →
  (Z.to_nat h ≤ length drain)%nat →
  read_lasts (fst (run c ae junk (sys_reset c) fill)) = [] ∧
  read_lasts
    (fst (run c ae junk (snd (run c ae junk (sys_reset c) fill)) drain))
  = replicate (Z.to_nat (h - 1)) false ++ [true] ∧
  option_map transfer_count (hi (reset c)) = Some (h - 1) ∧
  ∀ r q s a hr,
    reachable c r → hi r = Some hr →
    source_last (comb c r q s a)
    = (transfer_count hr =? 0) || Z.testbit (dout q) (payload_bits c) ∧
    source_eop (comb c r q s a) = Z.testbit (dout q) (payload_bits c) ∧
    option_map transfer_count (hi (sync c r q s a))
    = Some (if do_read (comb c r q s a)
            then if source_last (comb c r q s a) then h - 1
                 else transfer_count hr - 1
            else transfer_count hr).
Proof.
  intros Hh Hpos Hpw Hfill Hwrites Hdrain Hlen.
  assert (filling c h (sys_reset c)) as Hst0.
  { split; [constructor|]. exists false. unfold sys_reset, reset; simpl.
    by rewrite Hh. }
  destruct (fill_run c h ae junk Hh Hpw fill _ Hst0 Hfill)
    as (Hnone & [Hfree [act Hhi]] & Hlevel).
  split; [done|]. split; [|split].
  - rewrite (drain_run c h ae junk Hh Hpos drain _ (Z.to_nat h)); [| |done].
    + rewrite take_ge.
      * unfold burst_lasts. destruct (Z.to_nat h) as [|k] eqn:E; [lia|].
        by replace (Z.to_nat (h - 1)) with k by lia.
      * destruct (Z.to_nat h) as [|k] eqn:E; [simpl; lia|].
        unfold burst_lasts. rewrite length_app, length_replicate. simpl. lia.
    + split; [|split; [done|split; [lia|]]].
      * rewrite Hlevel, Hwrites. reflexivity.
      * eexists. split; [exact Hhi|]. intros _. simpl.
        split; [done|]. split; [lia|]. right. lia.
  - unfold reset. by rewrite Hh.
  - intros r q s a hr Hr Hhr. split; [|split].
    + unfold comb. by rewrite Hhr.
    + reflexivity.
    + by apply transfer_count_next.
Qed.

Lemma fifo_hi_wm_full_burst_witness :
  let c := {| depth := 4; hi_wm := Some 3; lo_wm := Some 2;
              payload_bits := 8 |} in
  let ae := λ level, level <=? 2 in
  let fill := [write_cycle 0x11 false; idle_cycle; write_cycle 0x22 false;
               write_cycle 0x33 false; idle_cycle] in
  let drain := [read_cycle; read_cycle; read_cycle; read_cycle] in
  read_lasts (fst (run c ae 0 (sys_reset c) fill)) = [] ∧
  read_lasts (fst (run c ae 0 (snd (run c ae 0 (sys_reset c) fill)) drain))
  = [false; false; true].
Proof.
  intros c ae fill drain.
  destruct (fifo_hi_wm_full_burst c 3 ae 0 fill drain) as (H1 & H2 & _).
  - reflexivity.
  - lia.
  - simpl. lia.
  - repeat constructor; simpl; intros; congruence.
  - vm_compute. reflexivity.
  - repeat constructor.
  - simpl. lia.
  - split; [exact H1|exact H2].
Defined.

(** C1 (as stated, fails): not every read decrements [transfer_count].  With
    [hi_wm = 3], after three words are written and two are read, the counter
    is 0; the third read, which carries [source.last], sets it to 2. *)
Lemma fifo_hi_wm_last_read_reloads :
  let c := {| depth := 4; hi_wm := Some 3; lo_wm := None;
              payload_bits := 8 |} in
  let ae := λ _ : Z, false in
  let st := snd (run c ae 0 (sys_reset c)
                   [write_cycle 0x11 false; write_cycle 0x22 false;
                    write_cycle 0x33 false; read_cycle; read_cycle]) in
  do_read (sys_signals c ae 0 st read_cycle) = true ∧
  source_last (sys_signals c ae 0 st read_cycle) = true ∧
  sys_transfer_count st = Some 0 ∧
  sys_transfer_count (sys_step c ae 0 st read_cycle) = Some 2.
Proof. vm_compute. done. Qed.

End FifoBurstClaim.

(** ** Bit slices *)

Section Slices.
Import Migen.

Lemma slice_spec (v lo hi i : Z) :
  0 ≤ lo → lo ≤ hi → 0 ≤ i →
  Z.testbit (slice v lo hi) i = Z.testbit v (i + lo) && (i <? hi - lo).
Proof.
  intros Hlo Hhi Hi. unfold slice.
  rewrite Z.land_spec, Z.shiftr_spec, Z.testbit_ones_nonneg by lia.
  reflexivity.
Qed.

Lemma set_slice_spec (v lo hi x i : Z) :
  0 ≤ lo → lo ≤ hi → 0 ≤ i →
  Z.testbit (set_slice v lo hi x) i
  = if (lo <=? i) && (i <? hi) then Z.testbit x (i - lo) else Z.testbit v i.
Proof.
  intros Hlo Hhi Hi. unfold set_slice.
  rewrite Z.lor_spec, Z.ldiff_spec, !Z.shiftl_spec by lia.
  destruct (Z.leb_spec lo i) as [Hle|Hlt]; simpl.
  - rewrite Z.land_spec, Z.testbit_ones_nonneg by lia.
    destruct (Z.ltb_spec i hi) as [H1|H1].
    + replace (i - lo <? hi - lo) with true by lia.
      simpl. by rewrite andb_false_r, andb_true_r.
    + replace (i - lo <? hi - lo) with false by lia.
      simpl. by rewrite andb_true_r, andb_false_r, orb_false_r.
  - rewrite !(Z.testbit_neg_r _ (i - lo)) by lia.
    simpl. by rewrite andb_true_r, orb_false_r.
Qed.

(** Reading back the slice that was written gives the value written,
    truncated to the width of the slice. *)
Lemma slice_set_slice_same (v lo hi x : Z) :
  0 ≤ lo → lo ≤ hi →
  slice (set_slice v lo hi x) lo hi = Z.land x (Z.ones (hi - lo)).
Proof.
  intros Hlo Hhi. apply Z.bits_inj'. intros i Hi.
  rewrite slice_spec, set_slice_spec by lia.
  rewrite Z.land_spec, Z.testbit_ones_nonneg by lia.
  destruct (Z.ltb_spec i (hi - lo)) as [H1|H1].
  - replace ((lo <=? i + lo) && (i + lo <? hi)) with true by lia.
    by replace (i + lo - lo) with i by lia.
  - by rewrite !andb_false_r.
Qed.

(** Writing a slice leaves every disjoint slice as it was. *)
Lemma slice_set_slice_other (v lo hi x lo' hi' : Z) :
  0 ≤ lo → lo ≤ hi → 0 ≤ lo' → lo' ≤ hi' →
  hi ≤ lo' ∨ hi' ≤ lo →
  slice (set_slice v lo hi x) lo' hi' = slice v lo' hi'.
Proof.
  intros Hlo Hhi Hlo' Hhi' Hdisj. apply Z.bits_inj'. intros i Hi.
  rewrite !slice_spec, set_slice_spec by lia.
  destruct (Z.ltb_spec i (hi' - lo')) as [H1|H1].
  - by replace ((lo <=? i + lo') && (i + lo' <? hi)) with false by lia.
  - by rewrite !andb_false_r.
Qed.

Lemma land_ones_small (x n : Z) :
  0 ≤ n → 0 ≤ x < 2 ^ n → Z.land x (Z.ones n) = x.
Proof.
  intros Hn Hx. rewrite Z.land_ones by done. by apply Z.mod_small.
Qed.

End Slices.

(** ** Up-converter into down-converter *)

Section RoundTrip.
Import Migen Conv.

Variables n r : Z.
Variables rev repu repd : bool.
Hypothesis width_nonneg : 0 ≤ n.
Hypothesis ratio_ge_2 : 2 ≤ r.

Local Abbreviation cu := (up_config n r rev repu).
Local Abbreviation cd := (down_config n r rev repd).

Lemma slot_range (i : Z) : 0 ≤ i < r → 0 ≤ slot cd i < r.
Proof. unfold slot; simpl. destruct rev; lia. Qed.

Lemma slot_inj (i j : Z) : slot cd i = slot cd j → i = j.
Proof. unfold slot; simpl. destruct rev; lia. Qed.

(** Storing word [q] of a group and reading it back through the
    down-converter's selection. *)
Lemma sub_word_store_same (data x q : Z) :
  0 ≤ q < r → 0 ≤ x < 2 ^ n →
  sub_word cd (set_slice data (slot cu q * n) ((slot cu q + 1) * n) x) q = x.
Proof.
  intros Hq Hx. unfold sub_word. cbn [nbits_to down_config].
  change (slot cu q) with (slot cd q).
  pose proof (slot_range q Hq).
  rewrite slice_set_slice_same by nia.
  replace ((slot cd q + 1) * n - slot cd q * n) with n by lia.
  by apply land_ones_small.
Qed.

Lemma sub_word_store_other (data x q i : Z) :
  0 ≤ q < r → 0 ≤ i < r → i ≠ q →
  sub_word cd (set_slice data (slot cu q * n) ((slot cu q + 1) * n) x) i
  = sub_word cd data i.
Proof.
  intros Hq Hi Hne. unfold sub_word. cbn [nbits_to down_config].
  change (slot cu q) with (slot cd q).
  pose proof (slot_range q Hq). pose proof (slot_range i Hi).
  assert (slot cd i ≠ slot cd q) by (intros E; by apply slot_inj in E).
  apply slice_set_slice_other; nia.
Qed.

#[local] Arguments wrap : simpl never.
#[local] Arguments bits_for : simpl never.
#[local] Arguments slice : simpl never.
#[local] Arguments set_slice : simpl never.
#[local] Arguments sub_word : simpl never.
#[local] Arguments Z.mul : simpl never.
#[local] Arguments Z.add : simpl never.
#[local] Arguments Z.sub : simpl never.
#[local] Arguments Z.of_nat : simpl never.
#[local] Arguments Z.to_nat : simpl never.
#[local] Arguments Z.modulo : simpl never.
#[local] Arguments Z.pow : simpl never.
#[local] Arguments Z.eqb : simpl never.
#[local] Arguments Z.leb : simpl never.
#[local] Arguments Z.ltb : simpl never.
#[local] Arguments no_early_eop : simpl never.

(** The next word to emit is the head of what is left of the group. *)
Lemma emit_word (g : list Z) (data m : Z) :
  (∀ (i : nat) (x : Z),
     g !! i = Some x → sub_word cd data (Z.of_nat i) = x) →
  Z.of_nat (length g) = r → 0 ≤ m < r →
  drop (Z.to_nat m) g = sub_word cd data m :: drop (Z.to_nat (m + 1)) g.
Proof.
  intros Hdata Hlen Hm.
  destruct (lookup_lt_is_Some_2 g (Z.to_nat m)) as [x Hx]; [lia|].
  rewrite (drop_S _ _ _ Hx). apply Hdata in Hx.
  rewrite Z2Nat.id in Hx by lia. rewrite Hx.
  by replace (Z.to_nat (m + 1)) with (S (Z.to_nat m)) by lia.
Qed.

(** The group after one more word is stored in it. *)
Lemma store_word (g : list Z) (data x : Z) :
  (∀ (i : nat) (y : Z),
     g !! i = Some y → sub_word cd data (Z.of_nat i) = y) →
  0 ≤ Z.of_nat (length g) < r → 0 ≤ x < 2 ^ n →
  ∀ (i : nat) (y : Z),
    (g ++ [x]) !! i = Some y →
    sub_word cd
      (set_slice data (slot cu (Z.of_nat (length g)) * n)
                 ((slot cu (Z.of_nat (length g)) + 1) * n) x)
      (Z.of_nat i) = y.
Proof.
  intros Hdata Hlen Hx i y Hi.
  destruct (decide (i < length g)%nat) as [Hlt|Hge].
  - rewrite lookup_app_l in Hi by done.
    rewrite sub_word_store_other by lia. by apply Hdata.
  - assert (i = length g) as ->.
    { apply lookup_lt_Some in Hi. rewrite length_app in Hi. simpl in Hi. lia. }
    rewrite list_lookup_middle in Hi by done. injection Hi as <-.
    by apply sub_word_store_same.
Qed.

Ltac tests :=
  repeat match goal with
    | |- context [?a =? ?b] =>
        first [ replace (a =? b) with true by lia
              | replace (a =? b) with false by lia ]
    | |- context [?a <=? ?b] =>
        first [ replace (a <=? b) with true by lia
              | replace (a <=? b) with false by lia ]
    | |- context [?a <? ?b] =>
        first [ replace (a <? b) with true by lia
              | replace (a <? b) with false by lia ]
    end.

Ltac split_step :=
  split; [split; [|split; [|split]]|split; [|split; [|split]]].

Lemma pipe_step_inv (p : pipe) (g : list Z) (s : sched) :
  pipe_inv n r cd p g →
  ∃ g', pipe_inv n r cd (pipe_step cu cd p s) g' ∧
        pipe_out cd p s ++ inflight (pipe_step cu cd p s) g' = inflight p g ∧
        work r (pipe_step cu cd p s) ≤ work r p ∧
        residue r (pipe_step cu cd p s) = residue r p ∧
        (residue r p = 0 → enabled s = true →
         work r p = 0 ∨ work r (pipe_step cu cd p s) < work r p).
Proof.
  destruct p as [[q st e data vtc] [m] pend], s as [off idl rdy].
  intros (Hdata & Hshape & Heop & Hbnd). simpl in Hdata, Hshape, Heop, Hbnd.
  unfold pipe_step, pipe_out, up_inputs, down_inputs, produce, enabled,
    residue, work, inflight, pipe_inv.
  unfold up_sync, down_sync, up_comb, down_comb, up_store, down_select.
  destruct st.
  - destruct Hshape as (-> & Hlen & Hm).
    destruct rdy.
    + destruct (Z.eqb_spec m (r - 1)) as [->|Hne].
      * (* the last word of the group leaves *)
        pose proof (emit_word g data (r - 1) Hdata Hlen Hm) as Hemit.
        replace (r - 1 + 1) with r in Hemit by lia.
        rewrite (drop_ge g (Z.to_nat r)) in Hemit by lia.
        destruct pend as [|w rest]; [|destruct off]; simpl; tests; simpl.
        -- exists []. rewrite Hemit. split_step; try done; try lia; try (simpl; lia).
        -- (* and the first word of the next group enters *)
           cbn [no_early_eop] in Heop.
           destruct Heop as [Hw Heop]. apply Forall_cons in Hbnd as [Hx Hbnd].
           assert (w_eop w = false) as ->.
           { destruct (w_eop w); [|done]. specialize (Hw eq_refl). lia. }
           simpl. rewrite wrap_small by lia.
           exists [w_data w]. rewrite Hemit.
           split; [|split; [|split; [|split]]].
           ++ split; [|split; [|split]]; try done.
              ** apply (store_word [] data (w_data w)); simpl; try done; lia.
              ** simpl. lia.
              ** revert Heop. by tests.
           ++ done.
           ++ lia.
           ++ f_equal. lia.
           ++ intros _ _. right. lia.
        -- exists []. rewrite Hemit. split_step; try done; try lia; try (simpl; lia).
      * (* an earlier word of the group leaves *)
        pose proof (emit_word g data m Hdata Hlen Hm) as Hemit.
        exists g.
        destruct pend as [|w rest]; [|destruct off]; simpl; tests; simpl;
          rewrite ?andb_false_r; simpl;
          rewrite wrap_small by lia; rewrite Hemit;
          split_step; try done; try lia; try (simpl; lia).
    + (* the consumer is not ready *)
      exists g.
      destruct pend as [|w rest]; [|destruct off]; simpl; tests; simpl;
        rewrite ?andb_false_r; simpl;
        split_step; try done; try lia; try (simpl; lia).
  - (* a group is being collected *)
    destruct Hshape as (-> & Hq & Hr). subst q.
    destruct pend as [|w rest]; [|destruct off]; simpl; tests; simpl.
    + exists g. split_step; try done; try lia; try (simpl; lia).
      intros Ha _. left. rewrite Z.mod_small in Ha; lia.
    + cbn [no_early_eop] in Heop.
      destruct Heop as [Hw Heop]. apply Forall_cons in Hbnd as [Hx Hbnd].
      destruct (Z.eqb_spec (Z.of_nat (length g)) (r - 1)) as [Hfull|Hpart];
        simpl.
      * (* the word completes the group *)
        exists (g ++ [w_data w]).
        split; [|split; [|split; [|split]]].
        -- split; [|split; [|split]]; try done.
           ++ by apply store_word.
           ++ rewrite length_app. simpl. lia.
        -- change (Z.to_nat 0) with 0%nat. rewrite !drop_0.
           by rewrite <- app_assoc.
        -- lia.
        -- replace (0 + Z.of_nat (length rest))
             with (Z.of_nat (length g) + Z.of_nat (S (length rest))
                   + (-1) * r) by lia.
           by rewrite Z_mod_plus_full.
        -- intros _ _. right. lia.
      * (* the word is stored and more are needed *)
        assert (w_eop w = false) as ->.
        { destruct (w_eop w); [|done]. by specialize (Hw eq_refl). }
        simpl. rewrite wrap_small by lia.
        exists (g ++ [w_data w]).
        split; [|split; [|split; [|split]]].
        -- split; [|split; [|split]]; try done.
           ++ by apply store_word.
           ++ rewrite length_app. simpl. lia.
        -- change (Z.to_nat 0) with 0%nat. rewrite !drop_0.
           by rewrite <- app_assoc.
        -- lia.
        -- f_equal. lia.
        -- intros _ _. right. lia.
    + exists g. split_step; try done; try lia; try (simpl; lia).
Qed.

Lemma work_nonneg (p : pipe) (g : list Z) :
  pipe_inv n r cd p g → 0 ≤ work r p.
Proof.
  intros (_ & Hshape & _). unfold work.
  destruct (strobe_all (p_up p)); lia.
Qed.

(** With no transfer left to make, nothing is in flight. *)
Lemma work_zero (p : pipe) (g : list Z) :
  pipe_inv n r cd p g → work r p = 0 → inflight p g = [].
Proof.
  intros (_ & Hshape & _). unfold work, inflight.
  destruct (strobe_all (p_up p)); [lia|]. intros Hw.
  destruct Hshape as (-> & Hlen & Hq).
  destruct (p_pending p); [|simpl in Hw; lia].
  destruct g; [done|simpl in Hlen; lia].
Qed.

(** With nothing in flight, no incomplete group is left. *)
Lemma inflight_nil_residue (p : pipe) (g : list Z) :
  pipe_inv n r cd p g → inflight p g = [] → residue r p = 0.
Proof.
  intros (_ & Hshape & _). unfold inflight, residue. intros Hnil.
  apply app_eq_nil in Hnil as [Hg Hpend].
  destruct (p_pending p); [|done].
  destruct (strobe_all (p_up p)).
  - destruct Hshape as (-> & _ & _). by rewrite Z.mod_0_l by lia.
  - destruct Hshape as (Hm & Hlen & Hq). rewrite Hm in Hg.
    change (Z.to_nat 0) with 0%nat in Hg. rewrite drop_0 in Hg. subst g.
    simpl in Hlen. rewrite <- Hlen. by rewrite Z.mod_0_l by lia.
Qed.

Lemma pipe_run_inv (ss : list sched) (p : pipe) (g : list Z) :
  pipe_inv n r cd p g →
  ∃ g', pipe_inv n r cd (pipe_final cu cd p ss) g' ∧
        pipe_run cu cd p ss ++ inflight (pipe_final cu cd p ss) g'
        = inflight p g ∧
        residue r (pipe_final cu cd p ss) = residue r p ∧
        (residue r p = 0 →
         work r p ≤ Z.of_nat (length (List.filter enabled ss)) →
         work r (pipe_final cu cd p ss) = 0).
Proof.
  revert p g. induction ss as [|s ss IH]; intros p g Hinv.
  - exists g. cbn [pipe_final pipe_run List.filter length].
    split; [done|]. split; [done|]. split; [done|].
    intros _ Hw. pose proof (work_nonneg p g Hinv). lia.
  - destruct (pipe_step_inv p g s Hinv)
      as (g1 & Hinv1 & Hout & Hle & Hres & Hprog).
    destruct (IH _ _ Hinv1) as (g' & Hinv' & Hrun & Hres' & Hdone).
    exists g'. cbn [pipe_final pipe_run].
    split; [done|]. split; [|split].
    + by rewrite <- app_assoc, Hrun.
    + by rewrite Hres'.
    + intros Hz Hw. apply Hdone; [by rewrite Hres|].
      pose proof (work_nonneg _ _ Hinv1).
      cbn [List.filter] in Hw. destruct (enabled s) eqn:Hen.
      * cbn [length] in Hw. destruct (Hprog Hz eq_refl); lia.
      * lia.
Qed.

(** A cycle in which the producer offers and the consumer is ready moves a
    word, unless nothing is left to move. *)
Lemma pipe_step_progress (p : pipe) (g : list Z) (s : sched) :
  pipe_inv n r cd p g → enabled s = true →
  settled p ∨ work r (pipe_step cu cd p s) < work r p.
Proof.
  destruct p as [[q st e data vtc] [m] pend], s as [off idl rdy].
  intros (Hdata & Hshape & Heop & Hbnd) Hen.
  simpl in Hdata, Hshape, Heop, Hbnd.
  apply andb_true_iff in Hen as [Hoff Hrdy]. simpl in Hoff, Hrdy. subst off rdy.
  unfold settled, pipe_step, up_inputs, down_inputs, produce, work.
  unfold up_sync, down_sync, up_comb, down_comb, up_store, down_select.
  destruct st.
  - right. destruct Hshape as (-> & Hlen & Hm).
    destruct (Z.eqb_spec m (r - 1)) as [->|Hne].
    + destruct pend as [|w rest]; simpl; tests; simpl.
      * lia.
      * cbn [no_early_eop] in Heop. destruct Heop as [Hw Heop].
        assert (w_eop w = false) as ->.
        { destruct (w_eop w); [|done]. specialize (Hw eq_refl). lia. }
        simpl. rewrite wrap_small by lia. lia.
    + destruct pend as [|w rest]; simpl; tests; simpl;
        rewrite ?andb_false_r; simpl; rewrite wrap_small by lia; lia.
  - destruct Hshape as (-> & Hq & Hr). subst q.
    destruct pend as [|w rest]; [by left|right]. simpl; tests; simpl.
    cbn [no_early_eop] in Heop. destruct Heop as [Hw Heop].
    destruct (Z.eqb_spec (Z.of_nat (length g)) (r - 1)) as [Hfull|Hpart];
      simpl.
    + lia.
    + assert (w_eop w = false) as ->.
      { destruct (w_eop w); [|done]. by specialize (Hw eq_refl). }
      simpl. rewrite wrap_small by lia. lia.
Qed.

(** Once nothing is left to move, nothing moves. *)
Lemma settled_step (p : pipe) (s : sched) :
  settled p → settled (pipe_step cu cd p s).
Proof.
  destruct p as [[q st e data vtc] [m] pend], s as [off idl rdy].
  intros [Hs Hp]. simpl in Hs, Hp. subst st pend.
  unfold settled, pipe_step, up_inputs, down_inputs, produce.
  unfold up_sync, down_sync, up_comb, down_comb. simpl.
  split; [|done]. by destruct (_ && rdy).
Qed.

Lemma settled_run (ss : list sched) (p : pipe) :
  settled p → settled (pipe_final cu cd p ss).
Proof.
  revert p. induction ss as [|s ss IH]; intros p Hp; [done|].
  cbn [pipe_final]. by apply IH, settled_step.
Qed.

(** With as many such cycles as there are transfers to make, the pipe
    settles. *)
Lemma pipe_run_settles (ss : list sched) (p : pipe) (g : list Z) :
  pipe_inv n r cd p g →
  work r p ≤ Z.of_nat (length (List.filter enabled ss)) →
  settled (pipe_final cu cd p ss).
Proof.
  revert p g. induction ss as [|s ss IH]; intros p g Hinv Hw.
  - cbn [pipe_final]. cbn [List.filter length] in Hw.
    destruct Hinv as (_ & Hshape & _). unfold work in Hw. unfold settled.
    destruct (strobe_all (p_up p)); [lia|].
    split; [done|]. destruct (p_pending p); [done|]. cbn [length] in Hw. lia.
  - destruct (pipe_step_inv p g s Hinv) as (g1 & Hinv1 & _ & Hle & _).
    cbn [pipe_final]. cbn [List.filter] in Hw.
    destruct (enabled s) eqn:Hen.
    + destruct (pipe_step_progress p g s Hinv Hen) as [Hset|Hlt].
      * by apply settled_run, settled_step.
      * apply (IH _ g1 Hinv1). cbn [length] in Hw. lia.
    + apply (IH _ g1 Hinv1). lia.
Qed.

(** The words of an incomplete group are always still in flight. *)
Lemma inflight_residue (p : pipe) (g : list Z) :
  pipe_inv n r cd p g →
  residue r p ≤ Z.of_nat (length (inflight p g)).
Proof.
  intros (_ & Hshape & _). unfold residue, inflight.
  rewrite length_app, length_map.
  destruct (strobe_all (p_up p)).
  - destruct Hshape as (-> & _ & _). rewrite Z.add_0_l.
    pose proof (Z.mod_le (Z.of_nat (length (p_pending p))) r). lia.
  - destruct Hshape as (-> & Hlen & Hq).
    change (Z.to_nat 0) with 0%nat. rewrite drop_0.
    pose proof (Z.mod_le (demux (p_up p) + Z.of_nat (length (p_pending p))) r).
    lia.
Qed.

Lemma pipe_reset_inv (ws : list word) :
  Forall (λ w, 0 ≤ w_data w < 2 ^ n) ws → no_early_eop r 0 ws →
  pipe_inv n r cd (pipe_reset cu ws) [].
Proof.
  intros Hbnd Heop. split; [|split; [|split]]; try done.
  simpl. lia.
Qed.

End RoundTrip.

Section RoundTripClaim.
Import Migen Conv.

(** C5 (as amended): for every ratio [r >= 2], reversal flag and word width,
    and every sequence of words with no early [eop], whatever the producer's
    and the consumer's stalls, the narrow words delivered by an up-converter
    feeding a down-converter are a prefix of the sequence: same values, same
    order, none duplicated.  When the sequence consists of whole groups of
    [r] words, it is delivered completely once the producer has offered and
    the consumer has been ready together in twice as many cycles as there
    are words.  For a sequence of any length, what is delivered is always a
    prefix of the words that make whole groups, so no word of an incomplete
    last group is ever delivered; and after that many cycles exactly the
    whole groups have been delivered, no word is pending, no output word is
    presented, and the words of the incomplete last group sit in the
    up-converter: [demux] is their number and they are in its data register
    in slot order. *)
Theorem up_down_round_trip (n r : Z) (rev repu repd : bool)
    (ws : list word) (ss : list sched) :
  0 ≤ n → 2 ≤ r →
  Forall (λ w, 0 ≤ w_data w < 2 ^ n) ws →
  no_early_eop r 0 ws →
  pipe_run (up_config n r rev repu) (down_config n r rev repd)
           (pipe_reset (up_config n r rev repu) ws) ss
    `prefix_of` List.map w_data ws ∧
  (Z.of_nat (length ws) mod r = 0 →
   2 * Z.of_nat (length ws) ≤ Z.of_nat (length (List.filter enabled ss)) →
   pipe_run (up_config n r rev repu) (down_config n r rev repd)
            (pipe_reset (up_config n r rev repu) ws) ss
   = List.map w_data ws) ∧
  pipe_run (up_config n r rev repu) (down_config n r rev repd)
           (pipe_reset (up_config n r rev repu) ws) ss
    `prefix_of` List.map w_data (complete_groups r ws) ∧
  (2 * Z.of_nat (length ws) ≤ Z.of_nat (length (List.filter enabled ss)) →
   pipe_run (up_config n r rev repu) (down_config n r rev repd)
            (pipe_reset (up_config n r rev repu) ws) ss
   = List.map w_data (complete_groups r ws) ∧
   p_pending (pipe_final (up_config n r rev repu) (down_config n r rev repd)
                (pipe_reset (up_config n r rev repu) ws) ss) = [] ∧
   strobe_all
     (p_up (pipe_final (up_config n r rev repu) (down_config n r rev repd)
              (pipe_reset (up_config n r rev repu) ws) ss)) = false ∧
   demux
     (p_up (pipe_final (up_config n r rev repu) (down_config n r rev repd)
              (pipe_reset (up_config n r rev repu) ws) ss))
   = Z.of_nat (length ws) mod r ∧
   ∀ (i : nat) (w : word),
     incomplete_group r ws !! i = Some w →
     sub_word (down_config n r rev repd)
       (up_source_data
          (p_up (pipe_final (up_config n r rev repu)
                   (down_config n r rev repd)
                   (pipe_reset (up_config n r rev repu) ws) ss)))
       (Z.of_nat i)
     = w_data w).
Proof.
  intros Hn Hr Hbnd Heop.
  pose proof (pipe_reset_inv n r rev repu repd Hr ws Hbnd Heop) as Hinv.
  destruct (pipe_run_inv n r rev repu repd Hn Hr ss _ _ Hinv)
    as (g' & Hinv' & Hrun & Hres & Hdone).
  set (cu := up_config n r rev repu) in *.
  set (cd := down_config n r rev repd) in *.
  set (p' := pipe_final cu cd (pipe_reset cu ws) ss) in *.
  set (out := pipe_run cu cd (pipe_reset cu ws) ss) in *.
  assert (inflight (pipe_reset cu ws) [] = List.map w_data ws) as Hall
    by done.
  rewrite Hall in Hrun.
  assert (residue r (pipe_reset cu ws) = Z.of_nat (length ws) mod r) as Hres0.
  { unfold residue. cbn. by rewrite Z.add_0_l. }
  rewrite Hres0 in Hres.
  pose proof (Z.mod_pos_bound (Z.of_nat (length ws)) r ltac:(lia)) as Hk.
  pose proof (Z.mod_le (Z.of_nat (length ws)) r ltac:(lia) ltac:(lia)) as Hkle.
  set (k := Z.of_nat (length ws) mod r) in *.
  assert (length out + length (inflight p' g') = length ws)%nat as Hlen.
  { rewrite <- length_app, Hrun. apply length_map. }
  unfold complete_groups, incomplete_group. fold k.
  split; [eexists; symmetry; exact Hrun|]. split; [|split].
  - intros Hwhole Hen.
    rewrite (work_zero n r rev repd _ _ Hinv') in Hrun.
    + by rewrite app_nil_r in Hrun.
    + apply Hdone; [by rewrite Hres0|]. unfold work. simpl. lia.
  - pose proof (inflight_residue n r rev repd Hr _ _ Hinv') as Hin.
    rewrite Hres in Hin.
    exists (take (length (inflight p' g') - Z.to_nat k) (inflight p' g')).
    rewrite <- List.firstn_map, <- Hrun.
    replace (Z.to_nat (Z.of_nat (length ws) - k))
      with (length out + (length (inflight p' g') - Z.to_nat k))%nat by lia.
    by rewrite take_app_add.
  - intros Hen.
    assert (settled p') as [Hstrobe Hpend].
    { apply (pipe_run_settles n r rev repu repd Hn Hr ss _ _ Hinv).
      unfold work. simpl. lia. }
    destruct Hinv' as (Hdata & Hshape & _).
    rewrite Hstrobe in Hshape. destruct Hshape as (Hmux & Hg & Hq).
    assert (inflight p' g' = g') as Hfl.
    { unfold inflight. rewrite Hmux, Hpend. cbn [List.map].
      change (Z.to_nat 0) with 0%nat. by rewrite drop_0, app_nil_r. }
    rewrite Hfl in Hrun, Hlen.
    assert (demux (p_up p') = k) as Hdemux.
    { rewrite <- Hres. unfold residue. rewrite Hpend. cbn [length].
      rewrite Z.add_0_r, Z.mod_small; lia. }
    assert (Z.to_nat (Z.of_nat (length ws) - k) = length out) as Hcut by lia.
    rewrite Hcut.
    split; [|split; [done|split; [done|split; [done|]]]].
    + rewrite <- List.firstn_map, <- Hrun. by rewrite take_app_length.
    + intros i w Hi. apply Hdata.
      assert (g' = List.map w_data (drop (length out) ws)) as ->.
      { rewrite <- List.skipn_map, <- Hrun. by rewrite drop_app_length. }
      by rewrite list_lookup_fmap, Hi.
Qed.

Lemma up_down_round_trip_witness :
  let ws := [ {| w_data := 0x11; w_eop := false; w_last := false |};
              {| w_data := 0x22; w_eop := false; w_last := true |};
              {| w_data := 0x33; w_eop := false; w_last := false |};
              {| w_data := 0x44; w_eop := true; w_last := true |};
              {| w_data := 0x55; w_eop := false; w_last := false |} ] in
  let go := {| offer := true; ready := true;
               idle := {| w_data := 0xFF; w_eop := true; w_last := false |} |} in
  let wait := {| offer := true; ready := false;
                 idle := {| w_data := 0xFF; w_eop := true; w_last := false |} |} in
  let ss := [go; go; wait; go; go; go; wait; go; go; go; go; go] in
  let cu := up_config 8 2 true false in
  let cd := down_config 8 2 true true in
  pipe_run cu cd (pipe_reset cu ws) ss = [0x11; 0x22; 0x33; 0x44] ∧
  p_pending (pipe_final cu cd (pipe_reset cu ws) ss) = [] ∧
  strobe_all (p_up (pipe_final cu cd (pipe_reset cu ws) ss)) = false ∧
  demux (p_up (pipe_final cu cd (pipe_reset cu ws) ss)) = 1 ∧
  sub_word cd (up_source_data (p_up (pipe_final cu cd (pipe_reset cu ws) ss)))
           0 = 0x55.
Proof.
  intros ws go wait ss cu cd.
  destruct (up_down_round_trip 8 2 true false true ws ss) as (_ & _ & _ & H).
  - lia.
  - lia.
  - repeat constructor; simpl; lia.
  - simpl. repeat split; intros; congruence.
  - destruct H as (Hout & Hpend & Hstrobe & Hdemux & Hdata).
    + simpl. lia.
    + split; [exact Hout|]. split; [exact Hpend|]. split; [exact Hstrobe|].
      split; [exact Hdemux|].
      apply (Hdata 0%nat {| w_data := 0x55; w_eop := false; w_last := false |}).
      reflexivity.
Defined.

(** C5 (as stated, fails): a sequence that does not fill its last group is
    not reproduced.  With ratio 2, a single word without [eop] stays in the
    up-converter: no schedule makes the pipe deliver it. *)
Lemma round_trip_incomplete_group_kept :
  ¬ ∃ ss : list sched,
      pipe_run (up_config 8 2 false false) (down_config 8 2 false false)
               (pipe_reset (up_config 8 2 false false)
                  [ {| w_data := 0x5A; w_eop := false; w_last := false |} ])
               ss
      = [0x5A].
Proof.
  intros [ss Hall].
  assert (pipe_inv 8 2 (down_config 8 2 false false)
            (pipe_reset (up_config 8 2 false false)
               [ {| w_data := 0x5A; w_eop := false; w_last := false |} ]) [])
    as Hinv.
  { apply pipe_reset_inv; [lia| |].
    - repeat constructor; simpl; lia.
    - simpl. split; [congruence|done]. }
  destruct (pipe_run_inv 8 2 false false false ltac:(lia) ltac:(lia) ss _ _ Hinv)
    as (g' & Hinv' & Hrun & Hres & _).
  rewrite Hall in Hrun. injection Hrun as Hnil.
  apply (inflight_nil_residue 8 2 false false) in Hnil; [|lia|done].
  rewrite Hnil in Hres. vm_compute in Hres. discriminate.
Qed.

End RoundTripClaim.

(* ===================================================================== *)
(** * Part III: further properties of the source                          *)
(* ===================================================================== *)

(** ** Layouts *)

Section LayoutMore.
Import Py Layout.

Lemma make_m2s_field_spec :
  ∀ f : field,
    strip_direction (_make_m2s_field f) = f ∧
    all_m2s (_make_m2s_field f) = true.
Proof.
  fix IH 1. intros [n s|n sub]; simpl; [done|].
  assert (List.map strip_direction (List.map _make_m2s_field sub) = sub ∧
          forallb all_m2s (List.map _make_m2s_field sub) = true) as [-> ->];
    [|done].
  induction sub as [|f sub IHsub]; simpl; [done|].
  destruct (IH f) as [-> ->]. destruct IHsub as [-> ->]. done.
Qed.

(** [_make_m2s] keeps the names, shapes and nesting of a layout and gives
    every leaf, at any depth, the direction master-to-slave. *)
Theorem make_m2s_keeps_layout (layout : list field) :
  List.map strip_direction (_make_m2s layout) = layout ∧
  forallb all_m2s (_make_m2s layout) = true.
Proof.
  unfold _make_m2s. induction layout as [|f layout [IH1 IH2]]; simpl; [done|].
  destruct (make_m2s_field_spec f) as [-> ->]. by rewrite IH1, IH2.
Qed.

(** An endpoint is built exactly from the layouts whose field names are
    pairwise distinct and not reserved; it then keeps the payload layout as
    its description, and its record has [stb], [ack], [last], [eop] and the
    payload, in this order, [ack] being the only field that goes from slave
    to master. *)
Theorem Endpoint_built_iff (layout : list field) :
  (NoDup (fname <$> layout) ∧ ∀ n, n ∈ (fname <$> layout) → n ∉ reserved) ↔
  Endpoint layout
  = inr {| description := layout;
           full_layout :=
             [ DLeaf "stb" (Bits 1) DIR_M_TO_S;
               DLeaf "ack" (Bits 1) DIR_S_TO_M;
               DLeaf "last" (Bits 1) DIR_M_TO_S;
               DLeaf "eop" (Bits 1) DIR_M_TO_S;
               DSub "payload" (_make_m2s layout) ] |}.
Proof.
  unfold Endpoint, get_full_layout.
  destruct (check_fields ∅ layout) as [e|] eqn:E.
  - split; [|done]. intros [Hnd Hres].
    assert (check_fields ∅ layout = None) as E'; [|congruence].
    apply check_fields_None. split; [done|]. intros n Hn.
    split; [apply not_elem_of_empty|by apply Hres].
  - split; [done|]. intros _.
    apply check_fields_None in E as [Hnd Hres].
    split; [done|]. intros n Hn. by apply Hres.
Qed.

Lemma Endpoint_built_iff_witness :
  Endpoint [Leaf "data" (Bits 8); Leaf "be" (Bits 1)]
  = inr {| description := [Leaf "data" (Bits 8); Leaf "be" (Bits 1)];
           full_layout :=
             [ DLeaf "stb" (Bits 1) DIR_M_TO_S;
               DLeaf "ack" (Bits 1) DIR_S_TO_M;
               DLeaf "last" (Bits 1) DIR_M_TO_S;
               DLeaf "eop" (Bits 1) DIR_M_TO_S;
               DSub "payload"
                 (_make_m2s [Leaf "data" (Bits 8); Leaf "be" (Bits 1)]) ] |}.
Proof.
  apply (proj1 (Endpoint_built_iff [Leaf "data" (Bits 8); Leaf "be" (Bits 1)])).
  split.
  - apply (bool_decide_unpack _). vm_compute. exact I.
  - intros n Hn. apply (bool_decide_unpack _).
    apply list_elem_of_In in Hn. simpl in Hn.
    destruct Hn as [<-|[<-|[]]]; vm_compute; exact I.
Defined.

(** The loop over a prefix of valid fields only collects their names. *)
Lemma check_fields_app (att : gset string) (pre rest : list field) :
  NoDup (fname <$> pre) →
  (∀ n, n ∈ (fname <$> pre) → (n ∉ att) ∧ (n ∉ reserved)) →
  ∃ att' : gset string,
    (∀ n, n ∈ att' ↔ n ∈ (fname <$> pre) ∨ n ∈ att) ∧
    check_fields att (pre ++ rest) = check_fields att' rest.
Proof.
  revert att. induction pre as [|f pre IH]; intros att Hnd Hok.
  - exists att. split; [|done]. intros n. split; [by right|].
    intros [Hn|Hn]; [inversion Hn|done].
  - simpl in Hnd. apply NoDup_cons in Hnd as [Hf Hnd].
    destruct (Hok (fname f)) as [Hfa Hfr]; [left|].
    simpl. destruct (decide (fname f ∈ att)) as [?|_]; [done|].
    destruct (decide (fname f ∈ reserved)) as [?|_]; [done|].
    destruct (IH ({[fname f]} ∪ att) Hnd) as (att' & Hatt' & ->).
    + intros n Hn. destruct (Hok n) as [Hna Hnr]; [by right|].
      split; [|done].
      intros [Hc%elem_of_singleton|Hc]%elem_of_union; [|done].
      by subst n.
    + exists att'. split; [|done]. intros n. rewrite Hatt'.
      rewrite elem_of_union, elem_of_singleton, elem_of_cons. tauto.
Qed.

(** The exception names the first field that cannot be accepted: a name that
    was already used is reported as already attributed, whether or not it is
    also reserved; otherwise a reserved name is reported as not usable. *)
Theorem get_full_layout_first_offender (pre post : list field) (f : field) :
  NoDup (fname <$> pre) →
  (∀ n, n ∈ (fname <$> pre) → n ∉ reserved) →
  fname f ∈ (fname <$> pre) ∨ fname f ∈ reserved →
  get_full_layout (pre ++ f :: post)
  = inl (ValueError
           (fname f +:+
            (if decide (fname f ∈ (fname <$> pre))
             then " already attributed in payload layout"
             else " cannot be used in endpoint layout"))).
Proof.
  intros Hnd Hres Hbad. unfold get_full_layout.
  destruct (check_fields_app ∅ pre (f :: post) Hnd) as (att' & Hatt' & ->).
  { intros n Hn. split; [apply not_elem_of_empty|by apply Hres]. }
  simpl. destruct (decide (fname f ∈ att')) as [Hin|Hnin].
  - apply Hatt' in Hin as [Hin|Hin]; [|by apply not_elem_of_empty in Hin].
    by rewrite decide_True.
  - assert (fname f ∉ (fname <$> pre)) as Hnp.
    { intros Hc. apply Hnin, Hatt'. by left. }
    rewrite (decide_False _ _ Hnp).
    destruct Hbad as [?|Hr]; [done|]. by rewrite decide_True.
Qed.

Lemma get_full_layout_first_offender_witness :
  get_full_layout [Leaf "data" (Bits 8); Leaf "be" (Bits 1);
                   Leaf "data" (Bits 4); Leaf "eop" (Bits 1)]
  = inl (ValueError "data already attributed in payload layout") ∧
  get_full_layout [Leaf "data" (Bits 8); Leaf "eop" (Bits 1);
                   Leaf "data" (Bits 4)]
  = inl (ValueError "eop cannot be used in endpoint layout").
Proof.
  split.
  - apply (get_full_layout_first_offender
             [Leaf "data" (Bits 8); Leaf "be" (Bits 1)]
             [Leaf "eop" (Bits 1)] (Leaf "data" (Bits 4))).
    + apply (bool_decide_unpack _). vm_compute. exact I.
    + intros n Hn. apply (bool_decide_unpack _).
      apply list_elem_of_In in Hn. simpl in Hn.
      destruct Hn as [<-|[<-|[]]]; vm_compute; exact I.
    + left. simpl. left.
  - apply (get_full_layout_first_offender
             [Leaf "data" (Bits 8)]
             [Leaf "data" (Bits 4)] (Leaf "eop" (Bits 1))).
    + apply (bool_decide_unpack _). vm_compute. exact I.
    + intros n Hn. apply (bool_decide_unpack _).
      apply list_elem_of_In in Hn. simpl in Hn.
      destruct Hn as [<-|[]]; vm_compute; exact I.
    + right. apply (bool_decide_unpack _). vm_compute. exact I.
Defined.

End LayoutMore.

(** ** The FIFO wrapper: what goes through the queue *)

Section FifoData.
Import Migen Fifo.

Variable c : config.
Hypothesis payload_bits_nonneg : 0 ≤ payload_bits c.

#[local] Arguments comb : simpl never.
#[local] Arguments sync : simpl never.
#[local] Arguments queue_signals : simpl never.
#[local] Arguments sys_step : simpl never.
#[local] Arguments sys_signals : simpl never.

(** A word is read exactly on an output transfer. *)
Lemma do_read_is_transfer (r : regs) (q : queue_out) (s : sink_in)
    (a : bool) :
  do_read (comb c r q s a) = source_stb (comb c r q s a) && a.
Proof.
  unfold comb; simpl. destruct (hi r) as [hr|]; simpl.
  - by destruct (readable q), (almost_full q), (activated hr), a.
  - by destruct (readable q), a.
Qed.

(** The payload of an entry is the payload that was written, truncated to
    the payload's width. *)
Lemma stored_payload (p : Z) (e : bool) :
  slice (wrap (payload_bits c + 1) (cat_bit (payload_bits c) p e))
        0 (payload_bits c)
  = p mod 2 ^ payload_bits c.
Proof.
  rewrite <- Z.land_ones by done. apply Z.bits_inj'. intros i Hi.
  rewrite slice_spec, Z.land_spec, Z.testbit_ones_nonneg by lia.
  rewrite Z.sub_0_r, Z.add_0_r.
  destruct (Z.ltb_spec i (payload_bits c)) as [Hlt|Hge];
    [|by rewrite !andb_false_r].
  rewrite !andb_true_r. unfold wrap, cat_bit.
  rewrite Z.mod_pow2_bits_low by lia.
  rewrite Z.lor_spec, Z.land_spec, Z.testbit_ones_nonneg by lia.
  replace (i <? payload_bits c) with true by lia.
  rewrite Z.shiftl_spec, (Z.testbit_neg_r _ (i - payload_bits c)) by lia.
  by rewrite andb_true_r, orb_false_r.
Qed.

(** What an entry written in one cycle shows when it is at the queue's
    output in a later one. *)
Theorem fifo_entry_round_trip (r r' : regs) (q q' : queue_out)
    (s s' : sink_in) (a a' : bool) :
  dout q' = wrap (payload_bits c + 1) (fifo_din (comb c r q s a)) →
  source_payload (comb c r' q' s' a') = sink_payload s mod 2 ^ payload_bits c ∧
  source_eop (comb c r' q' s' a') = sink_eop s.
Proof.
  intros Hd. unfold comb in *; simpl in *. rewrite Hd.
  split; [apply stored_payload|].
  unfold wrap, cat_bit.
  rewrite Z.mod_pow2_bits_low by lia.
  rewrite Z.lor_spec, Z.land_spec, Z.ones_spec_high by lia.
  rewrite andb_false_r, Z.shiftl_spec, Z.sub_diag by lia.
  by destruct (sink_eop s).
Qed.

(** In every reachable state the queue is written exactly on an input
    transfer and read exactly on an output transfer; with a high watermark
    the read enable is never raised on an empty queue, and with a low
    watermark the write enable is never raised on a full one. *)
Theorem fifo_queue_access (r : regs) (q : queue_out) (s : sink_in)
    (a : bool) :
  reachable c r →
  do_write (comb c r q s a) = sink_stb s && sink_ack (comb c r q s a) ∧
  do_read (comb c r q s a) = source_stb (comb c r q s a) && a ∧
  (is_Some (hi_wm c) → fifo_re (comb c r q s a) = true → readable q = true) ∧
  (is_Some (lo_wm c) → fifo_we (comb c r q s a) = true → writable q = true).
Proof.
  intros Hr. apply reachable_regs in Hr as [Hh Hl].
  split; [apply do_write_is_transfer|]. split; [apply do_read_is_transfer|].
  split.
  - intros [hr Hhr]%Hh. unfold comb; simpl. rewrite Hhr.
    by destruct (readable q).
  - intros [lr Hlr]%Hl. unfold comb; simpl. rewrite Hlr.
    by destruct (writable q), (sink_stb s).
Qed.

Variable ae : Z → bool.
Variable junk : Z.

(** One cycle: what leaves was the oldest entry, what enters becomes the
    newest. *)
Lemma order_step (st : system) (i : cycle_in) :
  read_out [(i, sys_signals c ae junk st i)]
    ++ List.map (decode c) (sys_items (sys_step c ae junk st i))
  = List.map (decode c) (sys_items st)
    ++ written c [(i, sys_signals c ae junk st i)].
Proof.
  unfold read_out, written. cbn [List.filter].
  unfold is_read, is_write, sys_signals. cbn [fst snd].
  rewrite <- do_read_is_transfer, <- do_write_is_transfer.
  rewrite sys_step_eq. cbn [sys_items].
  destruct st as [r items]. cbn [sys_regs sys_items].
  set (q := queue_signals c ae junk items).
  assert (do_read (comb c r q (snk i) (src_ack i)) = true →
          ∃ x rest, items = x :: rest) as Hne.
  { unfold comb; simpl. intros [_ Hrd]%andb_true_iff.
    destruct items as [|x rest]; [done|eauto]. }
  assert (source_payload (comb c r q (snk i) (src_ack i))
          = slice (hd junk items) 0 (payload_bits c)) as Hsp by done.
  assert (source_eop (comb c r q (snk i) (src_ack i))
          = Z.testbit (hd junk items) (payload_bits c)) as Hse by done.
  assert (fifo_din (comb c r q (snk i) (src_ack i))
          = cat_bit (payload_bits c) (sink_payload (snk i))
                    (sink_eop (snk i))) as Hdin by done.
  rewrite Hdin.
  destruct (do_read _) eqn:Hrd.
  - destruct Hne as (x & rest & ->); [done|].
    destruct (do_write _); cbn [List.map hd tl app fst snd];
      rewrite Hsp, Hse; cbn [hd].
    + rewrite map_app. cbn [List.map]. unfold decode.
      by rewrite stored_payload, stored_eop.
    + by rewrite app_nil_r.
  - destruct (do_write _); cbn [List.map app fst snd].
    + rewrite map_app. cbn [List.map]. unfold decode.
      by rewrite stored_payload, stored_eop.
    + by rewrite app_nil_r.
Qed.

Lemma level_step (st : system) (i : cycle_in) :
  Z.of_nat (length (sys_items st)) ≤ depth c →
  Z.of_nat (length (sys_items (sys_step c ae junk st i))) ≤ depth c.
Proof.
  rewrite sys_step_eq. cbn [sys_items]. intros Hle.
  set (q := queue_signals c ae junk (sys_items st)).
  assert (do_write (comb c (sys_regs st) q (snk i) (src_ack i)) = true →
          Z.of_nat (length (sys_items st)) < depth c) as Hroom.
  { unfold comb; simpl. intros [_ Hwr]%andb_true_iff. lia. }
  assert (∀ b : bool,
            length (if b then tl (sys_items st) else sys_items st)
            ≤ length (sys_items st))%nat as Hpop.
  { intros []; [|done]. destruct (sys_items st); simpl; lia. }
  destruct (do_write _).
  - rewrite length_app. cbn [length].
    specialize (Hroom eq_refl).
    specialize (Hpop (do_read (comb c (sys_regs st) q (snk i) (src_ack i)))).
    lia.
  - specialize (Hpop (do_read (comb c (sys_regs st) q (snk i) (src_ack i)))).
    lia.
Qed.

Lemma read_out_cons (e : cycle_in * signals)
    (tr : list (cycle_in * signals)) :
  read_out (e :: tr) = read_out [e] ++ read_out tr.
Proof. unfold read_out. cbn [List.filter]. by destruct (is_read e). Qed.

Lemma written_cons (e : cycle_in * signals)
    (tr : list (cycle_in * signals)) :
  written c (e :: tr) = written c [e] ++ written c tr.
Proof. unfold written. cbn [List.filter]. by destruct (is_write e). Qed.

Lemma order_run (ins : list cycle_in) (st : system) :
  read_out (fst (run c ae junk st ins))
    ++ List.map (decode c) (sys_items (snd (run c ae junk st ins)))
  = List.map (decode c) (sys_items st)
    ++ written c (fst (run c ae junk st ins)) ∧
  (Z.of_nat (length (sys_items st)) ≤ depth c →
   Z.of_nat (length (sys_items (snd (run c ae junk st ins)))) ≤ depth c).
Proof.
  revert st. induction ins as [|i ins IH]; intros st.
  { cbn. by rewrite app_nil_r. }
  cbn [run]. destruct (IH (sys_step c ae junk st i)) as [IHo IHl].
  destruct (run c ae junk (sys_step c ae junk st i) ins) as [tr st'].
  cbn [fst snd] in *. split.
  - rewrite read_out_cons, written_cons.
    rewrite <- app_assoc, IHo, !app_assoc. f_equal. apply order_step.
  - intros Hle. by apply IHl, level_step.
Qed.

End FifoData.

Section FifoOrder.
Import Migen Fifo.

(** With or without watermarks, the wrapper around the queue delivers the
    words in the order they were written, each once, with the payload (as
    far as it fits the payload's width) and the [eop] flag it was written
    with: at any time the words read so far, followed by those still stored,
    are the words written so far; and the queue never holds more than
    [depth] entries. *)
Theorem fifo_preserves_order (c : config) (ae : Z → bool) (junk : Z)
    (ins : list cycle_in) :
  0 ≤ payload_bits c → 0 ≤ depth c →
  read_out (fst (run c ae junk (sys_reset c) ins))
    ++ List.map (decode c)
         (sys_items (snd (run c ae junk (sys_reset c) ins)))
  = written c (fst (run c ae junk (sys_reset c) ins)) ∧
  Z.of_nat (length (sys_items (snd (run c ae junk (sys_reset c) ins))))
  ≤ depth c.
Proof.
  intros Hpw Hd.
  destruct (order_run c Hpw ae junk ins (sys_reset c)) as [Ho Hl].
  split; [exact Ho|]. apply Hl. simpl. lia.
Qed.

Lemma fifo_preserves_order_witness :
  let c := {| depth := 2; hi_wm := None; lo_wm := None;
              payload_bits := 8 |} in
  let ins := [write_cycle 0x11 false; write_cycle 0x222 true;
              write_cycle 0x33 false; read_cycle; write_cycle 0x44 false] in
  read_out (fst (run c (λ _, false) 0 (sys_reset c) ins))
    ++ List.map (decode c)
         (sys_items (snd (run c (λ _, false) 0 (sys_reset c) ins)))
  = [(0x11, false); (0x22, true); (0x44, false)].
Proof.
  intros c ins.
  destruct (fifo_preserves_order c (λ _, false) 0 ins) as [H _].
  - simpl. lia.
  - simpl. lia.
  - exact H.
Defined.

End FifoOrder.

Lemma fifo_queue_access_witness :
  let c := {| Fifo.depth := 4; Fifo.hi_wm := Some 2; Fifo.lo_wm := Some 2;
              Fifo.payload_bits := 8 |} in
  let q := {| Fifo.writable := false; Fifo.readable := false;
              Fifo.almost_full := true; Fifo.almost_empty := true;
              Fifo.dout := 0 |} in
  let s := {| Fifo.sink_stb := true; Fifo.sink_eop := false;
              Fifo.sink_last := false; Fifo.sink_payload := 1 |} in
  Fifo.do_write (Fifo.comb c (Fifo.reset c) q s true) = false ∧
  Fifo.do_read (Fifo.comb c (Fifo.reset c) q s true) = false.
Proof.
  intros c q s.
  destruct (fifo_queue_access c (Fifo.reset c) q s true
              (Fifo.reach_reset c)) as (Hw & Hr & _).
  rewrite Hw, Hr. split; reflexivity.
Defined.

Lemma fifo_entry_round_trip_witness :
  let c := {| Fifo.depth := 4; Fifo.hi_wm := Some 2; Fifo.lo_wm := None;
              Fifo.payload_bits := 8 |} in
  let s := {| Fifo.sink_stb := true; Fifo.sink_eop := true;
              Fifo.sink_last := false; Fifo.sink_payload := 0x3A5 |} in
  let q' := {| Fifo.writable := true; Fifo.readable := true;
               Fifo.almost_full := false; Fifo.almost_empty := false;
               Fifo.dout := 0x1A5 |} in
  Fifo.source_payload (Fifo.comb c (Fifo.reset c) q' s false) = 0xA5 ∧
  Fifo.source_eop (Fifo.comb c (Fifo.reset c) q' s false) = true.
Proof.
  intros c s q'.
  apply (fifo_entry_round_trip c ltac:(simpl; lia) (Fifo.reset c)
           (Fifo.reset c) q' q' s s true false).
  reflexivity.
Defined.

(** ** The FIFO wrapper: counting the buffered packet ends *)

Section FifoEopCount.
Import Migen Fifo.

Variable c : config.
Variable h : Z.
Variable ae : Z → bool.
Variable junk : Z.
Hypothesis hi_wm_set : hi_wm c = Some h.
Hypothesis payload_bits_nonneg : 0 ≤ payload_bits c.

#[local] Arguments comb : simpl never.
#[local] Arguments sync : simpl never.
#[local] Arguments queue_signals : simpl never.
#[local] Arguments sys_step : simpl never.
#[local] Arguments sys_signals : simpl never.

Lemma eop_entries_le (items : list Z) :
  (eop_entries c items ≤ length items)%nat.
Proof. unfold eop_entries. apply List.filter_length_le. Qed.

Lemma eop_entries_cons (x : Z) (items : list Z) :
  eop_entries c (x :: items)
  = ((if Z.testbit x (payload_bits c) then 1 else 0)
     + eop_entries c items)%nat.
Proof.
  unfold eop_entries. cbn [List.filter].
  by destruct (Z.testbit x (payload_bits c)).
Qed.

Lemma eop_entries_snoc (items : list Z) (x : Z) :
  eop_entries c (items ++ [x])
  = (eop_entries c items
     + if Z.testbit x (payload_bits c) then 1 else 0)%nat.
Proof.
  unfold eop_entries. rewrite List.filter_app, length_app. cbn [List.filter].
  by destruct (Z.testbit x (payload_bits c)).
Qed.

Lemma counted_step (st : system) (i : cycle_in) :
  counted c st →
  counted c (sys_step c ae junk st i) ∧
  has_pending_eop (sys_signals c ae junk st i)
  = negb (Nat.eqb (eop_entries c (sys_items (sys_step c ae junk st i))) 0).
Proof.
  intros (Hlevel & hr & Hhi & Hcount).
  pose proof (level_step c ae junk st i Hlevel) as Hlevel'.
  unfold counted. revert Hlevel'. rewrite sys_step_eq. unfold sys_signals.
  destruct st as [r items]. cbn [sys_regs sys_items] in *.
  set (q := queue_signals c ae junk items).
  set (g := comb c r q (snk i) (src_ack i)).
  assert (do_read g = true → ∃ x rest, items = x :: rest) as Hne.
  { unfold g, comb; simpl. intros [_ Hrd]%andb_true_iff.
    destruct items as [|x rest]; [done|eauto]. }
  assert (do_write g = true → Z.of_nat (length items) < depth c) as Hroom.
  { unfold g, comb; simpl. intros [_ Hwr]%andb_true_iff. lia. }
  assert (fifo_din g
          = cat_bit (payload_bits c) (sink_payload (snk i))
                    (sink_eop (snk i))) as Hdin by done.
  assert (eop_count_next g
          = if sink_eop (snk i) && do_write g then
              if negb (Z.testbit (hd junk items) (payload_bits c)
                       && do_read g)
              then wrap (bits_for (depth c)) (eop_count hr + 1)
              else eop_count hr
            else if Z.testbit (hd junk items) (payload_bits c) && do_read g
            then wrap (bits_for (depth c)) (eop_count hr - 1)
            else eop_count hr) as Hnext.
  { unfold g, comb. rewrite Hhi. reflexivity. }
  assert (has_pending_eop g = negb (eop_count_next g =? 0)) as Hpend by done.
  assert (∃ hr', hi (sync c r q (snk i) (src_ack i)) = Some hr' ∧
                 eop_count hr' = eop_count_next g) as (hr' & Hhi' & Hec').
  { unfold sync. rewrite hi_wm_set, Hhi. eexists. split; [done|]. done. }
  rewrite Hdin, Hpend. clearbody g q.
  pose proof (eop_entries_le items) as Hle.
  assert (eop_count_next g
          = Z.of_nat
              (eop_entries c
                 (if do_write g
                  then (if do_read g then tl items else items)
                       ++ [wrap (payload_bits c + 1)
                             (cat_bit (payload_bits c) (sink_payload (snk i))
                                      (sink_eop (snk i)))]
                  else if do_read g then tl items else items))) as Hgoal.
  { rewrite Hnext, Hcount.
    destruct (do_read g) eqn:Hrd.
    - destruct Hne as (x & rest & ->); [done|]. cbn [hd tl].
      rewrite eop_entries_cons in *. cbn [length] in *.
      pose proof (eop_entries_le rest).
      destruct (do_write g); rewrite ?eop_entries_snoc, ?stored_eop;
        destruct (sink_eop (snk i)), (Z.testbit x (payload_bits c));
        cbn [andb negb]; rewrite ?wrap_small; lia.
    - destruct (do_write g) eqn:Hwr;
        [specialize (Hroom eq_refl)|];
        rewrite ?eop_entries_snoc, ?stored_eop, ?andb_false_r;
        destruct (sink_eop (snk i)); cbn [andb negb];
        rewrite ?wrap_small; lia. }
  intros Hlevel'. split.
  - split; [done|]. exists hr'. split; [done|]. by rewrite Hec'.
  - rewrite Hgoal. f_equal.
    match goal with
    | |- (Z.of_nat ?k =? 0) = _ => generalize k
    end.
    intros [|m]; [reflexivity|]. cbn [Nat.eqb]. apply Z.eqb_neq. lia.
Qed.

Lemma counted_run (ins : list cycle_in) (st : system) :
  counted c st → counted c (snd (run c ae junk st ins)).
Proof.
  revert st. induction ins as [|i ins IH]; intros st Hst; [done|].
  cbn [run]. specialize (IH _ (proj1 (counted_step st i Hst))).
  by destruct (run c ae junk (sys_step c ae junk st i) ins).
Qed.

Lemma counted_reset : 0 ≤ depth c → counted c (sys_reset c).
Proof.
  intros Hd. split; [simpl; lia|]. unfold sys_reset, reset. cbn [sys_regs hi].
  rewrite hi_wm_set. eexists. split; [done|]. done.
Qed.

End FifoEopCount.

Section FifoEopCountClaim.
Import Migen Fifo.

(** With a high watermark, whatever the producer and the consumer do,
    [eop_count] is the number of entries with [eop] held in the queue, and
    [has_pending_eop] tells whether one is held after the current cycle's
    write and read. *)
Theorem fifo_eop_count_tracks_queue (c : config) (h : Z) (ae : Z → bool)
    (junk : Z) (ins : list cycle_in) (i : cycle_in) :
  hi_wm c = Some h → 0 ≤ payload_bits c → 0 ≤ depth c →
  option_map eop_count
    (hi (sys_regs (snd (run c ae junk (sys_reset c) ins))))
  = Some (Z.of_nat
            (eop_entries c
               (sys_items (snd (run c ae junk (sys_reset c) ins))))) ∧
  has_pending_eop
    (sys_signals c ae junk (snd (run c ae junk (sys_reset c) ins)) i)
  = negb (Nat.eqb
            (eop_entries c
               (sys_items
                  (sys_step c ae junk
                     (snd (run c ae junk (sys_reset c) ins)) i))) 0).
Proof.
  intros Hh Hpw Hd.
  pose proof (counted_run c h ae junk Hh Hpw ins _
                (counted_reset c h Hh Hd)) as Hst.
  split.
  - destruct Hst as (_ & hr & Hhi & Hec). rewrite Hhi. cbn [option_map].
    by rewrite Hec.
  - apply (counted_step c h ae junk Hh Hpw _ i Hst).
Qed.

Lemma fifo_eop_count_tracks_queue_witness :
  let c := {| depth := 4; hi_wm := Some 3; lo_wm := None;
              payload_bits := 8 |} in
  let ins := [write_cycle 0x11 true; write_cycle 0x22 false;
              write_cycle 0x33 true; read_cycle] in
  option_map eop_count
    (hi (sys_regs (snd (run c (λ _, false) 0 (sys_reset c) ins))))
  = Some 1.
Proof.
  intros c ins.
  destruct (fifo_eop_count_tracks_queue c 3 (λ _, false) 0 ins read_cycle)
    as [H _].
  - reflexivity.
  - simpl. lia.
  - simpl. lia.
  - exact H.
Defined.

End FifoEopCountClaim.

(** ** The FIFO wrapper: a packet shorter than the high watermark *)

Section FifoShortBurst.
Import Migen Fifo.

Variable c : config.
Variable h : Z.
Variable ae : Z → bool.
Variable junk : Z.
Hypothesis hi_wm_set : hi_wm c = Some h.
Hypothesis payload_bits_nonneg : 0 ≤ payload_bits c.

(** The registers of the [hi_wm] block after the clock edge, in terms of
    the cycle's write and read. *)
Lemma sync_hi_eq (r : regs) (q : queue_out) (s : sink_in) (a : bool)
    (hr : hi_regs) :
  hi r = Some hr →
  source_stb (comb c r q s a)
  = readable q && (almost_full q || activated hr) ∧
  source_eop (comb c r q s a) = Z.testbit (dout q) (payload_bits c) ∧
  source_last (comb c r q s a)
  = (transfer_count hr =? 0) || Z.testbit (dout q) (payload_bits c) ∧
  ∃ hr',
    hi (sync c r q s a) = Some hr' ∧
    transfer_count hr'
    = (if do_read (comb c r q s a) && source_last (comb c r q s a)
       then h - 1
       else if do_read (comb c r q s a)
            then wrap (bits_for (h - 1)) (transfer_count hr - 1)
            else transfer_count hr) ∧
    eop_count hr'
    = (if sink_eop s && do_write (comb c r q s a) then
         if negb (Z.testbit (dout q) (payload_bits c)
                  && do_read (comb c r q s a))
         then wrap (bits_for (depth c)) (eop_count hr + 1)
         else eop_count hr
       else if Z.testbit (dout q) (payload_bits c)
               && do_read (comb c r q s a)
       then wrap (bits_for (depth c)) (eop_count hr - 1)
       else eop_count hr) ∧
    activated hr'
    = (if negb (activated hr)
       then almost_full q || (sink_eop s && do_write (comb c r q s a))
       else if do_read (comb c r q s a) && source_last (comb c r q s a)
            then negb (eop_count hr' =? 0)
            else activated hr).
Proof.
  intros Hhi. unfold sync, sync_hi, comb. rewrite hi_wm_set, Hhi.
  cbn. repeat split. eexists. repeat split.
Qed.

#[local] Arguments comb : simpl never.
#[local] Arguments sync : simpl never.
#[local] Arguments queue_signals : simpl never.
#[local] Arguments sys_step : simpl never.
#[local] Arguments sys_signals : simpl never.

Lemma wrap_zero (n : Z) : wrap (bits_for n) 0 = 0.
Proof.
  unfold wrap. apply Z.mod_0_l.
  assert (0 ≤ bits_for n).
  { unfold bits_for. destruct (n <=? 0); [lia|].
    pose proof (Z.log2_nonneg n). lia. }
  pose proof (Z.pow_pos_nonneg 2 (bits_for n)). lia.
Qed.

(** The word that ends the packet is written. *)
Lemma eop_write_step (st : system) (i : cycle_in) :
  filling c h st →
  src_ack i = false → sink_stb (snk i) = true → sink_eop (snk i) = true →
  is_write (i, sys_signals c ae junk st i) = true →
  Z.of_nat (length (sys_items st)) + 1 ≤ h →
  short_draining c h (length (sys_items st)) (length (sys_items st))
                 (sys_step c ae junk st i).
Proof.
  intros [Hfree [act Hhi]] Hack Hstb Heop Hwr Hroom.
  destruct i as [s a]; cbn [snk src_ack] in *; subst a.
  unfold is_write, sys_signals in Hwr; cbn [fst snd snk src_ack] in Hwr.
  rewrite <- do_write_is_transfer in Hwr.
  rewrite sys_step_eq; cbn [snk src_ack].
  destruct st as [r items]; cbn [sys_regs sys_items] in *.
  set (q := queue_signals c ae junk items) in *.
  assert (Z.of_nat (length items) < depth c) as Hdepth.
  { assert (writable q = true) as Hw.
    { change (fifo_we (comb c r q s false) && writable q = true) in Hwr.
      by apply andb_true_iff in Hwr as [_ ?]. }
    unfold q, queue_signals in Hw. cbn [writable] in Hw. lia. }
  assert (do_read (comb c r q s false) = false) as Hrd.
  { rewrite do_read_is_transfer. apply andb_false_r. }
  destruct (sync_hi_eq r q s false _ Hhi)
    as (_ & _ & _ & hr' & Hhi' & Htc & Hec & Hact).
  rewrite Hrd, Hwr, Heop in *. cbn [andb negb transfer_count eop_count
    activated] in *.
  rewrite andb_false_r in Hec. cbn [negb] in Hec.
  rewrite wrap_small in Hec by lia.
  assert (activated hr' = true) as Hact'.
  { rewrite Hact. destruct act; cbn [negb]; [done|apply orb_true_r]. }
  exists items, (wrap (payload_bits c + 1) (fifo_din (comb c r q s false))),
    hr'.
  cbn [sys_items sys_regs].
  assert (fifo_din (comb c r q s false)
          = cat_bit (payload_bits c) (sink_payload s) (sink_eop s)) as ->
    by done.
  rewrite stored_eop, Heop by done.
  repeat split; try done; lia.
Qed.

(** Nothing moves while the consumer is not ready and nothing is offered. *)
Lemma short_idle_step (st : system) (i : cycle_in) (m j : nat) :
  short_draining c h m j st →
  src_ack i = false → sink_stb (snk i) = false →
  short_draining c h m j (sys_step c ae junk st i) ∧
  is_read (i, sys_signals c ae junk st i) = false.
Proof.
  intros (pre & e & hr & Hitems & Hlen & Hfree & He & Hhi & Hact & Hec & Htc
          & Hjm & Hmh) Hack Hstb.
  destruct i as [s a]; cbn [snk src_ack] in *; subst a.
  split; [|unfold is_read; cbn [fst snd src_ack]; apply andb_false_r].
  rewrite sys_step_eq; cbn [snk src_ack].
  set (q := queue_signals c ae junk (sys_items st)).
  assert (do_read (comb c (sys_regs st) q s false) = false) as Hrd.
  { rewrite do_read_is_transfer. apply andb_false_r. }
  assert (do_write (comb c (sys_regs st) q s false) = false) as Hwr.
  { by rewrite do_write_is_transfer, Hstb. }
  destruct (sync_hi_eq (sys_regs st) q s false _ Hhi)
    as (_ & _ & _ & hr' & Hhi' & Htc' & Hec' & Hact').
  rewrite Hrd, Hwr, Hact in *. rewrite !andb_false_r in *.
  cbn [andb negb] in *.
  exists pre, e, hr'. cbn [sys_items sys_regs].
  repeat split; try done; congruence.
Qed.

(** One transfer of the packet. *)
Lemma short_read_step (st : system) (i : cycle_in) (m j : nat) :
  short_draining c h m j st →
  src_ack i = true → sink_stb (snk i) = false →
  is_read (i, sys_signals c ae junk st i) = true ∧
  source_last (sys_signals c ae junk st i) = Nat.eqb j 0 ∧
  source_eop (sys_signals c ae junk st i) = Nat.eqb j 0 ∧
  match j with
  | O => draining c h 0 (sys_step c ae junk st i)
  | S j' => short_draining c h m j' (sys_step c ae junk st i)
  end.
Proof.
  intros (pre & e & hr & Hitems & Hlen & Hfree & He & Hhi & Hact & Hec & Htc
          & Hjm & Hmh) Hack Hstb.
  destruct i as [s a]; cbn [snk src_ack] in *; subst a.
  unfold is_read, sys_signals; cbn [fst snd snk src_ack].
  rewrite sys_step_eq; cbn [snk src_ack].
  destruct st as [r items]; cbn [sys_regs sys_items] in *.
  set (q := queue_signals c ae junk items).
  assert (readable q = true) as Hrdb.
  { unfold q, queue_signals. cbn [readable]. rewrite Hitems, length_app.
    cbn [length]. apply Z.ltb_lt. lia. }
  assert (dout q = hd junk items) as Hdout by done.
  destruct (sync_hi_eq r q s true _ Hhi)
    as (Hstb' & Hse & Hsl & hr' & Hhi' & Htc' & Hec' & Hact').
  rewrite Hrdb, Hact, orb_true_r in Hstb'. cbn [andb] in Hstb'.
  assert (do_read (comb c r q s true) = true) as Hrd.
  { by rewrite do_read_is_transfer, Hstb'. }
  assert (do_write (comb c r q s true) = false) as Hwr.
  { by rewrite do_write_is_transfer, Hstb. }
  rewrite Hstb', Hrd, Hwr, Hact, Hdout in *. rewrite !andb_false_r in *.
  cbn [andb negb] in *.
  split; [done|].
  destruct j as [|j'].
  - (* the word with [eop] *)
    destruct pre; [|done]. cbn [app] in Hitems. subst items.
    cbn [hd tl] in *. rewrite He in *. rewrite orb_true_r in *.
    cbn [andb negb] in *. rewrite Hsl, Hse.
    split; [done|]. split; [done|].
    unfold draining. cbn [sys_items sys_regs length].
    split; [done|]. split; [constructor|]. split; [lia|].
    exists hr'. split; [done|]. done.
  - (* an earlier word *)
    destruct pre as [|x pre]; [done|]. cbn [app] in Hitems. subst items.
    cbn [hd tl] in *. apply Forall_cons in Hfree as [Hx Hfree].
    rewrite Hx in *. cbn [andb orb] in *.
    assert ((transfer_count hr =? 0) = false) as Hnz by lia.
    rewrite Hnz in *. cbn [orb] in *. rewrite Hsl, Hse.
    split; [done|]. split; [done|].
    rewrite wrap_small in Htc' by lia.
    rewrite Hsl in Hact', Htc'.
    exists pre, e, hr'. cbn [sys_items sys_regs].
    injection Hlen as Hlen.
    repeat split; try done; lia.
Qed.

(** After the packet nothing is read. *)
Lemma drained_run (ds : list cycle_in) (st : system) :
  1 ≤ h →
  draining c h 0 st →
  Forall (λ i, src_ack i = true ∧ sink_stb (snk i) = false) ds →
  read_flags (fst (run c ae junk st ds)) = [].
Proof.
  intros Hh. revert st. induction ds as [|i ds IH]; intros st Hst Hall;
    [done|].
  apply Forall_cons in Hall as [[Hack Hstb] Hall].
  destruct (drain_step c h ae junk hi_wm_set Hh st i 0 Hst Hack Hstb)
    as (Hst' & Hrd & _).
  specialize (IH _ Hst' Hall).
  cbn [run]. destruct (run c ae junk (sys_step c ae junk st i) ds)
    as [tr st'].
  cbn [fst snd] in *. unfold read_flags in *. cbn [List.filter].
  by rewrite Hrd.
Qed.

Lemma short_idle_run (ds : list cycle_in) (st : system) (m j : nat) :
  short_draining c h m j st →
  Forall (λ i, src_ack i = false ∧ sink_stb (snk i) = false) ds →
  short_draining c h m j (snd (run c ae junk st ds)) ∧
  read_flags (fst (run c ae junk st ds)) = [].
Proof.
  revert st. induction ds as [|i ds IH]; intros st Hst Hall; [done|].
  apply Forall_cons in Hall as [[Hack Hstb] Hall].
  destruct (short_idle_step st i m j Hst Hack Hstb) as [Hst' Hrd].
  specialize (IH _ Hst' Hall).
  cbn [run]. destruct (run c ae junk (sys_step c ae junk st i) ds)
    as [tr st'].
  cbn [fst snd] in *. unfold read_flags in *. cbn [List.filter].
  by rewrite Hrd.
Qed.

Lemma short_drain_run (ds : list cycle_in) (st : system) (m j : nat) :
  short_draining c h m j st →
  Forall (λ i, src_ack i = true ∧ sink_stb (snk i) = false) ds →
  read_flags (fst (run c ae junk st ds))
  = take (length ds) (replicate j (false, false) ++ [(true, true)]).
Proof.
  revert st j. induction ds as [|i ds IH]; intros st j Hst Hall; [done|].
  apply Forall_cons in Hall as [[Hack Hstb] Hall].
  assert (1 ≤ h) as Hh.
  { destruct Hst as (_ & _ & _ & _ & _ & _ & _ & _ & _ & _ & _ & _ & ?).
    lia. }
  destruct (short_read_step st i m j Hst Hack Hstb)
    as (Hrd & Hlast & Heop & Hnext).
  cbn [run].
  destruct j as [|j'].
  - pose proof (drained_run ds _ Hh Hnext Hall) as Hrest.
    destruct (run c ae junk (sys_step c ae junk st i) ds) as [tr st'].
    cbn [fst snd] in *. unfold read_flags in *. cbn [List.filter].
    rewrite Hrd. cbn [List.map snd]. rewrite Hrest, Hlast, Heop.
    cbn. by rewrite take_nil.
  - specialize (IH _ _ Hnext Hall).
    destruct (run c ae junk (sys_step c ae junk st i) ds) as [tr st'].
    cbn [fst snd] in *. unfold read_flags in *. cbn [List.filter].
    rewrite Hrd. cbn [List.map snd]. rewrite IH, Hlast, Heop. done.
Qed.

End FifoShortBurst.

Section FifoShortBurstClaim.
Import Migen Fifo.

(** With a high watermark [h], a packet of [m+1 <= h] words whose last word
    carries [eop], written from reset while the consumer is not ready, is
    delivered as one burst of [m+1] transfers once [source.ack] is held
    high, however long the producer idles in between: [source.last] and
    [source.eop] are set together on the last transfer and on no earlier
    one, although the watermark was never reached. *)
Theorem fifo_hi_wm_short_packet (c : config) (h : Z) (ae : Z → bool)
    (junk : Z) (fill idles drain : list cycle_in) (w : cycle_in) (m : nat) :
  hi_wm c = Some h → 0 ≤ payload_bits c → Z.of_nat m + 1 ≤ h →
  Forall (λ i, src_ack i = false ∧
               (sink_stb (snk i) = true → sink_eop (snk i) = false)) fill →
  writes (fst (run c ae junk (sys_reset c) fill)) = m →
  src_ack w = false → sink_stb (snk w) = true → sink_eop (snk w) = true →
  is_write (w, sys_signals c ae junk
                  (snd (run c ae junk (sys_reset c) fill)) w) = true →
  Forall (λ i, src_ack i = false ∧ sink_stb (snk i) = false) idles →
  Forall (λ i, src_ack i = true ∧ sink_stb (snk i) = false) drain →
  (m + 1 ≤ length drain)%nat →
  read_flags
    (fst (run c ae junk
            (snd (run c ae junk
                    (sys_step c ae junk
                       (snd (run c ae junk (sys_reset c) fill)) w)
                    idles))
            drain))
  = replicate m (false, false) ++ [(true, true)].
Proof.
  intros Hh Hpw Hm Hfill Hwrites Hack Hstb Heop Hwr Hidle Hdrain Hlen.
  assert (filling c h (sys_reset c)) as Hst0.
  { split; [constructor|]. exists false. unfold sys_reset, reset; simpl.
    by rewrite Hh. }
  destruct (fill_run c h ae junk Hh Hpw fill _ Hst0 Hfill)
    as (_ & Hst1 & Hlevel).
  rewrite Hwrites in Hlevel. cbn [sys_reset sys_items length] in Hlevel.
  pose proof (eop_write_step c h ae junk Hh Hpw _ w Hst1 Hack Hstb Heop Hwr)
    as Hst2.
  rewrite Hlevel in Hst2. cbn [Nat.add] in Hst2.
  specialize (Hst2 Hm).
  destruct (short_idle_run c h ae junk Hh idles _ m m Hst2 Hidle)
    as [Hst3 _].
  rewrite (short_drain_run c h ae junk Hh drain _ m m Hst3 Hdrain).
  apply take_ge. rewrite length_app, length_replicate. simpl. lia.
Qed.

Lemma fifo_hi_wm_short_packet_witness :
  let c := {| depth := 8; hi_wm := Some 4; lo_wm := None;
              payload_bits := 8 |} in
  let ae := λ _ : Z, false in
  read_flags
    (fst (run c ae 0
            (snd (run c ae 0
                    (sys_step c ae 0
                       (snd (run c ae 0 (sys_reset c)
                               [write_cycle 0x11 false; idle_cycle;
                                write_cycle 0x22 false]))
                       (write_cycle 0x33 true))
                    [idle_cycle; idle_cycle]))
            [read_cycle; read_cycle; read_cycle; read_cycle]))
  = [(false, false); (false, false); (true, true)].
Proof.
  intros c ae.
  apply (fifo_hi_wm_short_packet c 4 ae 0
           [write_cycle 0x11 false; idle_cycle; write_cycle 0x22 false]
           [idle_cycle; idle_cycle]
           [read_cycle; read_cycle; read_cycle; read_cycle]
           (write_cycle 0x33 true) 2).
  - reflexivity.
  - simpl. lia.
  - lia.
  - repeat constructor; simpl; intros; congruence.
  - vm_compute. reflexivity.
  - reflexivity.
  - reflexivity.
  - reflexivity.
  - vm_compute. reflexivity.
  - repeat constructor.
  - repeat constructor.
  - simpl. lia.
Defined.

End FifoShortBurstClaim.

(** ** Multiplexer and demultiplexer *)

Section MuxProps.
Import Mux.
Context {payload : Type}.
Variable payload_reset : payload.

Lemma mux_cases_acks_length (sinks : list (forward payload)) (i : nat)
    (sel : Z) (a : bool) (o : mux_out payload) :
  length (m_sink_acks (mux_cases i sinks sel a o)) = length (m_sink_acks o).
Proof.
  revert i o. induction sinks as [|s sinks IH]; intros i o; [done|].
  cbn [mux_cases]. rewrite IH. destruct (Z.of_nat i =? sel); [|done].
  apply length_insert.
Qed.

(** The cases from index [i] on: only the one whose key is [sel] acts. *)
Lemma mux_cases_spec (sinks : list (forward payload)) (i : nat) (sel : Z)
    (a : bool) (o : mux_out payload) :
  mux_cases i sinks sel a o
  = if (Z.of_nat i <=? sel) && (sel <? Z.of_nat (i + length sinks))
    then match sinks !! (Z.to_nat sel - i)%nat with
         | Some s => mux_case (Z.to_nat sel) s a o
         | None => o
         end
    else o.
Proof.
  revert i o. induction sinks as [|x sinks IH]; intros i o.
  { cbn [mux_cases length].
    destruct (Z.leb_spec (Z.of_nat i) sel),
      (Z.ltb_spec sel (Z.of_nat (i + 0))); try done; lia. }
  cbn [mux_cases length]. rewrite IH. clear IH.
  destruct (Z.eqb_spec (Z.of_nat i) sel) as [Heq|Hne],
    (Z.leb_spec (Z.of_nat (S i)) sel),
    (Z.ltb_spec sel (Z.of_nat (S i + length sinks))),
    (Z.leb_spec (Z.of_nat i) sel),
    (Z.ltb_spec sel (Z.of_nat (i + S (length sinks)))); try lia;
    cbn [andb]; try done.
  - subst sel. by rewrite Nat2Z.id, Nat.sub_diag.
  - by replace (Z.to_nat sel - i)%nat with (S (Z.to_nat sel - S i)) by lia.
Qed.

Lemma demux_cases_spec (acks : list bool) (sink : forward payload) (i : nat)
    (sel : Z) (o : demux_out payload) :
  demux_cases i acks sink sel o
  = if (Z.of_nat i <=? sel) && (sel <? Z.of_nat (i + length acks))
    then match acks !! (Z.to_nat sel - i)%nat with
         | Some a => demux_case (Z.to_nat sel) sink a o
         | None => o
         end
    else o.
Proof.
  revert i o. induction acks as [|x acks IH]; intros i o.
  { cbn [demux_cases length].
    destruct (Z.leb_spec (Z.of_nat i) sel),
      (Z.ltb_spec sel (Z.of_nat (i + 0))); try done; lia. }
  cbn [demux_cases length]. rewrite IH. clear IH.
  destruct (Z.eqb_spec (Z.of_nat i) sel) as [Heq|Hne],
    (Z.leb_spec (Z.of_nat (S i)) sel),
    (Z.ltb_spec sel (Z.of_nat (S i + length acks))),
    (Z.leb_spec (Z.of_nat i) sel),
    (Z.ltb_spec sel (Z.of_nat (i + S (length acks)))); try lia;
    cbn [andb]; try done.
  - subst sel. by rewrite Nat2Z.id, Nat.sub_diag.
  - by replace (Z.to_nat sel - i)%nat with (S (Z.to_nat sel - S i)) by lia.
Qed.

(** With [sel = i] among the [n] sinks, the multiplexer's source shows the
    signals of sink [i], sink [i] sees the source's [ack], and every other
    sink sees its [ack] low. *)
Theorem Multiplexer_selected (sinks : list (forward payload)) (i : nat)
    (s : forward payload) (a : bool) :
  sinks !! i = Some s →
  Multiplexer payload_reset sinks (Z.of_nat i) a
  = {| m_source := s;
       m_sink_acks := <[i := a]> (replicate (length sinks) false) |}.
Proof.
  intros Hs. unfold Multiplexer. rewrite mux_cases_spec.
  pose proof (lookup_lt_Some _ _ _ Hs) as Hlt.
  destruct (Z.leb_spec (Z.of_nat 0) (Z.of_nat i)),
    (Z.ltb_spec (Z.of_nat i) (Z.of_nat (0 + length sinks))); try lia.
  cbn [andb]. rewrite Nat2Z.id, Nat.sub_0_r, Hs. done.
Qed.

(** With [sel = i] among the [n] sources, source [i] of the demultiplexer
    shows the sink's signals, every other source shows nothing valid, and
    the sink sees the [ack] of source [i]. *)
Theorem Demultiplexer_selected (sink : forward payload) (acks : list bool)
    (i : nat) (a : bool) :
  acks !! i = Some a →
  Demultiplexer payload_reset sink acks (Z.of_nat i)
  = {| d_sources :=
         <[i := sink]> (replicate (length acks) (undriven payload_reset));
       d_sink_ack := a |}.
Proof.
  intros Ha. unfold Demultiplexer. rewrite demux_cases_spec.
  pose proof (lookup_lt_Some _ _ _ Ha) as Hlt.
  destruct (Z.leb_spec (Z.of_nat 0) (Z.of_nat i)),
    (Z.ltb_spec (Z.of_nat i) (Z.of_nat (0 + length acks))); try lia.
  cbn [andb]. rewrite Nat2Z.id, Nat.sub_0_r, Ha. done.
Qed.

(** A selector outside [0, n), which the selector's width allows when [n]
    is not a power of two, selects nothing: the multiplexer's source and all
    the demultiplexer's sources show [stb] low, and no sink is
    acknowledged. *)
Theorem selector_out_of_range (sinks : list (forward payload))
    (sink : forward payload) (acks : list bool) (sel : Z) (a : bool) :
  (sel < 0 ∨ Z.of_nat (length sinks) ≤ sel) →
  (sel < 0 ∨ Z.of_nat (length acks) ≤ sel) →
  Multiplexer payload_reset sinks sel a
  = {| m_source := undriven payload_reset;
       m_sink_acks := replicate (length sinks) false |} ∧
  Demultiplexer payload_reset sink acks sel
  = {| d_sources := replicate (length acks) (undriven payload_reset);
       d_sink_ack := false |}.
Proof.
  intros Hm Hd. unfold Multiplexer, Demultiplexer.
  rewrite mux_cases_spec, demux_cases_spec.
  destruct (Z.leb_spec (Z.of_nat 0) sel),
    (Z.ltb_spec sel (Z.of_nat (0 + length sinks))),
    (Z.ltb_spec sel (Z.of_nat (0 + length acks))); try lia; done.
Qed.

(** A multiplexer feeding a demultiplexer connects sink [i] to source [j]
    when the selectors are [i] and [j]: source [j] shows the signals of
    sink [i], sink [i] sees the [ack] of source [j], every other source
    shows nothing valid and every other sink is stalled. *)
Theorem mux_demux_connects (sinks : list (forward payload))
    (acks : list bool) (i j : nat) (s : forward payload) (a : bool) :
  sinks !! i = Some s → acks !! j = Some a →
  mux_demux payload_reset sinks acks (Z.of_nat i) (Z.of_nat j)
  = (<[j := s]> (replicate (length acks) (undriven payload_reset)),
     <[i := a]> (replicate (length sinks) false)).
Proof.
  intros Hs Ha. unfold mux_demux, Multiplexer, Demultiplexer.
  rewrite mux_cases_spec, !demux_cases_spec.
  pose proof (lookup_lt_Some _ _ _ Hs) as Hi.
  pose proof (lookup_lt_Some _ _ _ Ha) as Hj.
  destruct (Z.leb_spec (Z.of_nat 0) (Z.of_nat i)),
    (Z.ltb_spec (Z.of_nat i) (Z.of_nat (0 + length sinks))),
    (Z.leb_spec (Z.of_nat 0) (Z.of_nat j)),
    (Z.ltb_spec (Z.of_nat j) (Z.of_nat (0 + length acks))); try lia.
  cbn [andb]. rewrite !Nat2Z.id, !Nat.sub_0_r, Hs, Ha. done.
Qed.

End MuxProps.

Lemma Multiplexer_selected_witness :
  let s0 := {| Mux.stb := true; Mux.last := false; Mux.eop := false;
               Mux.data := 5 |} in
  let s1 := {| Mux.stb := true; Mux.last := true; Mux.eop := true;
               Mux.data := 7 |} in
  let s2 := {| Mux.stb := false; Mux.last := false; Mux.eop := false;
               Mux.data := 9 |} in
  Mux.Multiplexer 0 [s0; s1; s2] 1 true
  = {| Mux.m_source := s1; Mux.m_sink_acks := [false; true; false] |}.
Proof.
  intros s0 s1 s2.
  apply (Multiplexer_selected 0 [s0; s1; s2] 1 s1 true). reflexivity.
Defined.

Lemma Demultiplexer_selected_witness :
  let s := {| Mux.stb := true; Mux.last := true; Mux.eop := false;
              Mux.data := 5 |} in
  Mux.Demultiplexer 0 s [true; false; true] 2
  = {| Mux.d_sources := [Mux.undriven 0; Mux.undriven 0; s];
       Mux.d_sink_ack := true |}.
Proof.
  intros s.
  apply (Demultiplexer_selected 0 s [true; false; true] 2 true). reflexivity.
Defined.

Lemma selector_out_of_range_witness :
  let s := {| Mux.stb := true; Mux.last := true; Mux.eop := false;
              Mux.data := 5 |} in
  Mux.Multiplexer 0 [s; s; s] 3 true
  = {| Mux.m_source := Mux.undriven 0;
       Mux.m_sink_acks := [false; false; false] |} ∧
  Mux.Demultiplexer 0 s [true; true; true] 3
  = {| Mux.d_sources := [Mux.undriven 0; Mux.undriven 0; Mux.undriven 0];
       Mux.d_sink_ack := false |}.
Proof.
  intros s.
  apply (selector_out_of_range 0 [s; s; s] s [true; true; true] 3 true);
    right; simpl; lia.
Defined.

Lemma mux_demux_connects_witness :
  let s0 := {| Mux.stb := true; Mux.last := false; Mux.eop := false;
               Mux.data := 5 |} in
  let s1 := {| Mux.stb := true; Mux.last := true; Mux.eop := true;
               Mux.data := 7 |} in
  Mux.mux_demux 0 [s0; s1] [false; false; true] 1 2
  = ([Mux.undriven 0; Mux.undriven 0; s1], [false; true]).
Proof.
  intros s0 s1.
  apply (mux_demux_connects 0 [s0; s1] [false; false; true] 1 2 s1 true);
    reflexivity.
Defined.

(** ** The up-converter: collecting a group *)

Section UpCollect.
Import Migen Conv.

Variables n r : Z.
Variables rev rep : bool.
Hypothesis width_nonneg : 0 ≤ n.
Hypothesis ratio_ge_2 : 2 ≤ r.

Local Abbreviation cu := (up_config n r rev rep).
Local Abbreviation cd := (down_config n r rev false).

#[local] Arguments wrap : simpl never.
#[local] Arguments bits_for : simpl never.
#[local] Arguments set_slice : simpl never.
#[local] Arguments sub_word : simpl never.
#[local] Arguments Z.mul : simpl never.
#[local] Arguments Z.add : simpl never.
#[local] Arguments Z.sub : simpl never.
#[local] Arguments Z.of_nat : simpl never.
#[local] Arguments Z.pow : simpl never.
#[local] Arguments Z.eqb : simpl never.
#[local] Arguments Z.leb : simpl never.
#[local] Arguments Z.ltb : simpl never.

Lemma collecting_reset : collecting n r cd rep (up_reset cu) [].
Proof.
  unfold collecting, up_reset. cbn. repeat split; try done; try lia.
  by destruct rep.
Qed.

(** A cycle without output transfer while a group is collected. *)
Lemma collecting_step (st : up_regs) (got : list (Z * bool)) (i : inputs) :
  collecting n r cd rep st got →
  (sink_stb i = true → 0 ≤ sink_data i < 2 ^ n) →
  up_is_out (i, st, up_comb cu st i) = false ∧
  up_is_in (i, st, up_comb cu st i) = sink_stb i ∧
  if sink_stb i
  then collecting n r cd rep (up_sync cu st i)
                  (got ++ [(sink_data i, sink_eop i)]) ∨
       flushed n r cd rep (up_sync cu st i)
               (got ++ [(sink_data i, sink_eop i)])
  else collecting n r cd rep (up_sync cu st i) got.
Proof.
  intros (Hs & Hq & Hlt & Hnoeop & Hdata & Hvtc & He) Hbnd.
  destruct st as [q s e data vtc]. cbn in Hs, Hq, Hdata, Hvtc, He.
  subst s q e.
  unfold up_is_out, up_is_in, up_comb. cbn.
  split; [done|]. split; [by rewrite andb_true_r|].
  destruct (sink_stb i) eqn:Hstb.
  - specialize (Hbnd eq_refl).
    assert (∀ (k : nat) (y : Z),
              (fst <$> got ++ [(sink_data i, sink_eop i)]) !! k = Some y →
              sub_word cd
                (up_store cu {| demux := Z.of_nat (length got);
                                strobe_all := false; up_source_eop := false;
                                up_source_data := data;
                                up_valid_token_count := vtc |} i)
                (Z.of_nat k) = y) as Hdata'.
    { intros k y Hk. unfold up_store. cbn.
      replace ((0 <=? Z.of_nat (length got))
               && (Z.of_nat (length got) <? r)) with true by lia.
      rewrite fmap_app in Hk. cbn in Hk.
      rewrite <- (length_fmap fst got).
      apply (store_word n r rev rep false width_nonneg ratio_ge_2
               (fst <$> got) data (sink_data i)); try done.
      rewrite length_fmap. lia. }
    unfold collecting, flushed, up_sync, up_comb. cbn. rewrite !Hstb. cbn.
    destruct (Z.eqb_spec (Z.of_nat (length got)) (r - 1)) as [Hfull|Hpart];
      cbn.
    + (* the group is full *)
      right. rewrite length_app. cbn [length].
      split; [done|]. split; [done|]. split; [lia|]. split; [done|].
      split; [|split; [|split]].
      * destruct vtc as [v|]; [|by rewrite Hvtc].
        destruct Hvtc as [Hrep Hv]. rewrite Hrep.
        rewrite wrap_small by lia. f_equal. lia.
      * intros k w Hk Hw.
        destruct (decide (k < length got)%nat) as [Hin|Hout].
        { rewrite lookup_app_l in Hk by done.
          rewrite Forall_forall in Hnoeop.
          apply list_elem_of_lookup_2, Hnoeop in Hk.
          congruence. }
        assert (k = length got) as ->.
        { apply lookup_lt_Some in Hk. rewrite length_app in Hk.
          cbn in Hk. lia. }
        rewrite list_lookup_middle in Hk by done. injection Hk as <-.
        cbn in Hw. rewrite Hw. split; [lia|done].
      * lia.
      * rewrite orb_false_r, List.map_app. cbn [List.map snd].
        by rewrite List.last_last.
    + destruct (sink_eop i) eqn:Heop; cbn.
      * (* the group is flushed by [eop] *)
        right. rewrite length_app. cbn [length].
        split; [done|]. split; [done|]. split; [lia|]. split; [done|].
        split; [|split; [|split]].
        -- destruct vtc as [v|]; [|by rewrite Hvtc].
           destruct Hvtc as [Hrep Hv]. rewrite Hrep.
           rewrite wrap_small by lia. f_equal. lia.
        -- intros k w Hk Hw.
           destruct (decide (k < length got)%nat) as [Hin|Hout].
           { rewrite lookup_app_l in Hk by done.
             rewrite Forall_forall in Hnoeop.
             apply list_elem_of_lookup_2, Hnoeop in Hk.
             congruence. }
           assert (k = length got) as ->.
           { apply lookup_lt_Some in Hk. rewrite length_app in Hk.
             cbn in Hk. lia. }
           split; [lia|done].
        -- done.
        -- rewrite List.map_app. cbn [List.map snd].
           by rewrite List.last_last.
      * (* one more word of the group *)
        left. rewrite length_app. cbn [length].
        rewrite wrap_small by lia.
        assert ((if source_ack i then false else false) = false) as ->
          by (by destruct (source_ack i)).
        split; [done|]. split; [lia|]. split; [lia|]. split; [|split].
        -- apply Forall_app. split; [done|]. by constructor.
        -- done.
        -- destruct vtc as [v|]; [|done]. destruct Hvtc as [Hrep Hv].
           split; [|done]. split; [done|]. intros _.
           rewrite wrap_small by lia. lia.
  - unfold collecting, up_sync, up_comb. cbn. rewrite Hstb. cbn.
    assert ((if source_ack i then false else false) = false) as ->
      by (by destruct (source_ack i)).
    repeat split; try done.
    destruct vtc as [v|]; done.
Qed.

(** A cycle without output transfer while the output word waits. *)
Lemma flushed_step (st : up_regs) (ws : list (Z * bool)) (i : inputs) :
  flushed n r cd rep st ws →
  up_is_out (i, st, up_comb cu st i) = false →
  up_is_in (i, st, up_comb cu st i) = false ∧
  flushed n r cd rep (up_sync cu st i) ws.
Proof.
  intros (Hs & Hq & Hlen & Hdata & Hvtc & Heop & Hshort & He).
  destruct st as [q s e data vtc].
  cbn in Hs, Hq, Hdata, Hvtc, Heop, Hshort, He.
  subst s q. unfold up_is_out, up_is_in, up_comb. cbn. intros Hack.
  rewrite Hack, andb_false_r. split; [done|].
  unfold flushed, up_sync, up_comb. cbn. rewrite !Hack, !andb_false_r. cbn.
  repeat split; try done; try lia.
  - rewrite Hvtc. by destruct rep.
  - by apply (Heop i0 w).
  - by apply (Heop i0 w).
Qed.

Lemma collect_run (ins : list inputs) (st : up_regs)
    (got : list (Z * bool)) :
  collecting n r cd rep st got ∨ flushed n r cd rep st got →
  List.filter up_is_out (up_run cu st ins) = [] →
  Forall (λ w, 0 ≤ fst w < 2 ^ n) (up_in_words (up_run cu st ins)) →
  collecting n r cd rep (up_final cu st ins)
             (got ++ up_in_words (up_run cu st ins)) ∨
  flushed n r cd rep (up_final cu st ins)
          (got ++ up_in_words (up_run cu st ins)).
Proof.
  revert st got. induction ins as [|i ins IH]; intros st got Hst Hout Hbnd.
  { cbn. by rewrite app_nil_r. }
  cbn [up_run up_final] in *. unfold up_in_words in *.
  cbn [List.filter] in *.
  destruct Hst as [Hst|Hst].
  - destruct (collecting_step st got i Hst) as (Ho & Hi & Hnext).
    { intros Hstb.
      assert (up_is_in (i, st, up_comb cu st i) = true) as Hin.
      { destruct Hst as (Hs & _). unfold up_is_in, up_comb. cbn.
        by rewrite Hstb, Hs. }
      rewrite Hin in Hbnd. cbn [List.map fst snd] in Hbnd.
      by inversion Hbnd. }
    rewrite Ho in Hout. rewrite Hi in *.
    destruct (sink_stb i); cbn [List.map fst snd] in *.
    + rewrite (cons_middle _ got), app_assoc.
      apply IH; [done|done|]. by inversion Hbnd.
    + by apply IH; [left| |].
  - destruct (up_is_out (i, st, up_comb cu st i)) eqn:Ho; [done|].
    destruct (flushed_step st got i Hst Ho) as (Hi & Hnext).
    rewrite Hi in *. by apply IH; [right| |].
Qed.

End UpCollect.

Section UpCollectClaim.
Import Migen Conv.

(** From reset and as long as no output word is taken, the up-converter of
    ratio [r >= 2] takes at most [r] words; word number [i] sits in slot
    [i] of [source.data] (slot [r-1-i] when reversed); a word with [eop] is
    the last one taken; the output word is presented ([strobe_all], which
    drives [source.stb]) exactly when [r] words were taken or the last one
    carried [eop]; [source.eop] is the [eop] of the last word taken; and
    [valid_token_count], when reported, is the number of words taken. *)
Theorem up_converter_collects_group (n r : Z) (rev rep : bool)
    (ins : list inputs) :
  0 ≤ n → 2 ≤ r →
  List.filter up_is_out
    (up_run (up_config n r rev rep) (up_reset (up_config n r rev rep)) ins)
  = [] →
  Forall (λ w, 0 ≤ fst w < 2 ^ n)
    (up_in_words
       (up_run (up_config n r rev rep) (up_reset (up_config n r rev rep))
          ins)) →
  let ws :=
    up_in_words
      (up_run (up_config n r rev rep) (up_reset (up_config n r rev rep))
         ins) in
  let st :=
    up_final (up_config n r rev rep) (up_reset (up_config n r rev rep)) ins in
  Z.of_nat (length ws) ≤ r ∧
  (∀ (i : nat) (w : Z * bool),
     ws !! i = Some w →
     sub_word (down_config n r rev false) (up_source_data st) (Z.of_nat i)
     = fst w) ∧
  (∀ (i : nat) (w : Z * bool),
     ws !! i = Some w → snd w = true → S i = length ws) ∧
  (strobe_all st = true ↔
   Z.of_nat (length ws) = r ∨ List.last (List.map snd ws) false = true) ∧
  up_source_eop st = List.last (List.map snd ws) false ∧
  (rep = true → ws ≠ [] →
   up_valid_token_count st = Some (Z.of_nat (length ws))).
Proof.
  intros Hn Hr Hout Hbnd. cbv zeta.
  pose proof (collect_run n r rev rep Hn Hr ins _ []
                (or_introl (collecting_reset n r rev rep Hr)) Hout Hbnd)
    as Hrun.
  cbn [app] in Hrun. clear Hout Hbnd.
  set (ws := up_in_words _) in *. set (st := up_final _ _ _) in *.
  clearbody ws st. destruct Hrun as [Hc|Hf].
  - destruct Hc as (Hs & Hq & Hlt & Hnoeop & Hdata & Hvtc & He).
    assert (List.last (List.map snd ws) false = false) as Hlast.
    { clear -Hnoeop. induction Hnoeop as [|w l Hw Hl IH]; [done|].
      destruct l as [|w' l]; [done|]. exact IH. }
    split; [lia|]. split; [|split; [|split; [|split]]].
    + intros i w Hi. apply Hdata. by rewrite list_lookup_fmap, Hi.
    + intros i w Hi Hw. rewrite Forall_forall in Hnoeop.
      apply list_elem_of_lookup_2, Hnoeop in Hi. congruence.
    + rewrite Hs, Hlast. split; [done|]. intros [?|?]; [lia|done].
    + by rewrite He, Hlast.
    + intros Hrep Hws. destruct (up_valid_token_count st) as [v|].
      * destruct Hvtc as [_ Hv]. by rewrite Hv.
      * congruence.
  - destruct Hf as (Hs & Hq & Hlen & Hdata & Hvtc & Heop & Hshort & He).
    split; [lia|]. split; [|split; [|split; [|split]]].
    + intros i w Hi. apply Hdata. by rewrite list_lookup_fmap, Hi.
    + intros i w Hi Hw. by destruct (Heop i w Hi Hw).
    + rewrite Hs, <- He. split; [|done]. intros _.
      destruct (Z.eq_dec (Z.of_nat (length ws)) r) as [?|?]; [by left|].
      right. apply Hshort. lia.
    + done.
    + intros Hrep _. by rewrite Hvtc, Hrep.
Qed.

Lemma up_converter_collects_group_witness :
  let cu := up_config 4 3 false true in
  let ins := [ {| sink_stb := true; sink_eop := false; sink_last := false;
                  sink_data := 5; source_ack := false |};
               {| sink_stb := false; sink_eop := false; sink_last := false;
                  sink_data := 0; source_ack := false |};
               {| sink_stb := true; sink_eop := true; sink_last := false;
                  sink_data := 9; source_ack := false |};
               {| sink_stb := true; sink_eop := false; sink_last := false;
                  sink_data := 3; source_ack := false |} ] in
  up_source_eop (up_final cu (up_reset cu) ins)
  = List.last (List.map snd (up_in_words (up_run cu (up_reset cu) ins)))
      false.
Proof.
  intros cu ins.
  refine (proj1 (proj2 (proj2 (proj2 (proj2
            (up_converter_collects_group 4 3 false true ins _ _ _ _)))))).
  - lia.
  - lia.
  - reflexivity.
  - vm_compute. repeat constructor; discriminate.
Defined.

End UpCollectClaim.

(** ** The FIFO wrapper: the output held back *)

Section FifoHold.
Import Migen Fifo.

Variable c : config.
Variable h : Z.
Variable ae : Z → bool.
Variable junk : Z.
Hypothesis hi_wm_set : hi_wm c = Some h.
Hypothesis payload_bits_nonneg : 0 ≤ payload_bits c.

#[local] Arguments sys_step : simpl never.
#[local] Arguments wrap : simpl never.
#[local] Arguments cat_bit : simpl never.
#[local] Arguments Z.sub : simpl never.
#[local] Arguments Z.add : simpl never.
#[local] Arguments Z.of_nat : simpl never.
#[local] Arguments Z.leb : simpl never.
#[local] Arguments Z.ltb : simpl never.
#[local] Arguments Z.eqb : simpl never.

Lemma hold_step (st : system) (i : cycle_in) :
  holding c h st →
  Z.of_nat (length (sys_items st)) < h →
  (sink_stb (snk i) = true → sink_eop (snk i) = false) →
  source_stb (sys_signals c ae junk st i) = false ∧
  holding c h (sys_step c ae junk st i) ∧
  length (sys_items (sys_step c ae junk st i))
  = (length (sys_items st)
     + if is_write (i, sys_signals c ae junk st i) then 1 else 0)%nat.
Proof.
  intros [Hfree Hhi] Hlevel Heop.
  unfold is_write, sys_signals; cbn [fst snd].
  rewrite <- do_write_is_transfer, sys_step_eq.
  unfold holding; cbn [sys_regs sys_items].
  set (q := queue_signals c ae junk (sys_items st)).
  assert (almost_full q = false) as Haf.
  { unfold q, queue_signals; cbn. rewrite hi_wm_set. lia. }
  clearbody q.
  assert (source_stb (comb c (sys_regs st) q (snk i) (src_ack i)) = false)
    as Hstb.
  { unfold comb; cbn. rewrite Hhi, Haf. cbn. apply andb_false_r. }
  assert (do_read (comb c (sys_regs st) q (snk i) (src_ack i)) = false)
    as Hrd.
  { revert Hstb. unfold comb; cbn. rewrite Hhi. cbn. by intros ->. }
  split; [done|]. rewrite Hrd.
  assert (sink_eop (snk i)
          && do_write (comb c (sys_regs st) q (snk i) (src_ack i)) = false)
    as Hdw.
  { rewrite do_write_is_transfer.
    destruct (sink_stb (snk i)); [by rewrite Heop|apply andb_false_r]. }
  assert (fifo_din (comb c (sys_regs st) q (snk i) (src_ack i))
          = cat_bit (payload_bits c) (sink_payload (snk i))
                    (sink_eop (snk i))) as Hdin by done.
  split; [split|].
  - destruct (do_write _) eqn:Hw; [|done].
    apply Forall_app. split; [done|]. constructor; [|done].
    rewrite Hdin, (stored_eop c payload_bits_nonneg).
    by rewrite andb_true_r in Hdw.
  - clear Hdin. revert Hrd Hdw. unfold sync, sync_hi, comb. cbn.
    rewrite hi_wm_set, Hhi. cbn. rewrite Haf. cbn.
    intros -> ->. cbn. by rewrite andb_false_r.
  - destruct (do_write _); [|lia]. rewrite length_app. cbn [length]. lia.
Qed.

Lemma hold_run (ins : list cycle_in) (st : system) :
  holding c h st →
  Forall (λ i, sink_stb (snk i) = true → sink_eop (snk i) = false) ins →
  Z.of_nat (length (sys_items st) + writes (fst (run c ae junk st ins))) < h →
  Forall (λ e, source_stb (snd e) = false) (fst (run c ae junk st ins)) ∧
  holding c h (snd (run c ae junk st ins)) ∧
  length (sys_items (snd (run c ae junk st ins)))
  = (length (sys_items st) + writes (fst (run c ae junk st ins)))%nat.
Proof.
  revert st. induction ins as [|i ins IH]; intros st Hst Hall Hlt.
  { cbn. unfold writes. cbn. split; [done|]. split; [done|lia]. }
  apply Forall_cons in Hall as [Heop Hall].
  revert Hlt. cbn [run].
  specialize (IH (sys_step c ae junk st i)).
  destruct (run c ae junk (sys_step c ae junk st i) ins) as [tr st'].
  cbn [fst snd] in *. unfold writes in *. cbn [List.filter].
  intros Hlt.
  destruct (hold_step st i Hst) as (Hstb & Hst' & Hlen); [|done|].
  { destruct (is_write _); cbn [length] in Hlt; lia. }
  rewrite Hlen in IH.
  destruct IH as (IH1 & IH2 & IH3); [done|done| |].
  { destruct (is_write _); cbn [length] in Hlt; lia. }
  split; [by constructor|]. split; [done|].
  rewrite IH3. destruct (is_write _); cbn [length]; lia.
Qed.

End FifoHold.

Section FifoHoldClaim.
Import Migen Fifo.

(** With a high watermark [h], as long as fewer than [h] words have been
    written and none of them carried [eop], [source.stb] stays low in every
    cycle, whatever the consumer does with [source.ack]: nothing leaves the
    queue, which then holds every word written. *)
Theorem fifo_hi_wm_holds_back (c : config) (h : Z) (ae : Z → bool)
    (junk : Z) (ins : list cycle_in) :
  hi_wm c = Some h → 0 ≤ payload_bits c →
  Forall (λ i, sink_stb (snk i) = true → sink_eop (snk i) = false) ins →
  Z.of_nat (writes (fst (run c ae junk (sys_reset c) ins))) < h →
  Forall (λ e, source_stb (snd e) = false)
         (fst (run c ae junk (sys_reset c) ins)) ∧
  List.filter is_read (fst (run c ae junk (sys_reset c) ins)) = [] ∧
  length (sys_items (snd (run c ae junk (sys_reset c) ins)))
  = writes (fst (run c ae junk (sys_reset c) ins)).
Proof.
  intros Hh Hpw Heop Hlt.
  assert (holding c h (sys_reset c)) as Hst0.
  { split; [constructor|]. unfold sys_reset, reset; cbn. by rewrite Hh. }
  destruct (hold_run c h ae junk Hh Hpw ins _ Hst0 Heop) as (Hstb & _ & Hlen);
    [done|].
  split; [done|]. split; [|done].
  clear -Hstb. induction Hstb as [|e tr He Htr IH]; [done|].
  cbn [List.filter]. unfold is_read at 1. by rewrite He.
Qed.

Lemma fifo_hi_wm_holds_back_witness :
  let c := {| depth := 8; hi_wm := Some 3; lo_wm := None;
              payload_bits := 8 |} in
  let ins := [ {| snk := {| sink_stb := true; sink_eop := false;
                            sink_last := false; sink_payload := 7 |};
                  src_ack := true |};
               read_cycle;
               {| snk := {| sink_stb := true; sink_eop := false;
                            sink_last := true; sink_payload := 9 |};
                  src_ack := true |};
               read_cycle; read_cycle ] in
  List.filter is_read (fst (run c (λ _, false) 0 (sys_reset c) ins)) = [].
Proof.
  intros c ins.
  refine (proj1 (proj2 (fifo_hi_wm_holds_back c 3 (λ _, false) 0 ins
                          _ _ _ _))).
  - reflexivity.
  - simpl. lia.
  - repeat constructor.
  - vm_compute. reflexivity.
Defined.

End FifoHoldClaim.

(** ** The FIFO wrapper: a burst written under a low watermark *)

Section FifoLoBurst.
Import Migen Fifo.

Variable c : config.
Variable l_wm : Z.
Variable ae : Z → bool.
Variable junk : Z.
Hypothesis lo_wm_set : lo_wm c = Some l_wm.

#[local] Arguments sys_step : simpl never.
#[local] Arguments wrap : simpl never.
#[local] Arguments cat_bit : simpl never.
#[local] Arguments Z.sub : simpl never.
#[local] Arguments Z.add : simpl never.
#[local] Arguments Z.of_nat : simpl never.
#[local] Arguments Z.leb : simpl never.
#[local] Arguments Z.ltb : simpl never.
#[local] Arguments Z.eqb : simpl never.

Lemma lo_burst_step (st : system) (i : cycle_in) (ra : bool) :
  lo (sys_regs st) = Some {| recv_activated := ra |} →
  ra = true ∨ ae (Z.of_nat (length (sys_items st))) = true →
  sink_stb (snk i) = true → sink_last (snk i) = false →
  sink_eop (snk i) = false → src_ack i = false →
  is_write (i, sys_signals c ae junk st i)
  = (Z.of_nat (length (sys_items st)) <? depth c) ∧
  lo (sys_regs (sys_step c ae junk st i))
  = Some {| recv_activated := true |} ∧
  length (sys_items (sys_step c ae junk st i))
  = (length (sys_items st)
     + if (Z.of_nat (length (sys_items st)) <? depth c)%Z
       then 1 else 0)%nat.
Proof.
  intros Hlo Hra Hstb Hlast Heop Hack.
  unfold is_write, sys_signals; cbn [fst snd].
  rewrite <- do_write_is_transfer, sys_step_eq.
  cbn [sys_regs sys_items].
  set (q := queue_signals c ae junk (sys_items st)).
  assert (writable q = (Z.of_nat (length (sys_items st)) <? depth c)) as Hw
    by done.
  assert (almost_empty q || ra = true) as Hopen.
  { destruct Hra as [->|Hae]; [apply orb_true_r|].
    unfold q, queue_signals; cbn. by rewrite lo_wm_set, Hae. }
  clearbody q.
  assert (do_read (comb c (sys_regs st) q (snk i) (src_ack i)) = false)
    as Hrd.
  { unfold comb; cbn. rewrite Hack.
    destruct (hi (sys_regs st)); by rewrite ?andb_false_r. }
  assert (do_write (comb c (sys_regs st) q (snk i) (src_ack i)) = writable q)
    as Hdw.
  { unfold comb; cbn. rewrite Hlo, Hstb. cbn. rewrite Hopen.
    by destruct (writable q). }
  rewrite Hrd, Hdw, <- Hw. split; [done|]. split.
  - revert Hdw. unfold sync, sync_lo, comb. cbn.
    rewrite Hlo, Hstb, Hlast, Heop. cbn. rewrite Hopen. cbn.
    rewrite !andb_false_r. cbn. destruct ra; [done|].
    rewrite orb_false_r in Hopen. by rewrite Hopen.
  - destruct (writable q); [|lia]. rewrite length_app. cbn [length]. lia.
Qed.

Lemma lo_burst_run (ins : list cycle_in) (st : system) (ra : bool) :
  lo (sys_regs st) = Some {| recv_activated := ra |} →
  ra = true ∨ ae (Z.of_nat (length (sys_items st))) = true →
  Z.of_nat (length (sys_items st)) ≤ depth c →
  Forall (λ i, sink_stb (snk i) = true ∧ sink_last (snk i) = false ∧
               sink_eop (snk i) = false ∧ src_ack i = false) ins →
  Z.of_nat (length (sys_items (snd (run c ae junk st ins))))
  = Z.min (Z.of_nat (length (sys_items st)) + Z.of_nat (length ins))
          (depth c) ∧
  (length (sys_items (snd (run c ae junk st ins)))
   = length (sys_items st) + writes (fst (run c ae junk st ins)))%nat.
Proof.
  revert st ra. induction ins as [|i ins IH]; intros st ra Hlo Hra Hle Hall.
  { cbn. unfold writes. cbn. split; lia. }
  apply Forall_cons in Hall as [(Hstb & Hlast & Heop & Hack) Hall].
  destruct (lo_burst_step st i ra Hlo Hra Hstb Hlast Heop Hack)
    as (Hw & Hlo' & Hlen).
  cbn [run].
  specialize (IH (sys_step c ae junk st i) true Hlo' (or_introl eq_refl)).
  destruct (run c ae junk (sys_step c ae junk st i) ins) as [tr st'].
  cbn [fst snd] in *. unfold writes in *. cbn [List.filter].
  rewrite Hw. rewrite Hlen in IH.
  destruct (Z.ltb_spec (Z.of_nat (length (sys_items st))) (depth c))
    as [Hroom|Hfull].
  - destruct IH as [IH1 IH2]; [lia|done|].
    rewrite IH1, IH2. cbn [length]. split; lia.
  - destruct IH as [IH1 IH2]; [lia|done|].
    rewrite IH1, IH2. cbn [length]. split; lia.
Qed.

End FifoLoBurst.

Section FifoLoBurstClaim.
Import Migen Fifo.

(** With a low watermark, a burst offered from reset on a queue that reports
    near-empty when empty is taken word after word until the queue is full,
    whatever the near-empty flag shows once the first word is in: with the
    producer offering a word without [last] or [eop] in every cycle and the
    consumer not ready, the number of words written is the smaller of the
    number of cycles and [depth]. *)
Theorem fifo_lo_wm_burst_runs_on (c : config) (l_wm : Z) (ae : Z → bool)
    (junk : Z) (ins : list cycle_in) :
  lo_wm c = Some l_wm → 0 ≤ depth c → ae 0 = true →
  Forall (λ i, sink_stb (snk i) = true ∧ sink_last (snk i) = false ∧
               sink_eop (snk i) = false ∧ src_ack i = false) ins →
  Z.of_nat (writes (fst (run c ae junk (sys_reset c) ins)))
  = Z.min (Z.of_nat (length ins)) (depth c).
Proof.
  intros Hl Hd Hae Hall.
  destruct (lo_burst_run c l_wm ae junk Hl ins (sys_reset c) false)
    as [H1 H2]; try done.
  - unfold sys_reset, reset; cbn. by rewrite Hl.
  - by right.
  - cbn in *. lia.
Qed.

Lemma fifo_lo_wm_burst_runs_on_witness :
  let c := {| depth := 3; hi_wm := None; lo_wm := Some 1;
              payload_bits := 8 |} in
  let ae := λ level : Z, level <=? 1 in
  let ins := [write_cycle 1 false; write_cycle 2 false; write_cycle 3 false;
              write_cycle 4 false] in
  Z.of_nat (writes (fst (run c ae 0 (sys_reset c) ins))) = 3.
Proof.
  intros c ae ins.
  apply (fifo_lo_wm_burst_runs_on c 1 ae 0 ins).
  - reflexivity.
  - simpl. lia.
  - reflexivity.
  - repeat constructor.
Defined.

End FifoLoBurstClaim.

(** ** Choosing a converter: failures and directions *)

Section RatioMore.
Import Py Ratio.

Lemma ratio_of_error (cls : specialized_cls) (big small : Z) (e : exn) :
  ratio_of cls big small = inl e →
  (small = 0 ∧ e = ZeroDivisionError) ∨
  (small ≠ 0 ∧ ¬ (small | big) ∧ e = ValueError "Ratio must be an int").
Proof.
  unfold ratio_of, py_mod, py_floordiv, truthy.
  destruct (Z.eqb_spec small 0) as [->|Hs].
  - intros [= <-]. by left.
  - destruct (Z.eqb_spec (big mod small) 0) as [Hm|Hm]; cbn; [done|].
    intros [= <-]. right. split; [done|]. split; [|done].
    intros Hd. apply Hm. by apply Z.mod_divide.
Qed.

Lemma ratio_of_value (cls cls' : specialized_cls) (big small k : Z) :
  ratio_of cls big small = inr (cls', k) →
  cls' = cls ∧ small ≠ 0 ∧ big mod small = 0 ∧ k = big / small.
Proof.
  unfold ratio_of, py_mod, py_floordiv, truthy.
  destruct (Z.eqb_spec small 0) as [->|Hs]; [done|].
  destruct (Z.eqb_spec (big mod small) 0) as [Hm|Hm]; cbn; [|done].
  by intros [= <- <-].
Qed.

Lemma ratio_of_divides (cls : specialized_cls) (big small : Z) :
  small ≠ 0 → big mod small = 0 →
  ratio_of cls big small = inr (cls, big / small).
Proof.
  intros Hs Hm. unfold ratio_of, py_mod, py_floordiv, truthy.
  destruct (Z.eqb_spec small 0) as [?|_]; [done|].
  rewrite Hm. by cbn.
Qed.

Lemma specialize_value (cls : specialized_cls) (nbits_from nbits_to k : Z)
    (reverse report : bool) :
  (cls = _IdentityConverter → k = 1) →
  ∃ conv, specialize cls nbits_from nbits_to k reverse report = inr conv ∧
          specialized conv = cls ∧ conv_ratio conv = k ∧
          conv_reverse conv = reverse.
Proof.
  intros Hid. unfold specialize, source_layout.
  assert (match cls with
          | _IdentityConverter => negb (k =? 1)
          | _ => false
          end = false) as Hassert.
  { destruct cls; try done. rewrite Hid by done. reflexivity. }
  destruct report; vm_compute Layout.Endpoint; cbv iota; rewrite Hassert;
    eexists; (split; [reflexivity|done]).
Qed.

(** When constructing a converter fails, the exception is Python's
    [ZeroDivisionError] if the smaller of the two widths is 0, and the
    [ValueError] with the message [Ratio must be an int] otherwise; the
    assertion of the identity converter and the endpoint checks never fail
    on this path. *)
Theorem Converter_failure (nbits_from nbits_to : Z) (reverse report : bool)
    (e : exn) :
  Converter nbits_from nbits_to reverse report = inl e →
  nbits_from ≠ nbits_to ∧
  ((Z.min nbits_from nbits_to = 0 ∧ e = ZeroDivisionError) ∨
   (Z.min nbits_from nbits_to ≠ 0 ∧
    ¬ (Z.min nbits_from nbits_to | Z.max nbits_from nbits_to) ∧
    e = ValueError "Ratio must be an int")).
Proof.
  unfold Converter, _get_converter_ratio.
  destruct (Z.gtb_spec nbits_from nbits_to) as [Hgt|Hle].
  - rewrite Z.min_r, Z.max_l by lia.
    destruct (ratio_of _ _ _) as [e'|[cls k]] eqn:E.
    + intros [= <-]. split; [lia|]. by apply (ratio_of_error _DownConverter).
    + apply ratio_of_value in E as (-> & _).
      destruct (specialize_value _DownConverter nbits_from nbits_to k
                  reverse report) as (conv & -> & _); done.
  - destruct (Z.ltb_spec nbits_from nbits_to) as [Hlt|Hge].
    + rewrite Z.min_l, Z.max_r by lia.
      destruct (ratio_of _ _ _) as [e'|[cls k]] eqn:E.
      * intros [= <-]. split; [lia|]. by apply (ratio_of_error _UpConverter).
      * apply ratio_of_value in E as (-> & _).
        destruct (specialize_value _UpConverter nbits_from nbits_to k
                    reverse report) as (conv & -> & _); done.
    + destruct (specialize_value _IdentityConverter nbits_from nbits_to 1
                  reverse report) as (conv & -> & _); done.
Qed.

Lemma Converter_failure_witness :
  Converter 8 0 false false = inl ZeroDivisionError ∧
  8 ≠ 0 ∧
  ((Z.min 8 0 = 0 ∧ ZeroDivisionError = ZeroDivisionError) ∨
   (Z.min 8 0 ≠ 0 ∧ ¬ (Z.min 8 0 | Z.max 8 0) ∧
    ZeroDivisionError = ValueError "Ratio must be an int")).
Proof.
  split; [reflexivity|].
  apply (Converter_failure 8 0 false false ZeroDivisionError).
  reflexivity.
Defined.

(** A pair of widths selects the up-converter with ratio [k] exactly when
    the swapped pair selects the down-converter with the same ratio [k],
    whatever the other two arguments are. *)
Theorem Converter_directions (a b k : Z) (rev rev' rep rep' : bool) :
  (∃ conv, Converter a b rev rep = inr conv ∧
           specialized conv = _UpConverter ∧ conv_ratio conv = k) ↔
  (∃ conv, Converter b a rev' rep' = inr conv ∧
           specialized conv = _DownConverter ∧ conv_ratio conv = k).
Proof.
  unfold Converter, _get_converter_ratio.
  destruct (Z.gtb_spec a b) as [Hab|Hab], (Z.gtb_spec b a) as [Hba|Hba];
    try lia.
  - (* a > b *)
    destruct (Z.ltb_spec b a) as [_|?]; [|lia].
    split; intros (conv & Hc & Hcls & Hk); exfalso.
    + destruct (ratio_of _ _ _) as [?|[cls k']] eqn:E; [done|].
      apply ratio_of_value in E as (-> & _).
      destruct (specialize_value _DownConverter a b k' rev rep)
        as (conv' & Hc' & Hcls' & _); [done|]. congruence.
    + destruct (ratio_of _ _ _) as [?|[cls k']] eqn:E; [done|].
      apply ratio_of_value in E as (-> & _).
      destruct (specialize_value _UpConverter b a k' rev' rep')
        as (conv' & Hc' & Hcls' & _); [done|]. congruence.
  - (* a < b *)
    destruct (Z.ltb_spec a b) as [_|?]; [|lia].
    split; intros (conv & Hc & Hcls & Hk).
    + destruct (ratio_of _UpConverter b a) as [?|[cls k']] eqn:E; [done|].
      apply ratio_of_value in E as (-> & Ha & Hm & ->).
      destruct (specialize_value _UpConverter a b (b / a) rev rep)
        as (conv' & Hc' & _ & Hk' & _); [done|].
      rewrite (ratio_of_divides _DownConverter b a Ha Hm).
      destruct (specialize_value _DownConverter b a (b / a) rev' rep')
        as (conv'' & Hc'' & Hcls'' & Hk'' & _); [done|].
      exists conv''. split; [done|]. split; [done|]. congruence.
    + destruct (ratio_of _DownConverter b a) as [?|[cls k']] eqn:E; [done|].
      apply ratio_of_value in E as (-> & Ha & Hm & ->).
      destruct (specialize_value _DownConverter b a (b / a) rev' rep')
        as (conv' & Hc' & _ & Hk' & _); [done|].
      rewrite (ratio_of_divides _UpConverter b a Ha Hm).
      destruct (specialize_value _UpConverter a b (b / a) rev rep)
        as (conv'' & Hc'' & Hcls'' & Hk'' & _); [done|].
      exists conv''. split; [done|]. split; [done|]. congruence.
  - (* a = b *)
    assert (a = b) as -> by lia.
    destruct (Z.ltb_spec b b) as [?|_]; [lia|].
    destruct (specialize_value _IdentityConverter b b 1 rev rep)
      as (c1 & Hc1 & Hcls1 & _); [done|].
    destruct (specialize_value _IdentityConverter b b 1 rev' rep')
      as (c2 & Hc2 & Hcls2 & _); [done|].
    split; intros (conv & Hc & Hcls & _); congruence.
Qed.

Lemma Converter_directions_witness :
  ∃ conv, Converter 32 8 true false = inr conv ∧
          specialized conv = _DownConverter ∧ conv_ratio conv = 4.
Proof.
  apply (proj1 (Converter_directions 8 32 4 false true true false)).
  eexists. split; [reflexivity|]. split; reflexivity.
Defined.

End RatioMore.

(** ** The down-converter: position in the word *)

Section DownPosition.
Import Migen Conv.

Variable c : config.
Hypothesis ratio_pos : 1 ≤ ratio c.

#[local] Arguments wrap : simpl never.
#[local] Arguments bits_for : simpl never.
#[local] Arguments Z.sub : simpl never.
#[local] Arguments Z.add : simpl never.
#[local] Arguments Z.eqb : simpl never.
#[local] Arguments Z.leb : simpl never.
#[local] Arguments Z.ltb : simpl never.

Lemma down_position_run (ins : list inputs) (m : Z) :
  0 ≤ m < ratio c →
  let tr := down_run c {| mux := m |} ins in
  mux (down_final c {| mux := m |} ins)
  = (m + Z.of_nat (length (List.filter down_is_out tr))) mod ratio c ∧
  Z.of_nat (length (List.filter down_is_in tr))
  = (m + Z.of_nat (length (List.filter down_is_out tr))) / ratio c ∧
  Forall (λ e, 0 ≤ mux (snd (fst e)) < ratio c ∧
               down_source_data (snd e)
               = sub_word c (sink_data (fst (fst e))) (mux (snd (fst e))))
         tr.
Proof.
  revert m. induction ins as [|i ins IH]; intros m Hm.
  { cbn. rewrite Z.add_0_r, Z.mod_small, Z.div_small by lia. done. }
  cbn [down_run down_final List.filter]. cbv zeta.
  assert (down_is_out (i, {| mux := m |}, down_comb c {| mux := m |} i)
          = sink_stb i && source_ack i) as -> by done.
  assert (down_is_in (i, {| mux := m |}, down_comb c {| mux := m |} i)
          = sink_stb i && ((m =? ratio c - 1) && source_ack i)) as ->
    by done.
  assert (down_source_data (down_comb c {| mux := m |} i)
          = sub_word c (sink_data i) m) as Hdata.
  { unfold down_comb, down_select, sub_word; cbn.
    by replace ((0 <=? m) && (m <? ratio c)) with true by lia. }
  unfold down_sync. cbn [down_comb down_source_stb down_sink_ack last mux].
  destruct (sink_stb i && source_ack i) eqn:Hout.
  - apply andb_true_iff in Hout as [Hstb Hack]. rewrite Hstb, Hack. cbn [andb].
    destruct (Z.eqb_spec m (ratio c - 1)) as [Hlast|Hmid]; cbn [andb length].
    + destruct (IH 0) as (IH1 & IH2 & IH3); [lia|].
      cbv zeta in IH1, IH2, IH3. rewrite IH1.
      split; [|split].
      * rewrite Nat2Z.inj_succ.
        replace (m + Z.succ _) with
          (0 + Z.of_nat (length (List.filter down_is_out
                                   (down_run c {| mux := 0 |} ins)))
           + 1 * ratio c) by lia.
        by rewrite Z_mod_plus_full.
      * rewrite !Nat2Z.inj_succ, IH2.
        replace (m + Z.succ _) with
          (0 + Z.of_nat (length (List.filter down_is_out
                                   (down_run c {| mux := 0 |} ins)))
           + 1 * ratio c) by lia.
        rewrite Z.div_add by lia. lia.
      * constructor; [|done]. cbn [fst snd mux]. split; [lia|done].
    + rewrite wrap_small by lia.
      destruct (IH (m + 1)) as (IH1 & IH2 & IH3); [lia|].
      cbv zeta in IH1, IH2, IH3. rewrite IH1, IH2.
      rewrite Nat2Z.inj_succ.
      replace (m + Z.succ _) with
        (m + 1 + Z.of_nat (length (List.filter down_is_out
                                     (down_run c {| mux := m + 1 |} ins))))
        by lia.
      split; [done|]. split; [done|].
      constructor; [|done]. cbn [fst snd mux]. split; [lia|done].
  - assert (sink_stb i && ((m =? ratio c - 1) && source_ack i) = false)
      as ->.
    { destruct (sink_stb i), (source_ack i); try done;
        by rewrite ?andb_false_r. }
    destruct (IH m) as (IH1 & IH2 & IH3); [lia|].
    cbv zeta in IH1, IH2, IH3. rewrite IH1, IH2.
    split; [done|]. split; [done|].
    constructor; [|done]. cbn [fst snd mux]. split; [lia|done].
Qed.

End DownPosition.

Section DownPositionClaim.
Import Migen Conv.

(** Whatever the producer and the consumer do, the down-converter of ratio
    [ratio >= 1] counts its output transfers: from reset, [mux] is the number
    of output transfers modulo [ratio], the number of words taken from the
    sink is that number divided by [ratio], and in every cycle [mux] is
    below [ratio] and [source.data] is sub-word [mux] of [sink.data], so the
    default of the [Case] is never what selects the data. *)
Theorem down_converter_counts_transfers (c : config) (ins : list inputs) :
  1 ≤ ratio c →
  mux (down_final c down_reset ins)
  = Z.of_nat (length (List.filter down_is_out (down_run c down_reset ins)))
    mod ratio c ∧
  Z.of_nat (length (List.filter down_is_in (down_run c down_reset ins)))
  = Z.of_nat (length (List.filter down_is_out (down_run c down_reset ins)))
    / ratio c ∧
  Forall (λ e, 0 ≤ mux (snd (fst e)) < ratio c ∧
               down_source_data (snd e)
               = sub_word c (sink_data (fst (fst e))) (mux (snd (fst e))))
         (down_run c down_reset ins).
Proof.
  intros Hr.
  destruct (down_position_run c Hr ins 0) as (H1 & H2 & H3); [lia|].
  cbv zeta in H1, H2, H3. rewrite Z.add_0_l in H1, H2. done.
Qed.

Lemma down_converter_counts_transfers_witness :
  let c := {| nbits_from := 16; nbits_to := 8; ratio := 2; reverse := true;
              report_valid_token_count := false |} in
  let ins := [ {| sink_stb := true; sink_eop := false; sink_last := false;
                  sink_data := 0x2211; source_ack := true |};
               {| sink_stb := false; sink_eop := false; sink_last := false;
                  sink_data := 0; source_ack := true |};
               {| sink_stb := true; sink_eop := true; sink_last := false;
                  sink_data := 0x2211; source_ack := true |};
               {| sink_stb := true; sink_eop := false; sink_last := false;
                  sink_data := 0x4433; source_ack := true |} ] in
  mux (down_final c down_reset ins) = 1 ∧
  Z.of_nat (length (List.filter down_is_in (down_run c down_reset ins))) = 1.
Proof.
  intros c ins.
  destruct (down_converter_counts_transfers c ins) as (H1 & H2 & _).
  - simpl. lia.
  - rewrite H1, H2. split; reflexivity.
Defined.

End DownPositionClaim.

(** ** The FIFO wrapper: range of the burst counter *)

Section FifoCounterRange.
Import Migen Fifo.

(** With a high watermark [h >= 1], in every state the wrapper can reach,
    whatever the queue and the two peers do, [transfer_count] lies between 0
    and [h-1]: the decrement never wraps around, and [source.last] is raised
    whenever the counter is 0. *)
Theorem fifo_hi_wm_counter_in_range (c : config) (h : Z) (r : regs)
    (q : queue_out) (s : sink_in) (a : bool) :
  hi_wm c = Some h → 1 ≤ h → reachable c r →
  ∃ hr, hi r = Some hr ∧
        0 ≤ transfer_count hr ≤ h - 1 ∧
        (transfer_count hr = 0 → source_last (comb c r q s a) = true).
Proof.
  intros Hh Hpos Hr.
  destruct (reachable_transfer_count c h Hh Hpos r Hr) as (hr & Hhi & Htc).
  exists hr. split; [done|]. split; [done|].
  intros H0. unfold comb; cbn. by rewrite Hhi, H0.
Qed.

Lemma fifo_hi_wm_counter_in_range_witness :
  let c := {| depth := 8; hi_wm := Some 4; lo_wm := None;
              payload_bits := 8 |} in
  let q := {| writable := true; readable := true; almost_full := true;
              almost_empty := false; dout := 0x55 |} in
  let s := {| sink_stb := false; sink_eop := false; sink_last := false;
              sink_payload := 0 |} in
  ∃ hr, hi (sync c (reset c) q s true) = Some hr ∧
        0 ≤ transfer_count hr ≤ 4 - 1 ∧
        (transfer_count hr = 0 →
         source_last (comb c (sync c (reset c) q s true) q s true) = true).
Proof.
  intros c q s.
  apply (fifo_hi_wm_counter_in_range c 4 (sync c (reset c) q s true) q s
           true).
  - reflexivity.
  - lia.
  - apply reach_sync, reach_reset.
Defined.

End FifoCounterRange.

(** ** The stride converter: casts between fields and raw bits *)

Section StrideBits.
Import Migen Stride.

Lemma index_id (w a : Z) : 0 ≤ a ≤ w → index w a = a.
Proof.
  intros Ha. unfold index.
  destruct (Z.ltb_spec a 0) as [?|_]; lia.
Qed.

Lemma index_mono (w a b : Z) : 0 ≤ a ≤ b → 0 ≤ w → 0 ≤ index w a ≤ index w b.
Proof.
  intros Hab Hw. unfold index.
  destruct (Z.ltb_spec a 0), (Z.ltb_spec b 0); lia.
Qed.

Lemma bits_above (v w n : Z) :
  0 ≤ v < 2 ^ w → w ≤ n → Z.testbit v n = false.
Proof.
  intros Hv Hn.
  destruct (Z.le_gt_cases 0 w) as [Hw|Hw].
  - rewrite <- (Z.mod_small v (2 ^ w)) by done.
    apply Z.mod_pow2_bits_high. lia.
  - rewrite Z.pow_neg_r in Hv by done. lia.
Qed.

(** A slice taken beyond the end of an unsigned signal reads zeros, so the
    clamping of the bounds does not show in the value. *)
Lemma read_chunk (s : signal) (a b : Z) :
  0 ≤ sig_value s < 2 ^ sig_width s → 0 ≤ a ≤ b →
  read s a b = slice (sig_value s) a b.
Proof.
  intros Hv Hab. unfold read.
  assert (0 ≤ sig_width s) as Hw.
  { destruct (Z.le_gt_cases 0 (sig_width s)) as [?|Hneg]; [done|].
    rewrite Z.pow_neg_r in Hv by done. lia. }
  assert (index (sig_width s) a = Z.min a (sig_width s)) as ->.
  { unfold index. destruct (Z.ltb_spec a 0); lia. }
  assert (index (sig_width s) b = Z.min b (sig_width s)) as ->.
  { unfold index. destruct (Z.ltb_spec b 0); lia. }
  apply Z.bits_inj'. intros n Hn.
  rewrite !slice_spec by lia.
  destruct (Z.le_gt_cases (sig_width s) (n + a)) as [Hhigh|Hlow].
  - rewrite (bits_above _ (sig_width s) (n + a)) by done.
    rewrite (bits_above _ (sig_width s) (n + Z.min a (sig_width s)))
      by (done || lia).
    done.
  - replace (Z.min a (sig_width s)) with a by lia. f_equal.
    destruct (Z.ltb_spec n (b - a)), (Z.ltb_spec n (Z.min b (sig_width s) - a));
      lia.
Qed.

Lemma slice_slice (v lo hi a b : Z) :
  0 ≤ lo → 0 ≤ a ≤ b → lo + b ≤ hi →
  slice (slice v lo hi) a b = slice v (lo + a) (lo + b).
Proof.
  intros Hlo Hab Hhi. apply Z.bits_inj'. intros n Hn.
  rewrite !slice_spec by lia.
  replace (n + a + lo) with (n + (lo + a)) by lia.
  replace (lo + b - (lo + a)) with (b - a) by lia.
  destruct (Z.ltb_spec n (b - a)) as [H1|H1]; [|by rewrite !andb_false_r].
  replace (n + a <? hi - lo) with true by lia.
  by rewrite !andb_true_r.
Qed.

Lemma slice_idem (v lo hi : Z) :
  0 ≤ lo ≤ hi →
  Z.land (slice v lo hi) (Z.ones (hi - lo)) = slice v lo hi.
Proof.
  intros H. unfold slice. rewrite <- Z.land_assoc. f_equal.
  apply Z.land_diag.
Qed.

Lemma layout_len_app (l1 l2 : layout) :
  layout_len (l1 ++ l2) = layout_len l1 + layout_len l2.
Proof. induction l1 as [|f l1 IH]; cbn [app layout_len]; lia. Qed.

Lemma layout_len_nonneg (l : layout) :
  Forall (λ f, 0 ≤ snd f) l → 0 ≤ layout_len l.
Proof. induction 1; cbn [layout_len]; lia. Qed.

(** Field number [k] of the unpacked raw bits. *)
Lemma assign_raw_bits_lookup (l : layout) (data : Z) (k : nat)
    (name : string) (w : Z) :
  Forall (λ f, 0 ≤ snd f) l →
  l !! k = Some (name, w) →
  assign_raw_bits l data !! k
  = Some (name, {| sig_width := w;
                   sig_value := slice data (offset l k) (offset l k + w) |}).
Proof.
  unfold offset. intros Hl. revert data k.
  induction Hl as [|f l Hf Hl IH]; intros data k Hk; [done|].
  destruct k as [|k]; cbn [assign_raw_bits].
  - injection Hk as ->. cbn. done.
  - cbn in Hk. cbn [lookup list_lookup take layout_len].
    change ((f :: l) !! S k) with (l !! k) in *.
    rewrite (IH _ _ Hk). do 3 f_equal.
    pose proof (layout_len_nonneg (take k l)
                  (Forall_take _ _ _ Hl)) as Hoff.
    assert (0 ≤ w) as Hw.
    { rewrite Forall_lookup in Hl. apply (Hl k (name, w) Hk). }
    apply Z.bits_inj'. intros n Hn.
    rewrite !slice_spec by lia. rewrite Z.shiftr_spec by lia.
    f_equal; [f_equal; lia|].
    destruct (Z.ltb_spec n (layout_len (take k l) + w - layout_len (take k l))),
             (Z.ltb_spec n (snd f + layout_len (take k l) + w
                            - (snd f + layout_len (take k l)))); lia.
Qed.

End StrideBits.

Section StrideStatements.
Import Migen Stride.

(** Statements on other signals, or on slices that lie above [lo:hi], leave
    the slice [lo:hi] as it is. *)
Lemma drive_above (t : string) (stmts : list assign) (v lo hi : Z) :
  0 ≤ lo ≤ hi →
  Forall (λ x, a_target x = t → 0 ≤ a_lo x ≤ a_hi x ∧ hi ≤ a_lo x) stmts →
  slice (fold_left (λ v a, if decide (a_target a = t)
                           then set_slice v (a_lo a) (a_hi a) (a_src a)
                           else v) stmts v) lo hi
  = slice v lo hi.
Proof.
  intros Hlo Hall. revert v.
  induction Hall as [|x stmts Hx _ IH]; intros v; [done|].
  cbn [fold_left]. rewrite IH.
  destruct (decide (a_target x = t)) as [Ht|_]; [|done].
  destruct (Hx Ht) as [Hxr Hxa].
  apply slice_set_slice_other; lia.
Qed.

(** A statement reads back from the driven signal when no later statement
    on the same signal overlaps it. *)
Lemma drive_read (t : string) (before after : list assign) (a : assign) :
  a_target a = t → 0 ≤ a_lo a ≤ a_hi a →
  Forall (λ x, a_target x = t → 0 ≤ a_lo x ≤ a_hi x ∧ a_hi a ≤ a_lo x)
         after →
  slice (drive t (before ++ a :: after)) (a_lo a) (a_hi a)
  = Z.land (a_src a) (Z.ones (a_hi a - a_lo a)).
Proof.
  intros Ht Ha Hafter. unfold drive.
  rewrite fold_left_app. cbn [fold_left].
  rewrite drive_above by done.
  destruct (decide (a_target a = t)) as [_|?]; [|done].
  apply slice_set_slice_same; lia.
Qed.

Lemma rows_app (row : Z → option (list assign)) (r1 r2 : list Z) :
  rows row (r1 ++ r2)
  = match rows row r1, rows row r2 with
    | Some a, Some b => Some (a ++ b)
    | _, _ => None
    end.
Proof.
  induction r1 as [|i r1 IH]; cbn [app rows].
  - by destruct (rows row r2).
  - rewrite IH. destruct (row i) as [R|]; [|done].
    destruct (rows row r1) as [A|]; [|done].
    destruct (rows row r2) as [B|]; [|done].
    by rewrite app_assoc.
Qed.

Lemma rows_Forall (P : assign → Prop) (row : Z → option (list assign))
    (range : list Z) (A : list assign) :
  rows row range = Some A →
  (∀ i R, i ∈ range → row i = Some R → Forall P R) →
  Forall P A.
Proof.
  revert A. induction range as [|i range IH]; intros A; cbn [rows].
  - by intros [= <-] _.
  - destruct (row i) as [R|] eqn:ER; [|done].
    destruct (rows row range) as [B|]; [|done].
    intros [= <-] Hrow. apply Forall_app. split.
    + apply (Hrow i); [left|done].
    + apply IH; [done|]. intros j R' Hj. apply Hrow. by right.
Qed.

Lemma down_fields_app (sink : payload) (nf nt i j : Z) (l1 l2 : layout) :
  down_fields sink nf nt i j (l1 ++ l2)
  = match down_fields sink nf nt i j l1,
          down_fields sink nf nt i (j + layout_len l1) l2 with
    | Some a, Some b => Some (a ++ b)
    | _, _ => None
    end.
Proof.
  revert j. induction l1 as [|f l1 IH]; intros j; cbn [app down_fields layout_len].
  - rewrite Z.add_0_r. by destruct (down_fields _ _ _ _ _ l2).
  - destruct (getattr sink (fst f)) as [s|]; [|done].
    rewrite IH, Z.add_assoc.
    destruct (down_fields sink nf nt i (j + snd f) l1) as [A|]; [|done].
    by destruct (down_fields _ _ _ _ _ l2).
Qed.

(** Where the statements of one row of the sink cast write. *)
Lemma down_fields_bounds (sink : payload) (nf nt i j : Z) (l : layout)
    (A : list assign) :
  Forall (λ f, 0 ≤ snd f) l →
  0 ≤ i * nt + j → i * nt + j + layout_len l ≤ nf →
  down_fields sink nf nt i j l = Some A →
  Forall (λ x, 0 ≤ a_lo x ≤ a_hi x ∧ i * nt + j ≤ a_lo x) A.
Proof.
  intros Hl. revert j A.
  induction Hl as [|f l Hf Hl IH]; intros j A Hj Hend; cbn [down_fields].
  { by intros [= <-]. }
  cbn [layout_len] in Hend.
  pose proof (layout_len_nonneg l Hl) as Hlen.
  destruct (getattr sink (fst f)) as [s|]; [|done].
  destruct (down_fields sink nf nt i (j + snd f) l) as [B|] eqn:EB; [|done].
  intros [= <-]. constructor.
  - cbn [a_lo a_hi]. rewrite !index_id by lia. lia.
  - apply (IH (j + snd f)) in EB; [|lia|lia].
    eapply Forall_impl; [exact EB|]. cbn. intros x Hx. lia.
Qed.

End StrideStatements.

Section StrideConstruction.
Import Py Ratio Stride.

(** What a built converter says about the two widths. *)
Lemma Converter_value (a b : Z) (rev rep : bool) (conv : converter) :
  Converter a b rev rep = inr conv →
  conv_reverse conv = rev ∧
  match specialized conv with
  | _DownConverter =>
      b < a ∧ b ≠ 0 ∧ a mod b = 0 ∧ conv_ratio conv = a / b
  | _UpConverter =>
      a < b ∧ a ≠ 0 ∧ b mod a = 0 ∧ conv_ratio conv = b / a
  | _IdentityConverter => a = b ∧ conv_ratio conv = 1
  end.
Proof.
  unfold Converter, _get_converter_ratio.
  destruct (Z.gtb_spec a b) as [Hgt|Hle].
  - destruct (ratio_of _ _ _) as [?|[cls k]] eqn:E; [done|].
    apply ratio_of_value in E as (-> & Hb & Hm & ->).
    destruct (specialize_value _DownConverter a b (a / b) rev rep)
      as (conv' & -> & Hcls & Hk & Hrev); [done|].
    intros [= <-]. rewrite Hcls. split; [done|]. repeat split; try done.
  - destruct (Z.ltb_spec a b) as [Hlt|Hge].
    + destruct (ratio_of _ _ _) as [?|[cls k]] eqn:E; [done|].
      apply ratio_of_value in E as (-> & Hb & Hm & ->).
      destruct (specialize_value _UpConverter a b (b / a) rev rep)
        as (conv' & -> & Hcls & Hk & Hrev); [done|].
      intros [= <-]. rewrite Hcls. split; [done|]. repeat split; done.
    + destruct (specialize_value _IdentityConverter a b 1 rev rep)
        as (conv' & -> & Hcls & Hk & Hrev); [done|].
      intros [= <-]. rewrite Hcls. split; [done|]. split; [lia|done].
Qed.

(** What a built stride converter says about its two layouts. *)
Lemma StrideConverter_value (lf lt : layout) (rev rep : bool)
    (conv : converter) :
  StrideConverter lf lt rev rep = inr conv →
  NoDup (fst <$> lf) ∧ NoDup (fst <$> lt) ∧
  Converter (layout_len lf) (layout_len lt) rev rep = inr conv.
Proof.
  unfold StrideConverter.
  destruct (Layout.Endpoint (fields lf)) as [?|ef] eqn:Ef; [done|].
  destruct (Layout.Endpoint (fields lt)) as [?|et] eqn:Et; [done|].
  intros Hc.
  assert (∀ l e, Layout.Endpoint (fields l) = inr e → NoDup (fst <$> l))
    as Hnd.
  { intros l e. unfold Layout.Endpoint, Layout.get_full_layout.
    destruct (Layout.check_fields ∅ (fields l)) as [?|] eqn:E; [done|].
    intros _. apply check_fields_None in E as [Hnd _].
    unfold fields in Hnd. rewrite <- list_fmap_compose in Hnd.
    exact Hnd. }
  split; [by apply (Hnd lf ef)|]. split; [by apply (Hnd lt et)|done].
Qed.

End StrideConstruction.

Section StrideDown.
Import Py Migen Ratio Stride.

(** When the stride converter narrows, the output word formed while the
    down-converter's [mux] is [m] carries, in every field of [layout_to],
    chunk number [n] of the sink field of the same name, where [n] is the
    slot the down-converter selects at [m] ([m], or [ratio-1-m] when
    reversed) and a chunk is as wide as the field of [layout_to]. *)
Theorem StrideConverter_down_field (lf lt : layout) (rev rep : bool)
    (conv : converter) (sink : payload) (data m : Z) (i : Conv.inputs)
    (k : nat) (name : string) (w : Z) (s : signal) :
  StrideConverter lf lt rev rep = inr conv →
  specialized conv = _DownConverter →
  Forall (λ f, 0 ≤ snd f) lt →
  sink_cast conv lf lt sink = Some data →
  Conv.sink_data i = data →
  0 ≤ m < conv_ratio conv →
  lt !! k = Some (name, w) →
  getattr sink name = Some s →
  0 ≤ sig_value s < 2 ^ sig_width s →
  let c := {| Conv.nbits_from := layout_len lf;
              Conv.nbits_to := layout_len lt;
              Conv.ratio := conv_ratio conv;
              Conv.reverse := conv_reverse conv;
              Conv.report_valid_token_count := rep |} in
  ∃ out,
    source_cast conv lf lt
      (Conv.down_source_data (Conv.down_comb c {| Conv.mux := m |} i))
    = Some out ∧
    out !! k
    = Some (name,
            {| sig_width := w;
               sig_value := slice (sig_value s) (Conv.slot c m * w)
                                  ((Conv.slot c m + 1) * w) |}).
Proof.
  intros Hbuilt Hcls Hlt Hcast Hdata Hm Hk Hget Hval c.
  apply StrideConverter_value in Hbuilt as (_ & _ & Hconv).
  apply Converter_value in Hconv as [Hrev Hconv].
  rewrite Hcls in Hconv. destruct Hconv as (Hgt & Hnt0 & Hmod & Hratio).
  set (nf := layout_len lf) in *. set (nt := layout_len lt) in *.
  set (r := conv_ratio conv) in *.
  pose proof (layout_len_nonneg lt Hlt) as Hnt. fold nt in Hnt.
  assert (nf = r * nt) as Hnf.
  { rewrite Hratio. rewrite (Z.div_mod nf nt) at 1 by done. lia. }
  set (n := Conv.slot c m).
  assert (0 ≤ n < r) as Hn.
  { unfold n, Conv.slot. cbn. fold r. destruct (conv_reverse conv); lia. }
  exists (assign_raw_bits lt
            (Conv.down_source_data (Conv.down_comb c {| Conv.mux := m |} i))).
  split; [unfold source_cast; by rewrite Hcls|].
  rewrite (assign_raw_bits_lookup lt _ k name w Hlt Hk).
  do 3 f_equal.
  (* the selected sub-word *)
  assert (0 ≤ w) as Hw.
  { rewrite Forall_lookup in Hlt. apply (Hlt k (name, w) Hk). }
  assert (lt = take k lt ++ (name, w) :: drop (S k) lt) as Hsplit.
  { by rewrite take_drop_middle. }
  assert (0 ≤ layout_len (take k lt)) as Hoff
    by (by apply layout_len_nonneg, Forall_take).
  assert (0 ≤ layout_len (drop (S k) lt)) as Hrest
    by (by apply layout_len_nonneg, Forall_drop).
  assert (nt = offset lt k + w + layout_len (drop (S k) lt)) as Hsum.
  { unfold nt, offset. rewrite Hsplit at 1.
    rewrite layout_len_app. cbn [layout_len snd]. lia. }
  unfold offset in *. set (off := layout_len (take k lt)) in *.
  assert (Conv.down_source_data (Conv.down_comb c {| Conv.mux := m |} i)
          = slice data (n * nt) ((n + 1) * nt)) as ->.
  { unfold Conv.down_comb, Conv.down_select. cbn. fold r.
    replace ((0 <=? m) && (m <? r)) with true by lia.
    by rewrite Hdata. }
  rewrite slice_slice by nia.
  (* the statement that drives these bits *)
  revert Hcast. unfold sink_cast. rewrite Hcls. fold nf nt r.
  destruct (rows _ _) as [A|] eqn:EA; [|done]. intros [= <-].
  replace (seqZ 0 r) with (seqZ 0 n ++ n :: seqZ (n + 1) (r - n - 1)) in EA.
  2:{ transitivity (seqZ 0 (n + (r - n))); [|f_equal; lia].
      rewrite seqZ_app by lia. f_equal. rewrite Z.add_0_l.
      rewrite (seqZ_cons n) by lia. f_equal. }
  rewrite rows_app in EA. cbn [rows] in EA.
  destruct (rows _ (seqZ 0 n)) as [Apre|]; [|done].
  destruct (down_fields sink nf nt n 0 lt) as [R|] eqn:ER; [|done].
  destruct (rows _ (seqZ (n + 1) _)) as [Apost|] eqn:EP; [|done].
  injection EA as <-.
  rewrite Hsplit, down_fields_app in ER. cbn [down_fields fst snd] in ER.
  fold off in ER. rewrite Hget in ER.
  destruct (down_fields sink nf nt n 0 (take k lt)) as [R1|]; [|done].
  destruct (down_fields sink nf nt n (0 + off + w) (drop (S k) lt))
    as [R2|] eqn:ER2; [|done].
  injection ER as <-.
  set (a := {| a_target := "data";
               a_lo := index nf (n * nt + (0 + off));
               a_hi := index nf (n * nt + (0 + off) + w);
               a_src := read s (n * w) ((n + 1) * w) |}).
  replace (Apre ++ (R1 ++ a :: R2) ++ Apost)
    with ((Apre ++ R1) ++ a :: (R2 ++ Apost))
    by (by rewrite <- !app_assoc).
  assert (a_lo a = n * nt + off) as Hlo.
  { unfold a. cbn [a_lo]. rewrite index_id by nia. lia. }
  assert (a_hi a = n * nt + off + w) as Hhi.
  { unfold a. cbn [a_hi]. rewrite index_id by nia. lia. }
  replace (n * nt + (off + w)) with (a_hi a) by lia.
  replace (n * nt + off) with (a_lo a) by lia.
  rewrite (drive_read "data" _ _ a); [| done | lia |].
  - unfold a at 1. cbn [a_src]. rewrite Hlo, Hhi.
    rewrite read_chunk by (done || nia).
    replace (n * nt + off + w - (n * nt + off))
      with ((n + 1) * w - n * w) by lia.
    apply slice_idem. nia.
  - apply Forall_app. split.
    + apply down_fields_bounds in ER2;
        [|by apply Forall_drop|nia|nia].
      eapply Forall_impl; [exact ER2|]. cbv beta. intros x Hx _. lia.
    + eapply rows_Forall; [exact EP|].
      intros j R Hj HR. apply elem_of_seqZ in Hj.
      apply down_fields_bounds in HR; [|done|nia|nia].
      eapply Forall_impl; [exact HR|]. cbv beta. intros x Hx _. nia.
Qed.

Lemma StrideConverter_down_field_witness :
  let lf := [("a", 16); ("b", 8)] in
  let lt := [("a", 8); ("b", 4)] in
  let conv := {| specialized := _DownConverter; conv_ratio := 2;
                 conv_reverse := false;
                 conv_sink := data_endpoint 24;
                 conv_source := data_endpoint 12 |} in
  let c := {| Conv.nbits_from := 24; Conv.nbits_to := 12; Conv.ratio := 2;
              Conv.reverse := false;
              Conv.report_valid_token_count := false |} in
  let i := {| Conv.sink_stb := true; Conv.sink_eop := false;
              Conv.sink_last := false; Conv.sink_data := 0x5BEAEF;
              Conv.source_ack := true |} in
  ∃ out,
    source_cast conv lf lt
      (Conv.down_source_data (Conv.down_comb c {| Conv.mux := 1 |} i))
    = Some out ∧
    out !! 1%nat
    = Some ("b", {| sig_width := 4; sig_value := slice 0x5A 4 8 |}).
Proof.
  intros lf lt conv c i.
  apply (StrideConverter_down_field lf lt false false conv
           [("a", {| sig_width := 16; sig_value := 0xBEEF |});
            ("b", {| sig_width := 8; sig_value := 0x5A |})]
           0x5BEAEF 1 i 1 "b" 4 {| sig_width := 8; sig_value := 0x5A |}).
  - reflexivity.
  - reflexivity.
  - repeat constructor; cbn; lia.
  - reflexivity.
  - reflexivity.
  - cbn. lia.
  - reflexivity.
  - reflexivity.
  - cbn. lia.
Defined.

End StrideDown.

Section StrideUp.
Import Py Migen Ratio Stride.

Lemma up_fields_app (source : layout) (data nf nt i j : Z) (l1 l2 : layout) :
  up_fields source data nf nt i j (l1 ++ l2)
  = match up_fields source data nf nt i j l1,
          up_fields source data nf nt i (j + layout_len l1) l2 with
    | Some a, Some b => Some (a ++ b)
    | _, _ => None
    end.
Proof.
  revert j. induction l1 as [|f l1 IH]; intros j; cbn [app up_fields layout_len].
  - rewrite Z.add_0_r. by destruct (up_fields _ _ _ _ _ _ l2).
  - destruct (getattr source (fst f)) as [w|]; [|done].
    rewrite IH, Z.add_assoc.
    destruct (up_fields source data nf nt i (j + snd f) l1) as [A|]; [|done].
    by destruct (up_fields _ _ _ _ _ _ l2).
Qed.

(** Which slices the statements of one row of the source cast drive. *)
Lemma up_fields_targets (source : layout) (data nf nt i j : Z) (l : layout)
    (A : list assign) :
  up_fields source data nf nt i j l = Some A →
  Forall (λ x, ∃ f W, f ∈ l ∧ a_target x = fst f ∧
                      getattr source (fst f) = Some W ∧
                      a_lo x = index W (i * snd f) ∧
                      a_hi x = index W ((i + 1) * snd f)) A.
Proof.
  revert j A. induction l as [|f l IH]; intros j A; cbn [up_fields].
  { by intros [= <-]. }
  destruct (getattr source (fst f)) as [W|] eqn:EW; [|done].
  destruct (up_fields source data nf nt i (j + snd f) l) as [B|] eqn:EB;
    [|done].
  intros [= <-]. constructor.
  - exists f, W. split; [left|]. done.
  - apply IH in EB. eapply Forall_impl; [exact EB|]. cbv beta.
    intros x (f' & W' & Hin & Hx). exists f', W'. split; [by right|done].
Qed.

Lemma unique_field (l : layout) (name : string) (w1 w2 : Z) :
  NoDup (fst <$> l) → (name, w1) ∈ l → (name, w2) ∈ l → w1 = w2.
Proof.
  induction l as [|f l IH]; intros Hnd H1 H2; [by inversion H1|].
  cbn in Hnd. apply NoDup_cons in Hnd as [Hf Hnd].
  apply elem_of_cons in H1 as [H1|H1], H2 as [H2|H2].
  - congruence.
  - subst f. exfalso. apply Hf. cbn.
    apply list_elem_of_fmap. by exists (name, w2).
  - subst f. exfalso. apply Hf. cbn.
    apply list_elem_of_fmap. by exists (name, w1).
  - by apply IH.
Qed.

Lemma getattr_driven (l : layout) (g : string → Z) (name : string) (W : Z) :
  getattr l name = Some W →
  getattr (List.map (λ f, (fst f, {| sig_width := snd f;
                                     sig_value := g (fst f) |})) l) name
  = Some {| sig_width := W; sig_value := g name |}.
Proof.
  induction l as [|f l IH]; cbn [getattr List.map fst snd]; [done|].
  destruct (decide (fst f = name)) as [<-|_]; [|done].
  by intros [= <-].
Qed.

(** When the stride converter widens, chunk number [i] of a source field
    is what the output word of the up-converter holds in slot [i] for the
    field of [layout_from] with the same name, a chunk being as wide as
    that field; this holds for every chunk that fits the source field. *)
Theorem StrideConverter_up_field (lf lt : layout) (rev rep : bool)
    (conv : converter) (data : Z) (out : payload)
    (k : nat) (name : string) (w W i : Z) :
  StrideConverter lf lt rev rep = inr conv →
  specialized conv = _UpConverter →
  Forall (λ f, 0 ≤ snd f) lf →
  source_cast conv lf lt data = Some out →
  lf !! k = Some (name, w) →
  getattr lt name = Some W →
  0 ≤ i < conv_ratio conv → (i + 1) * w ≤ W →
  ∃ s, getattr out name = Some s ∧ sig_width s = W ∧
       slice (sig_value s) (i * w) ((i + 1) * w)
       = slice data (i * layout_len lf + offset lf k)
               (i * layout_len lf + offset lf k + w).
Proof.
  intros Hbuilt Hcls Hlf Hcast Hk HW Hi Hfit.
  apply StrideConverter_value in Hbuilt as (Hnd & _ & Hconv).
  apply Converter_value in Hconv as [_ Hconv].
  rewrite Hcls in Hconv. destruct Hconv as (Hlt & Hnf0 & Hmod & Hratio).
  set (nf := layout_len lf) in *. set (nt := layout_len lt) in *.
  set (r := conv_ratio conv) in *.
  pose proof (layout_len_nonneg lf Hlf) as Hnf. fold nf in Hnf.
  assert (nt = r * nf) as Hnt.
  { rewrite Hratio. rewrite (Z.div_mod nt nf) at 1 by done. lia. }
  assert (0 ≤ w) as Hw.
  { rewrite Forall_lookup in Hlf. apply (Hlf k (name, w) Hk). }
  assert (lf = take k lf ++ (name, w) :: drop (S k) lf) as Hsplit.
  { by rewrite take_drop_middle. }
  assert (0 ≤ layout_len (take k lf)) as Hoff
    by (by apply layout_len_nonneg, Forall_take).
  assert (0 ≤ layout_len (drop (S k) lf)) as Hrest
    by (by apply layout_len_nonneg, Forall_drop).
  assert (nf = offset lf k + w + layout_len (drop (S k) lf)) as Hsum.
  { unfold nf, offset. rewrite Hsplit at 1.
    rewrite layout_len_app. cbn [layout_len snd]. lia. }
  unfold offset in *. set (off := layout_len (take k lf)) in *.
  revert Hcast. unfold source_cast. rewrite Hcls. fold nf nt r.
  destruct (rows _ _) as [A|] eqn:EA; [|done]. intros [= <-].
  exists {| sig_width := W; sig_value := drive name A |}.
  split; [exact (getattr_driven lt (λ n, drive n A) name W HW)|].
  split; [done|].
  cbn [sig_value].
  replace (seqZ 0 r) with (seqZ 0 i ++ i :: seqZ (i + 1) (r - i - 1)) in EA.
  2:{ transitivity (seqZ 0 (i + (r - i))); [|f_equal; lia].
      rewrite seqZ_app by lia. f_equal. rewrite Z.add_0_l.
      rewrite (seqZ_cons i) by lia. f_equal. }
  rewrite rows_app in EA. cbn [rows] in EA.
  destruct (rows _ (seqZ 0 i)) as [Apre|]; [|done].
  destruct (up_fields lt data nf nt i 0 lf) as [R|] eqn:ER; [|done].
  destruct (rows _ (seqZ (i + 1) _)) as [Apost|] eqn:EP; [|done].
  injection EA as <-.
  rewrite Hsplit, up_fields_app in ER. cbn [up_fields fst snd] in ER.
  fold off in ER. rewrite HW in ER.
  destruct (up_fields lt data nf nt i 0 (take k lf)) as [R1|]; [|done].
  destruct (up_fields lt data nf nt i (0 + off + w) (drop (S k) lf))
    as [R2|] eqn:ER2; [|done].
  injection ER as <-.
  set (a := {| a_target := name;
               a_lo := index W (i * w);
               a_hi := index W ((i + 1) * w);
               a_src := read {| sig_width := nt; sig_value := data |}
                             (i * nf + (0 + off)) (i * nf + (0 + off) + w) |}).
  replace (Apre ++ (R1 ++ a :: R2) ++ Apost)
    with ((Apre ++ R1) ++ a :: (R2 ++ Apost))
    by (by rewrite <- !app_assoc).
  assert (a_lo a = i * w) as Hlo.
  { unfold a. cbn [a_lo]. rewrite index_id by nia. lia. }
  assert (a_hi a = (i + 1) * w) as Hhi.
  { unfold a. cbn [a_hi]. rewrite index_id by nia. lia. }
  rewrite <- Hhi, <- Hlo.
  rewrite (drive_read name _ _ a); [| done | nia |].
  - unfold a at 1. cbn [a_src]. rewrite Hlo, Hhi.
    unfold read. cbn [sig_width sig_value].
    rewrite !index_id by nia.
    replace (i * nf + (0 + off)) with (i * nf + off) by lia.
    replace ((i + 1) * w - i * w)
      with (i * nf + off + w - (i * nf + off)) by lia.
    apply slice_idem. lia.
  - apply Forall_app. split.
    + (* the later fields of the same row have other names *)
      apply up_fields_targets in ER2.
      eapply Forall_impl; [exact ER2|]. cbv beta.
      intros x (f & W' & Hin & Hx & _) Ht. exfalso.
      rewrite Hsplit in Hnd. rewrite fmap_app in Hnd.
      apply NoDup_app in Hnd as (_ & _ & Hnd). cbn in Hnd.
      apply NoDup_cons in Hnd as [Hnd _]. apply Hnd.
      apply list_elem_of_fmap. exists f. split; [congruence|done].
    + (* the later rows drive higher chunks *)
      eapply rows_Forall; [exact EP|].
      intros j R Hj HR. apply elem_of_seqZ in Hj.
      apply up_fields_targets in HR.
      eapply Forall_impl; [exact HR|]. cbv beta.
      intros x (f & W' & Hin & Hx & HW' & Hxlo & Hxhi) Ht.
      assert (f = (name, w)) as ->.
      { destruct f as [fn fw]. cbn [fst] in Hx.
        assert (fn = name) as -> by congruence.
        f_equal. apply (unique_field lf name fw w Hnd Hin).
        by apply list_elem_of_lookup_2 in Hk. }
      cbn [fst snd] in *. rewrite HW in HW'. injection HW' as <-.
      rewrite Hxlo, Hxhi, Hhi. unfold index.
      destruct (Z.ltb_spec (j * w) 0), (Z.ltb_spec ((j + 1) * w) 0); nia.
Qed.

Lemma StrideConverter_up_field_witness :
  let lf := [("a", 8); ("b", 4)] in
  let lt := [("a", 16); ("b", 8)] in
  let conv := {| specialized := _UpConverter; conv_ratio := 2;
                 conv_reverse := false;
                 conv_sink := data_endpoint 12;
                 conv_source := data_endpoint 24 |} in
  ∃ s, getattr [("a", {| sig_width := 16; sig_value := 0xBEEF |});
                ("b", {| sig_width := 8; sig_value := 0x5A |})] "b"
       = Some s ∧
       sig_width s = 8 ∧
       slice (sig_value s) (1 * 4) ((1 + 1) * 4)
       = slice 0x5BEAEF (1 * layout_len lf + offset lf 1)
               (1 * layout_len lf + offset lf 1 + 4).
Proof.
  intros lf lt conv.
  apply (StrideConverter_up_field lf lt false false conv 0x5BEAEF
           [("a", {| sig_width := 16; sig_value := 0xBEEF |});
            ("b", {| sig_width := 8; sig_value := 0x5A |})]
           1 "b" 4 8 1).
  - reflexivity.
  - reflexivity.
  - repeat constructor; cbn; lia.
  - reflexivity.
  - reflexivity.
  - reflexivity.
  - cbn. lia.
  - lia.
Defined.

End StrideUp.

Section StrideIdentity.
Import Py Migen Ratio Stride.







End StrideIdentity.
